(** * wsmol/resnet.py: CAM extraction heads, model factories and checkpoint
      loading, embedded in Rocq.

    Tensors are stored the way the numerical engine stores a contiguous
    tensor: a shape and a row-major list of scalars.  [view] reinterprets that
    list, broadcasting and reductions are written through the index
    arithmetic.  A Python exception is a [Raise] of the small error monad
    [result].  The scalar arithmetic is a parameter (class [Scalar]); the
    theorems say which arithmetic laws they rely on, and the examples run on
    the canonical rationals [Qc].

    The convolutional layers are functions on tensors that the heads are
    given ([module]); [detach], [clone] and device transfers do not change
    values and are left out.  The functions that [resnet.py] imports from
    files that are not at hand ([normalize_tensor], [_acol_logits],
    [spg.compute_attention], [replace_layer], the constructors reached through
    [models]) are parameters; [remove_layer] and a min-max normalizer are
    modelled from the specification where a statement needs them.

    The residual blocks are embedded twice: [Bottleneck.forward] on tensors,
    with its layers as parameters, and the constructors ([Bottleneck.__init__],
    [get_downsampling_layer], [_layer], [ResNetCam.__init__],
    [ResNetSpg.__init__]) as the configuration they build, the arguments of
    every convolution, batch norm and pooling.  Statements that connect the
    two say what they assume of a layer: that on the inputs PyTorch documents
    for its configuration it returns the documented shape; nothing is assumed
    on other inputs.

    Order of the file: the tensor library, the four heads, checkpoint key
    remapping, the factories, the residual blocks, sample inputs, then the
    lemmas, one theorem per claim, and at the end further properties of the
    code (X1, X2, ...). *)

From Stdlib Require Import ZArith QArith Qcanon Lia Ascii.
From stdpp Require Import gmap strings list sorting.

Open Scope nat_scope.

(** ** Exceptions *)

Inductive exn : Type :=
| KeyError (k : string)
| IndexError
| RuntimeError
| AttributeError
| TypeError
| ValueError
| StateDictError (missing unexpected : gset string).

Inductive result (A : Type) : Type :=
| Ok (a : A)
| Raise (e : exn).
Arguments Ok {A} a.
Arguments Raise {A} e.

#[global] Instance result_ret : MRet result := λ A a, Ok a.
#[global] Instance result_bind : MBind result := λ A B f m,
  match m with Ok a => f a | Raise e => Raise e end.
#[global] Instance result_fmap : FMap result := λ A B f m,
  match m with Ok a => Ok (f a) | Raise e => Raise e end.

Definition raises {A} (m : result A) : Prop := ∃ e, m = Raise e.

(** [mapM] over the error monad, left to right. *)
Fixpoint traverse {A B} (f : A → result B) (l : list A) : result (list B) :=
  match l with
  | [] => Ok []
  | x :: l' => y ← f x; ys ← traverse f l'; Ok (y :: ys)
  end.

(** ** Scalars *)

Class Scalar (T : Type) : Type := {
  s0 : T;
  s1 : T;
  sadd : T → T → T;
  ssub : T → T → T;
  smul : T → T → T;
  sdiv : T → T → T;
  smax : T → T → T;
  smin : T → T → T;
  sltb : T → T → bool;
  of_nat : nat → T
}.

(** ** Shapes and row-major index arithmetic *)

Definition numel (sh : list nat) : nat := foldr Nat.mul 1 sh.

Fixpoint ravel (sh idx : list nat) : nat :=
  match sh, idx with
  | _ :: sh', i :: idx' => i * numel sh' + ravel sh' idx'
  | _, _ => 0
  end.

Fixpoint unravel (sh : list nat) (n : nat) : list nat :=
  match sh with
  | [] => []
  | _ :: sh' => n / numel sh' :: unravel sh' (n mod numel sh')
  end.

Definition in_bounds (idx sh : list nat) : Prop := Forall2 lt idx sh.

#[global] Instance in_bounds_dec idx sh : Decision (in_bounds idx sh).
Proof. unfold in_bounds. apply _. Defined.

Definition tabulate {A} (n : nat) (f : nat → A) : list A := f <$> seq 0 n.

(** A dimension of size 1 is read at index 0 whatever the index is. *)
Definition bsel (d i : nat) : nat := if decide (d = 1) then 0 else i.

(** Left-pad a shape with ones up to rank [n]. *)
Definition pad_shape (n : nat) (sh : list nat) : list nat :=
  replicate (n - length sh) 1 ++ sh.

Definition bcast_dim (a b : nat) : result nat :=
  if decide (a = b) then Ok a
  else if decide (a = 1) then Ok b
  else if decide (b = 1) then Ok a
  else Raise RuntimeError.

Fixpoint bcast_zip (sa sb : list nat) : result (list nat) :=
  match sa, sb with
  | a :: sa', b :: sb' => d ← bcast_dim a b; r ← bcast_zip sa' sb'; Ok (d :: r)
  | _, _ => Ok []
  end.

Definition broadcast_shapes (sa sb : list nat) : result (list nat) :=
  let n := length sa `max` length sb in
  bcast_zip (pad_shape n sa) (pad_shape n sb).

(** The dimensions of a [view] call; [None] is the [-1] of Python. *)
Definition view_shape (n : nat) (dims : list (option nat)) : result (list nat) :=
  let known := omap id dims in
  let p := numel known in
  match length dims - length known with
  | 0 => if decide (p = n) then Ok known else Raise RuntimeError
  | 1 => if decide (p ≠ 0 ∧ n mod p = 0)
         then Ok (default (n / p) <$> dims) else Raise RuntimeError
  | _ => Raise RuntimeError
  end.

(** A Python index into a dimension of size [n]: negative indices count from
    the end, anything outside [-n, n) is an IndexError. *)
Definition norm_index (n : nat) (i : Z) : result nat :=
  if decide (0 ≤ i < Z.of_nat n)%Z then Ok (Z.to_nat i)
  else if decide (- Z.of_nat n ≤ i < 0)%Z then Ok (Z.to_nat (Z.of_nat n + i))
  else Raise IndexError.

(** Two 1-d index tensors used together broadcast to a common length. *)
Definition bcast_index {A B} (xs : list A) (ys : list B) : result (list (A * B)) :=
  match xs, ys with
  | [x], _ => Ok ((λ y, (x, y)) <$> ys)
  | _, [y] => Ok ((λ x, (x, y)) <$> xs)
  | _, _ => if decide (length xs = length ys) then Ok (zip xs ys)
            else Raise IndexError
  end.

(** ** Tensors *)

Record tensor (T : Type) : Type := Tensor { shape : list nat; data : list T }.
Arguments Tensor {T} shape data.
Arguments shape {T} t.
Arguments data {T} t.

Definition wf {T} (t : tensor T) : Prop := length (data t) = numel (shape t).

Section Tensors.
Context {T : Type} `{Scalar T}.

Definition ssum (l : list T) : T := foldl sadd s0 l.
Definition smean (l : list T) : T := sdiv (ssum l) (of_nat (length l)).

(** [t[idx]] for a full index. *)
Definition tget (t : tensor T) (idx : list nat) : option T :=
  if decide (in_bounds idx (shape t)) then data t !! ravel (shape t) idx
  else None.

(** The entry of [t] at a full index, [s0] outside of the tensor. *)
Definition elem (t : tensor T) (idx : list nat) : T := default s0 (tget t idx).

(** [t] read at [idx] as if expanded to the rank of [idx]. *)
Definition bget (t : tensor T) (idx : list nat) : T :=
  let sh := pad_shape (length idx) (shape t) in
  default s0 (data t !! ravel sh (zip_with bsel sh idx)).

(** Elementwise binary operation with broadcasting. *)
Definition bzip (f : T → T → T) (a b : tensor T) : result (tensor T) :=
  sh ← broadcast_shapes (shape a) (shape b);
  Ok (Tensor sh (tabulate (numel sh)
                   (λ n, let idx := unravel sh n in f (bget a idx) (bget b idx)))).

Definition tmul : tensor T → tensor T → result (tensor T) := bzip smul.
Definition tmax : tensor T → tensor T → result (tensor T) := bzip smax.

(** [t.view(dims)] *)
Definition view (t : tensor T) (dims : list (option nat)) : result (tensor T) :=
  sh ← view_shape (length (data t)) dims;
  Ok (Tensor sh (data t)).

(** [t.mean(d)], [keepdim=False] *)
Definition mean_dim (t : tensor T) (d : nat) : result (tensor T) :=
  match shape t !! d with
  | None => Raise IndexError
  | Some n =>
      let sh := delete d (shape t) in
      Ok (Tensor sh (tabulate (numel sh) (λ m,
            let idx := unravel sh m in
            smean (tabulate n (λ k,
              bget t (take d idx ++ k :: drop d idx))))))
  end.

(** The [i]-th slab of [t] along dimension 0. *)
Definition slab (t : tensor T) (i : nat) : list T :=
  let r := numel (tail (shape t)) in take r (drop (i * r) (data t)).

(** [t[labels]] for a 1-d integer tensor [labels]. *)
Definition index_rows (t : tensor T) (labels : list Z) : result (tensor T) :=
  match shape t with
  | [] => Raise IndexError
  | n :: sh' =>
      rows ← traverse (norm_index n) labels;
      Ok (Tensor (length labels :: sh') (rows ≫= slab t))
  end.

(** [t[None]] *)
Definition index_none (t : tensor T) : tensor T :=
  Tensor (1 :: shape t) (data t).

(** [t[rows, labels]] for two 1-d integer index tensors. *)
Definition index_pairs (t : tensor T) (rows labels : list Z) : result (tensor T) :=
  match shape t with
  | n :: c :: sh' =>
      ps ← bcast_index rows labels;
      ix ← traverse (λ p, r ← norm_index n p.1; l ← norm_index c p.2;
                          Ok (r * c + l)) ps;
      Ok (Tensor (length ps :: sh')
            (ix ≫= slab (Tensor (n * c :: sh') (data t))))
  | _ => Raise IndexError
  end.

(** [range(n)] as an index tensor. *)
Definition range (n : nat) : list Z := Z.of_nat <$> seq 0 n.

End Tensors.

(** ** Layers of the numerical library used by the heads *)

Section Layers.
Context {T : Type} `{Scalar T}.

(** [t.size(d)] *)
Definition size (t : tensor T) (d : nat) : result nat :=
  match shape t !! d with Some n => Ok n | None => Raise IndexError end.

(** [nn.AdaptiveAvgPool2d((1, 1))] on a batch of maps. *)
Definition avgpool (t : tensor T) : result (tensor T) :=
  match shape t with
  | [b; c; h; w] =>
      Ok (Tensor [b; c; 1; 1]
            (tabulate (b * c) (λ n, smean (slab (Tensor [b * c; h * w] (data t)) n))))
  | _ => Raise RuntimeError
  end.

(** [nn.Linear]: [x @ weight.T + bias]. *)
Definition linear (weight bias x : tensor T) : result (tensor T) :=
  match shape x, shape weight, shape bias with
  | [b; c], [n; c'], [n'] =>
      if decide (c = c' ∧ n = n') then
        Ok (Tensor [b; n] (tabulate (b * n) (λ p,
              let i := p / n in let j := p mod n in
              sadd (ssum (tabulate c (λ k, smul (bget x [i; k]) (bget weight [j; k]))))
                   (bget bias [j]))))
      else Raise RuntimeError
  | _, _, _ => Raise RuntimeError
  end.

(** [a @ w] for a batch of matrices [a] and one matrix [w]. *)
Definition matmul (a w : tensor T) : result (tensor T) :=
  match shape a, shape w with
  | [b; n; m], [m'; p] =>
      if decide (m = m') then
        Ok (Tensor [b; n; p] (tabulate (b * n * p) (λ q,
              let i := q / (n * p) in
              let j := q mod (n * p) / p in
              let k := q mod p in
              ssum (tabulate m (λ l, smul (bget a [i; j; l]) (bget w [l; k]))))))
      else Raise RuntimeError
  | _, _ => Raise RuntimeError
  end.

(** [t.repeat_interleave(r, dim=0)] *)
Definition repeat_interleave (t : tensor T) (r : nat) : result (tensor T) :=
  match shape t with
  | [] => Raise IndexError
  | n :: sh' =>
      Ok (Tensor (n * r :: sh') (seq 0 n ≫= λ i, mjoin (replicate r (slab t i))))
  end.

(** [torch.eye(c)] *)
Definition eye (c : nat) : tensor T :=
  Tensor [c; c] (tabulate (c * c) (λ n, if decide (n / c = n mod c) then s1 else s0)).

(** [t.repeat((r, 1))] for a matrix [t]. *)
Definition repeat_rows (t : tensor T) (r : nat) : result (tensor T) :=
  match shape t with
  | [n; m] => Ok (Tensor [r * n; m] (mjoin (replicate r (data t))))
  | _ => Raise RuntimeError
  end.

(** Index of the first largest entry of a non-empty row. *)
Fixpoint argmax_from (best : T) (besti i : nat) (l : list T) : nat :=
  match l with
  | [] => besti
  | x :: l' => if sltb best x then argmax_from x i (S i) l'
               else argmax_from best besti (S i) l'
  end.

Definition argmax_row (l : list T) : result Z :=
  match l with
  | [] => Raise IndexError
  | x :: l' => Ok (Z.of_nat (argmax_from x 0 1 l'))
  end.

(** [t.argmax(dim=1)] for a matrix [t]. *)
Definition argmax_dim1 (t : tensor T) : result (list Z) :=
  match shape t with
  | [b; c] => traverse (λ i, argmax_row (slab t i)) (seq 0 b)
  | _ => Raise IndexError
  end.

End Layers.

(** ** The interface shared by the heads *)

(** A layer of the network: a function on tensors that may raise. *)
Definition module (T : Type) : Type := tensor T → result (tensor T).

(** The [labels] argument of [forward]: [None], a 1-d tensor of class
    indices, or a floating-point multi-hot matrix. *)
Inductive labels_arg (T : Type) : Type :=
| LNone
| LIndex (l : list Z)
| LMask (m : tensor T).
Arguments LNone {T}.
Arguments LIndex {T} l.
Arguments LMask {T} m.

(** What [forward] returns: a tensor of maps or a dictionary of tensors. *)
Inductive output (T : Type) : Type :=
| Cams (c : tensor T)
| Dict (d : gmap string (tensor T)).
Arguments Cams {T} c.
Arguments Dict {T} d.

Section Getitem.
Context {T : Type} `{Scalar T}.

(** [t[labels]] *)
Definition getitem (t : tensor T) (labels : labels_arg T) : result (tensor T) :=
  match labels with
  | LNone => Ok (index_none t)
  | LIndex l => index_rows t l
  | LMask _ => Raise IndexError
  end.

(** [t[range(n), labels]] *)
Definition getitem_range (t : tensor T) (n : nat) (labels : labels_arg T)
  : result (tensor T) :=
  match labels with
  | LNone =>
      r ← index_rows t (range n);
      Ok (Tensor (take 1 (shape r) ++ 1 :: drop 1 (shape r)) (data r))
  | LIndex l => index_pairs t (range n) l
  | LMask _ => Raise IndexError
  end.

(** [d[k]] on a dictionary of tensors. *)
Definition dict_get (d : gmap string (tensor T)) (k : string) : result (tensor T) :=
  match d !! k with Some v => Ok v | None => Raise (KeyError k) end.

End Getitem.

(** ** ResNetCam *)

Module ResNetCam.
Section Def.
Context {T : Type} `{Scalar T}.

Record t : Type := {
  classif_type : string;
  conv1 : module T; bn1 : module T; relu : module T; maxpool : module T;
  layer1 : module T; layer2 : module T; layer3 : module T; layer4 : module T;
  fc_weight : tensor T; fc_bias : tensor T
}.

(** The [return_cam] branch for [classif_type == "multi_class"]. *)
Definition cam_multi_class (self : t) (x : tensor T) (labels : labels_arg T)
  : result (tensor T) :=
  let feature_map := x in
  cam_weights ← getitem (fc_weight self) labels;
  cw ← view cam_weights ((Some <$> take 2 (shape feature_map)) ++ [Some 1; Some 1]);
  prod ← tmul cw feature_map;
  mean_dim prod 1.

(** The [return_cam] branch for the other classification types. *)
Definition cam_multi_label (self : t) (x : tensor T) (labels : labels_arg T)
  : result (tensor T) :=
  match labels with
  | LNone => Raise AttributeError
  | LIndex _ => Raise ValueError
  | LMask labels =>
      match shape labels with
      | [b; c] =>
          let feature_map := x in
          label_masks ← repeat_interleave labels c;
          I ← repeat_rows (eye c) b;
          label_masks ← tmul label_masks I;
          lm ← view label_masks [Some b; None; Some c];
          cam_weights ← matmul lm (fc_weight self);
          cw ← view cam_weights [Some c; Some b; None; Some 1; Some 1];
          prod ← tmul cw feature_map;
          m ← mean_dim prod 2;
          view m (Some <$> ([b; c] ++ drop 2 (shape feature_map)))
      | _ => Raise ValueError
      end
  end.

Definition forward (self : t) (x : tensor T) (labels : labels_arg T)
    (return_cam : bool) : result (output T) :=
  x ← conv1 self x;
  x ← bn1 self x;
  x ← relu self x;
  x ← maxpool self x;
  x ← layer1 self x;
  x ← layer2 self x;
  x ← layer3 self x;
  x ← layer4 self x;
  pre_logit ← avgpool x;
  n ← size pre_logit 0;
  pre_logit ← view pre_logit [Some n; None];
  logits ← linear (fc_weight self) (fc_bias self) pre_logit;
  if return_cam then
    cams ← (if decide (classif_type self = "multi_class")
            then cam_multi_class self x labels
            else cam_multi_label self x labels);
    Ok (Cams cams)
  else Ok (Dict {[ "logits" := logits ]}).

End Def.
Arguments t T : clear implicits.
End ResNetCam.

(** ** ResNetAdl *)

Module ResNetAdl.
Section Def.
Context {T : Type} `{Scalar T}.

Record t : Type := {
  adl_drop_rate : T; adl_threshold : T;
  conv1 : module T; bn1 : module T; relu : module T; maxpool : module T;
  layer1 : module T; layer2 : module T; layer3 : module T; layer4 : module T;
  fc_weight : tensor T; fc_bias : tensor T
}.

(** The [return_cam] branch. *)
Definition cam (self : t) (x : tensor T) (labels : labels_arg T)
  : result (tensor T) :=
  let feature_map := x in
  cam_weights ← getitem (fc_weight self) labels;
  cw ← view cam_weights ((Some <$> take 2 (shape feature_map)) ++ [Some 1; Some 1]);
  prod ← tmul cw feature_map;
  mean_dim prod 1.

Definition forward (self : t) (x : tensor T) (labels : labels_arg T)
    (return_cam : bool) : result (output T) :=
  x ← conv1 self x;
  x ← bn1 self x;
  x ← relu self x;
  x ← maxpool self x;
  x ← layer1 self x;
  x ← layer2 self x;
  x ← layer3 self x;
  x ← layer4 self x;
  pre_logit ← avgpool x;
  n ← size pre_logit 0;
  pre_logit ← view pre_logit [Some n; None];
  logits ← linear (fc_weight self) (fc_bias self) pre_logit;
  if return_cam then
    cams ← cam self x labels;
    Ok (Cams cams)
  else Ok (Dict {[ "logits" := logits ]}).

End Def.
Arguments t T : clear implicits.
End ResNetAdl.

(** ** ResNetAcol *)

Module ResNetAcol.
Section Def.
Context {T : Type} `{Scalar T}.

(** [normalize_tensor] is imported from [methods.util]. *)
Variable normalize_tensor : tensor T → result (tensor T).

(** [_acol_logits] is inherited from [AcolBase]; the two classifier
    branches are only used there. *)
Record t : Type := {
  drop_threshold : T;
  conv1 : module T; bn1 : module T; relu : module T; maxpool : module T;
  layer1 : module T; layer2 : module T; layer3 : module T; layer4 : module T;
  classifier_A : module T; classifier_B : module T;
  _acol_logits : tensor T → labels_arg T → T → result (gmap string (tensor T))
}.

Definition forward (self : t) (x : tensor T) (labels : labels_arg T)
    (return_cam : bool) : result (output T) :=
  batch_size ← size x 0;
  x ← conv1 self x;
  x ← bn1 self x;
  x ← relu self x;
  x ← maxpool self x;
  x ← layer1 self x;
  x ← layer2 self x;
  x ← layer3 self x;
  feature ← layer4 self x;
  logits_dict ← _acol_logits self feature labels (drop_threshold self);
  if return_cam then
    fa ← dict_get logits_dict "feat_map_a";
    normalized_a ← normalize_tensor fa;
    fb ← dict_get logits_dict "feat_map_b";
    normalized_b ← normalize_tensor fb;
    feature_map ← tmax normalized_a normalized_b;
    cams ← getitem_range feature_map batch_size labels;
    Ok (Cams cams)
  else Ok (Dict logits_dict).

End Def.
Arguments t T : clear implicits.
End ResNetAcol.

Section Normalize.
Context {T : Type} `{Scalar T}.

Definition minimum (l : list T) : T := foldl smin (default s0 (head l)) (tail l).
Definition maximum (l : list T) : T := foldl smax (default s0 (head l)) (tail l).

(** Modelled from the spec: [normalize_tensor] of [methods/util.py] is not
    part of the sources at hand.  "Normalization: min-max per-sample prior
    to max-combination": every entry [v] of a sample becomes
    [(v - min) / (max - min)], minimum and maximum taken over the sample. *)
Definition normalize_minmax (t : tensor T) : result (tensor T) :=
  match shape t with
  | [] => Raise IndexError
  | n :: _ =>
      Ok (Tensor (shape t) (seq 0 n ≫= λ i,
            let s := slab t i in
            (λ v, sdiv (ssub v (minimum s)) (ssub (maximum s) (minimum s))) <$> s))
  end.
End Normalize.

(** ** ResNetSpg *)

Module ResNetSpg.
Section Def.
Context {T : Type} `{Scalar T}.

(** [spg.compute_attention] is imported from [methods]. *)
Variable compute_attention :
  tensor T → labels_arg T → tensor T → tensor T → result (tensor T * tensor T).

Record t : Type := {
  conv1 : module T; bn1 : module T; relu : module T; maxpool : module T;
  layer1 : module T; layer2 : module T;
  SPG_A1 : module T; SPG_A2 : module T;
  layer4 : module T;
  SPG_A4 : module T;
  SPG_B_1a : module T; SPG_B_2a : module T; SPG_B_shared : module T;
  SPG_C : module T
}.

(** [logits.argmax(dim=1).long() if labels is None else labels] *)
Definition default_labels (logits : tensor T) (labels : labels_arg T)
  : result (labels_arg T) :=
  match labels with
  | LNone => l ← argmax_dim1 logits; Ok (LIndex l)
  | _ => Ok labels
  end.

Definition forward (self : t) (x : tensor T) (labels : labels_arg T)
    (return_cam : bool) : result (output T) :=
  batch_size ← size x 0;
  x ← conv1 self x;
  x ← bn1 self x;
  x ← relu self x;
  x ← maxpool self x;
  x ← layer1 self x;
  x ← layer2 self x;
  x ← SPG_A1 self x;
  logits_b1 ← SPG_B_1a self x;
  logits_b1 ← SPG_B_shared self logits_b1;
  x ← SPG_A2 self x;
  logits_b2 ← SPG_B_2a self x;
  logits_b2 ← SPG_B_shared self logits_b2;
  x ← layer4 self x;
  feat_map ← SPG_A4 self x;
  logits_c ← SPG_C self x;
  logits ← avgpool feat_map;
  logits ← view logits (Some <$> take 2 (shape logits));
  labels ← default_labels logits labels;
  att ← compute_attention feat_map labels logits_b1 logits_b2;
  let '(attention, fused_attention) := att in
  if return_cam then
    let feature_map := feat_map in
    cams ← getitem_range feature_map batch_size labels;
    Ok (Cams cams)
  else
    Ok (Dict (<[ "attention" := attention ]>
             (<[ "fused_attention" := fused_attention ]>
             (<[ "logits" := logits ]>
             (<[ "logits_b1" := logits_b1 ]>
             (<[ "logits_b2" := logits_b2 ]>
             {[ "logits_c" := logits_c ]})))))).

End Def.
Arguments t T : clear implicits.
End ResNetSpg.

(** ** Python strings and integers *)

Fixpoint contains (sub s : string) : bool :=
  String.prefix sub s ||
  match s with
  | EmptyString => false
  | String _ s' => contains sub s'
  end.

(** [s.split(c)] as the first piece and the remaining ones. *)
Fixpoint split_go (c : ascii) (s : string) : string * list string :=
  match s with
  | EmptyString => (EmptyString, [])
  | String a s' =>
      let '(h, t) := split_go c s' in
      if decide (a = c) then (EmptyString, h :: t) else (String a h, t)
  end.

Definition split (c : ascii) (s : string) : list string :=
  let '(h, t) := split_go c s in h :: t.

(** [sep.join(l)] *)
Definition join (sep : string) (l : list string) : string := String.concat sep l.

(** [s[-1]] *)
Fixpoint last_char (s : string) : result ascii :=
  match s with
  | EmptyString => Raise IndexError
  | String a EmptyString => Ok a
  | String _ s' => last_char s'
  end.

Fixpoint lstrip (s : string) : string :=
  match s with
  | String a s' => if Ascii.is_space a then lstrip s' else s
  | EmptyString => EmptyString
  end.

Definition strip (s : string) : string :=
  String.rev (lstrip (String.rev (lstrip s))).

(** The digits after the first one; a single underscore may separate two
    digits. *)
Fixpoint int_tail (acc : nat) (s : string) : option nat :=
  match s with
  | EmptyString => Some acc
  | String a s' =>
      match Ascii.is_nat a with
      | Some d => int_tail (10 * acc + d) s'
      | None =>
          if decide (a = "_"%char) then
            match s' with
            | String b s'' =>
                match Ascii.is_nat b with
                | Some d => int_tail (10 * acc + d) s''
                | None => None
                end
            | EmptyString => None
            end
          else None
      end
  end.

Definition int_unsigned (s : string) : option nat :=
  match s with
  | String a s' => d ← Ascii.is_nat a; int_tail d s'
  | EmptyString => None
  end.

(** [int(s)] *)
Definition py_int (s : string) : result Z :=
  let r :=
    match strip s with
    | String "-" s' => Z.opp <$> (Z.of_nat <$> int_unsigned s')
    | String "+" s' => Z.of_nat <$> int_unsigned s'
    | s' => Z.of_nat <$> int_unsigned s'
    end in
  match r with Some z => Ok z | None => Raise ValueError end.

Definition digit_char (d : nat) : ascii :=
  Ascii.ascii_of_nat (48 + d).

Fixpoint str_nat_go (fuel n : nat) (acc : string) : string :=
  match fuel with
  | 0 => acc
  | S fuel' =>
      let acc' := String (digit_char (n mod 10)) acc in
      if decide (n / 10 = 0) then acc' else str_nat_go fuel' (n / 10) acc'
  end.

(** [str(z)] *)
Definition py_str (z : Z) : string :=
  if decide (z < 0)%Z then String "-" (str_nat_go (S (Z.abs_nat z)) (Z.abs_nat z) EmptyString)
  else str_nat_go (S (Z.to_nat z)) (Z.to_nat z) EmptyString.

(** [l[i]] on a Python list. *)
Definition list_getitem {A} (l : list A) (i : Z) : result A :=
  n ← norm_index (length l) i;
  match l !! n with Some x => Ok x | None => Raise IndexError end.

(** [l.insert(i, x)] for [0 <= i]: past the end it appends. *)
Definition list_insert_at {A} (i : nat) (x : A) (l : list A) : list A :=
  take i l ++ x :: drop i l.

(** ** ADL positions and the layers of ResNetAdl *)

Definition _ADL_POSITION : list (list Z) := [[]; []; []; [0]; [0; 2]]%Z.

(** An entry of a layer's [nn.Sequential]: the [k]-th residual block made by
    [_layer], or an ADL module. *)
Inductive slot : Type :=
| Block (k : nat)
| ADL.

#[global] Instance slot_eq_dec : EqDecision slot.
Proof. solve_decision. Defined.

(** [ResNetAdl._layer]: one block, then one per element of
    [range(1, blocks)]. *)
Definition _layer (blocks : nat) : list slot :=
  [Block 0] ++ (Block <$> seq 1 (blocks - 1)).

(** [ResNetAdl._make_layer] *)
Definition _make_layer (blocks : nat) (split : list Z) : list slot :=
  foldl (λ layers pos, list_insert_at (Z.to_nat (pos + 1)) ADL layers)
        (_layer blocks) (reverse split).

(** ** Checkpoint key remapping *)

Section StateDict.
Context {V : Type}.

(** The new key computed by one iteration of the loop of [align_layer];
    [None] when the iteration ends in [continue]. *)
Definition align_key (key : string) : result (option string) :=
  let move := 0%Z in
  if negb (contains "layer" key) then Ok None else
  let key_sp := split "." key in
  k0 ← list_getitem key_sp 0;
  ch ← last_char k0;
  layer_idx ← py_int (String ch EmptyString);
  block_idx ← list_getitem key_sp 1;
  positions ← list_getitem _ADL_POSITION layer_idx;
  if decide (positions = []) then Ok None else
  move ← foldl (λ acc pos, move ← acc; b ← py_int block_idx;
                  Ok (if decide (pos < b)%Z then move + 1 else move)%Z)
               (Ok move) (reverse positions);
  b ← py_int block_idx;
  let key_sp := <[1 := py_str (b + move)]> key_sp in
  Ok (Some (join "." key_sp)).

(** [state_dict.pop(key)] *)
Definition dict_pop (d : gmap string V) (key : string) : result (V * gmap string V) :=
  match d !! key with
  | Some v => Ok (v, delete key d)
  | None => Raise (KeyError key)
  end.

Definition align_step (state_dict : gmap string V) (key : string)
  : result (gmap string V) :=
  nk ← align_key key;
  match nk with
  | None => Ok state_dict
  | Some new_key =>
      p ← dict_pop state_dict key;
      Ok (<[new_key := p.1]> p.2)
  end.

(** [sorted(state_dict.keys())] *)
Definition sorted_keys (state_dict : gmap string V) : list string :=
  merge_sort String.le (map_to_list state_dict).*1.

Definition align_layer (state_dict : gmap string V) : result (gmap string V) :=
  let keys := sorted_keys state_dict in
  foldl (λ acc key, d ← acc; align_step d key) (Ok state_dict) (reverse keys).

End StateDict.

(** ** Models, the outside world and the trace of what was done *)

(** The classes the factories can instantiate. *)
Inductive cls : Type :=
| CResNetCam | CResNetGradCam | CResNetAcol | CResNetSpg | CResNetAdl
| CResNet101GradCam | CResNet101GCN | CResNet101ADDGraphCam
| CResNext50GradCam | CResNext50GCN.

#[global] Instance cls_eq_dec : EqDecision cls.
Proof. solve_decision. Defined.

(** Values of keyword arguments. *)
Inductive pyval : Type :=
| PNone
| PBool (b : bool)
| PInt (z : Z)
| PStr (s : string).

#[global] Instance pyval_eq_dec : EqDecision pyval.
Proof. solve_decision. Defined.

(** What a call does to the world, in order. *)
Inductive event : Type :=
| EConstruct (c : cls)
| EPrint (s : string)
| ETorchLoad (path : string)
| ELoadUrl (url : string)
| ELoadStateDict (c : cls) (keys : gset string) (strict : bool).

(** A computation that may raise and leaves a trace of events. *)
Definition M (A : Type) : Type := list event → result A * list event.

#[global] Instance M_ret : MRet M := λ A a tr, (Ok a, tr).
#[global] Instance M_bind : MBind M := λ A B f m tr,
  match m tr with
  | (Ok a, tr') => f a tr'
  | (Raise e, tr') => (Raise e, tr')
  end.

(** A pure step that may raise. *)
Definition lift {A} (r : result A) : M A := λ tr, (r, tr).
(** A call into the world: the event is recorded, then the call returns or
    raises. *)
Definition call {A} (e : event) (r : result A) : M A := λ tr, (r, tr ++ [e]).

(** [d[k]] *)
Definition lookup_or_KeyError {A} (d : gmap string A) (k : string) : result A :=
  match d !! k with Some v => Ok v | None => Raise (KeyError k) end.

Definition model_urls : gmap string string :=
  {[ "resnet50" := "https://download.pytorch.org/models/resnet50-19c8e357.pth" ]}.

Section Factory.
Context {V : Type}.

(** A built model, as far as checkpoints are concerned: its class and its
    parameters by name. *)
Record nn_model : Type := NnModel { model_cls : cls; params : gmap string V }.

(** [nn.Module.load_state_dict], on keys: under [strict] a missing or an
    unexpected key raises, and the two sets are the report; otherwise the
    parameters present on both sides are overwritten. *)
Definition load_state_dict (self : nn_model) (state_dict : gmap string V)
    (strict : bool) : result nn_model :=
  let missing := dom (params self) ∖ dom state_dict in
  let unexpected := dom state_dict ∖ dom (params self) in
  if strict && bool_decide (missing ∪ unexpected ≠ ∅)
  then Raise (StateDictError missing unexpected)
  else Ok (NnModel (model_cls self)
             (filter (λ kv, kv.1 ∈ dom (params self)) state_dict ∪ params self)).

(** Modelled from the spec: [remove_layer] of [util.py] is not part of the
    sources at hand.  "loading may be non-strict (missing final classifier
    layer tolerated)": the entries whose key mentions the layer name are
    removed from the state dict. *)
Definition remove_layer (state_dict : gmap string V) (keyword : string)
  : gmap string V :=
  filter (λ kv, contains keyword kv.1 = false) state_dict.

(** The calls that leave this file: the constructors of the model classes,
    [torch.load], [load_url], and [replace_layer] of [util.py]. *)
Record world : Type := {
  construct : cls → list nat → gmap string pyval → result nn_model;
  torch_load : string → result (gmap string (gmap string V));
  load_url : string → result (gmap string V);
  replace_layer : gmap string V → string → string → result (gmap string V)
}.

Variable w : world.

Definition batch_replace_layer (state_dict : gmap string V) : result (gmap string V) :=
  state_dict ← replace_layer w state_dict "layer3.0." "SPG_A1.0.";
  state_dict ← replace_layer w state_dict "layer3.1." "SPG_A2.0.";
  state_dict ← replace_layer w state_dict "layer3.2." "SPG_A2.1.";
  state_dict ← replace_layer w state_dict "layer3.3." "SPG_A2.2.";
  state_dict ← replace_layer w state_dict "layer3.4." "SPG_A2.3.";
  state_dict ← replace_layer w state_dict "layer3.5." "SPG_A2.4.";
  Ok state_dict.

(** [if path:] *)
Definition truthy (path : option string) : bool :=
  match path with
  | None | Some EmptyString => false
  | Some _ => true
  end.

(** [path is None and (kwargs['dataset_name'] != 'ILSVRC' or
    wsol_method in ('acol', 'spg'))] *)
Definition lenient_condition (wsol_method : string) (path : option string)
    (kwargs : gmap string pyval) : result bool :=
  match path with
  | Some _ => Ok false
  | None =>
      dataset_name ← lookup_or_KeyError kwargs "dataset_name";
      Ok (bool_decide (dataset_name ≠ PStr "ILSVRC")
          || bool_decide (wsol_method ∈ ["acol"; "spg"]))
  end.

Definition load_pretrained (model : nn_model) (wsol_method architecture : string)
    (path : option string) (kwargs : gmap string pyval) : M nn_model :=
  let strict_rule := true in
  state_dict ←
    (if truthy path then
       let p := default EmptyString path in
       _ ← call (EPrint ("Loaded model from " +:+ p)) (Ok ());
       ckpt ← call (ETorchLoad p) (torch_load w p);
       lift (lookup_or_KeyError ckpt "state_dict")
     else
       url ← lift (lookup_or_KeyError model_urls architecture);
       call (ELoadUrl url) (load_url w url));
  state_dict ←
    lift (if decide (wsol_method = "adl") then align_layer state_dict
          else if decide (wsol_method = "spg") then batch_replace_layer state_dict
          else Ok state_dict);
  lenient ← lift (lenient_condition wsol_method path kwargs);
  let '(state_dict, strict_rule) :=
    if (lenient : bool) then (remove_layer state_dict "fc", false)
    else (state_dict, strict_rule) in
  call (ELoadStateDict (model_cls model) (dom state_dict) strict_rule)
       (load_state_dict model state_dict strict_rule).

(** ** Factories *)

Definition resnet50_methods : gmap string cls :=
  <[ "cam" := CResNetCam ]>
  (<[ "grad_cam" := CResNetGradCam ]>
  (<[ "acol" := CResNetAcol ]>
  (<[ "spg" := CResNetSpg ]>
  {[ "adl" := CResNetAdl ]}))).

Definition resnet101_methods : gmap string cls :=
  <[ "grad_cam" := CResNet101GradCam ]>
  (<[ "graph_cam" := CResNet101GCN ]>
  {[ "addgraph_cam" := CResNet101ADDGraphCam ]}).

Definition resnext50_methods : gmap string cls :=
  <[ "grad_cam" := CResNext50GradCam ]>
  {[ "graph_cam" := CResNext50GCN ]}.

Definition resnet50 (wsol_method : string) (pretrained : bool)
    (pretrained_path : option string) (kwargs : gmap string pyval) : M nn_model :=
  c ← lift (lookup_or_KeyError resnet50_methods wsol_method);
  model ← call (EConstruct c) (construct w c [3; 4; 6; 3] kwargs);
  if pretrained then
    load_pretrained model wsol_method "resnet50" pretrained_path kwargs
  else mret model.

Definition resnet101 (wsol_method : string) (pretrained : bool)
    (pretrained_path : option string) (kwargs : gmap string pyval) : M nn_model :=
  c ← lift (lookup_or_KeyError resnet101_methods wsol_method);
  model ← call (EConstruct c) (construct w c [] kwargs);
  if pretrained then
    load_pretrained model wsol_method "resnet101" pretrained_path kwargs
  else mret model.

Definition resnext50 (wsol_method : string) (pretrained : bool)
    (pretrained_path : option string) (kwargs : gmap string pyval) : M nn_model :=
  c ← lift (lookup_or_KeyError resnext50_methods wsol_method);
  model ← call (EConstruct c) (construct w c [] kwargs);
  if pretrained then
    load_pretrained model wsol_method "resnext50" pretrained_path kwargs
  else mret model.

End Factory.
Arguments nn_model V : clear implicits.
Arguments world V : clear implicits.

(** ** The residual blocks and how the constructors chain them *)

(** The arguments of an [nn.Conv2d] (dilation 1). *)
Record conv2d : Type := Conv2d {
  in_channels : nat; out_channels : nat; kernel_size : nat;
  conv_stride : nat; conv_padding : nat
}.

(** The arguments of an [nn.MaxPool2d]. *)
Record maxpool2d : Type := MaxPool2d {
  pool_kernel : nat; pool_stride : nat; pool_padding : nat
}.

(** What [Bottleneck.__init__] builds: three convolutions, each followed by
    a batch norm over the given number of features, the optional shortcut
    projection (a convolution and its batch norm) and the stride. *)
Record bottleneck_config : Type := BottleneckConfig {
  cfg_conv1 : conv2d; cfg_bn1 : nat;
  cfg_conv2 : conv2d; cfg_bn2 : nat;
  cfg_conv3 : conv2d; cfg_bn3 : nat;
  cfg_downsample : option (conv2d * nat);
  cfg_stride : nat
}.

Module Bottleneck.

Definition expansion : nat := 4.

(** [width = int(planes * (base_width / 64.))]: for sizes below 2^53 the
    floating-point product is exact, so the result is the integer quotient. *)
Definition __init__ (inplanes planes stride : nat)
    (downsample : option (conv2d * nat)) (base_width : nat) : bottleneck_config :=
  let width := planes * base_width / 64 in
  {| cfg_conv1 := Conv2d inplanes width 1 1 0; cfg_bn1 := width;
     cfg_conv2 := Conv2d width width 3 stride 1; cfg_bn2 := width;
     cfg_conv3 := Conv2d width (planes * expansion) 1 1 0;
     cfg_bn3 := planes * expansion;
     cfg_downsample := downsample;
     cfg_stride := stride |}.

Section Forward.
Context {T : Type} `{Scalar T}.

(** The layers of a block; [downsample] is [None] or the shortcut
    projection. *)
Record t : Type := {
  conv1 : module T; bn1 : module T;
  conv2 : module T; bn2 : module T;
  conv3 : module T; bn3 : module T;
  relu : module T;
  downsample : option (module T)
}.

(** [out += identity]: the sum is written into [out], which keeps its
    shape. *)
Definition iadd (out identity : tensor T) : result (tensor T) :=
  r ← bzip sadd out identity;
  if decide (shape r = shape out) then Ok r else Raise RuntimeError.

Definition forward (self : t) (x : tensor T) : result (tensor T) :=
  let identity := x in
  out ← conv1 self x;
  out ← bn1 self out;
  out ← relu self out;
  out ← conv2 self out;
  out ← bn2 self out;
  out ← relu self out;
  out ← conv3 self out;
  out ← bn3 self out;
  identity ← match downsample self with
             | Some d => d x
             | None => Ok identity
             end;
  out ← iadd out identity;
  out ← relu self out;
  Ok out.

End Forward.
Arguments t T : clear implicits.
End Bottleneck.

Definition get_downsampling_layer (inplanes planes stride : nat)
  : option (conv2d * nat) :=
  let outplanes := planes * Bottleneck.expansion in
  if decide (stride = 1 ∧ inplanes = outplanes) then None
  else Some (Conv2d inplanes outplanes 1 stride 0, outplanes).

(** What the constructors do with [self.inplanes]. *)
Module Init.

(** [_layer], the same code in the four ResNet classes: the blocks of one
    layer and the new value of [self.inplanes]. *)
Definition _layer (inplanes planes : nat) (blocks : Z) (stride : nat)
  : list bottleneck_config * nat :=
  let downsample := get_downsampling_layer inplanes planes stride in
  let layers := [Bottleneck.__init__ inplanes planes stride downsample 64] in
  let inplanes := planes * Bottleneck.expansion in
  (foldl (λ layers _, layers ++ [Bottleneck.__init__ inplanes planes 1 None 64])
         layers (seq 1 (Z.to_nat (blocks - 1))),
   inplanes).

(** The configuration [ResNetCam.__init__] builds; [c_fc] is the pair of
    [in_features] and [out_features] of the classifier. *)
Record ResNetCam_config : Type := {
  c_conv1 : conv2d; c_bn1 : nat; c_maxpool : maxpool2d;
  c_layer1 : list bottleneck_config; c_layer2 : list bottleneck_config;
  c_layer3 : list bottleneck_config; c_layer4 : list bottleneck_config;
  c_fc : nat * nat
}.

(** [ResNetCam.__init__] *)
Definition ResNetCam (layers : list Z) (num_classes : nat)
    (large_feature_map : bool) : result ResNetCam_config :=
  let stride_l3 := if large_feature_map then 1 else 2 in
  let inplanes := 64 in
  let conv1 := Conv2d 3 inplanes 7 2 3 in
  let bn1 := inplanes in
  let maxpool := MaxPool2d 3 2 1 in
  l0 ← list_getitem layers 0;
  let '(layer1, inplanes) := _layer inplanes 64 l0 1 in
  l1 ← list_getitem layers 1;
  let '(layer2, inplanes) := _layer inplanes 128 l1 2 in
  l2 ← list_getitem layers 2;
  let '(layer3, inplanes) := _layer inplanes 256 l2 stride_l3 in
  l3 ← list_getitem layers 3;
  let '(layer4, inplanes) := _layer inplanes 512 l3 1 in
  Ok {| c_conv1 := conv1; c_bn1 := bn1; c_maxpool := maxpool;
        c_layer1 := layer1; c_layer2 := layer2;
        c_layer3 := layer3; c_layer4 := layer4;
        c_fc := (512 * Bottleneck.expansion, num_classes) |}.

End Init.

(** [nn.Sequential] *)
Definition nn_Sequential {T} (ms : list (module T)) : module T :=
  λ x, foldl (λ acc m, acc ≫= m) (Ok x) ms.

Section Pooling.
Context {T : Type} `{Scalar T}.

(** [nn.MaxPool2d(k, s)] on a batch of maps: no padding, and a window that
    does not fit is dropped. *)
Definition max_pool2d (k s : nat) (t : tensor T) : result (tensor T) :=
  match shape t with
  | [b; c; h; w] =>
      if decide (0 < k ∧ 0 < s ∧ k ≤ h ∧ k ≤ w) then
        let sh := [b; c; (h - k) / s + 1; (w - k) / s + 1] in
        Ok (Tensor sh (tabulate (numel sh) (λ n,
              match unravel sh n with
              | [i; j; y; x] =>
                  maximum (tabulate (k * k) (λ p,
                    elem t [i; j; y * s + p / k; x * s + p `mod` k]))
              | _ => s0
              end)))
      else Raise RuntimeError
  | _ => Raise RuntimeError
  end.

End Pooling.

(** ** Resnet, the classifier that the Grad-CAM wrapper of ResNet-101 uses *)

Module Resnet.
Section Def.
Context {T : Type} `{Scalar T}.

(** [features] are the eight layers taken from the model; [pooling] is
    [nn.MaxPool2d(14, 14)]. *)
Record t : Type := {
  features : list (module T);
  linear_weight : tensor T; linear_bias : tensor T
}.

Definition forward (self : t) (feature : tensor T) : result (tensor T) :=
  feature ← nn_Sequential (features self) feature;
  feature ← max_pool2d 14 14 feature;
  n ← size feature 0;
  feature ← view feature [Some n; None];
  linear (linear_weight self) (linear_bias self) feature.

End Def.
Arguments t T : clear implicits.
End Resnet.

(** A layer of an [nn.Sequential] of convolutions and ReLUs. *)
Inductive layer_config : Type :=
| LConv (c : conv2d)
| LReLU.

(** What [ResNetSpg._make_layer] returns: a pair of [nn.Sequential] when
    [split] is true, one [nn.Sequential] otherwise. *)
Definition spg_layer (split : bool) : Type :=
  if split then (list bottleneck_config * list bottleneck_config)%type
  else list bottleneck_config.

Module InitSpg.

Definition _make_layer (inplanes planes : nat) (blocks : Z) (stride : nat)
    (split : bool) : spg_layer split * nat :=
  let downsample := get_downsampling_layer inplanes planes stride in
  let first_layers := [Bottleneck.__init__ inplanes planes stride downsample 64] in
  let inplanes := planes * Bottleneck.expansion in
  let other_layers :=
    foldl (λ layers _, layers ++ [Bottleneck.__init__ inplanes planes 1 None 64])
          [] (seq 1 (Z.to_nat (blocks - 1))) in
  (match split return spg_layer split with
   | true => (first_layers, other_layers)
   | false => first_layers ++ other_layers
   end,
   inplanes).

(** The configuration [ResNetSpg.__init__] builds. *)
Record config : Type := {
  c_conv1 : conv2d; c_bn1 : nat; c_maxpool : maxpool2d;
  c_layer1 : list bottleneck_config; c_layer2 : list bottleneck_config;
  c_SPG_A1 : list bottleneck_config; c_SPG_A2 : list bottleneck_config;
  c_layer4 : list bottleneck_config;
  c_SPG_A4 : conv2d;
  c_SPG_B_1a : list layer_config; c_SPG_B_2a : list layer_config;
  c_SPG_B_shared : list layer_config;
  c_SPG_C : list layer_config
}.

(** [ResNetSpg.__init__] *)
Definition __init__ (layers : list Z) (num_classes : nat)
    (large_feature_map : bool) : result config :=
  let stride_l3 := if large_feature_map then 1 else 2 in
  let inplanes := 64 in
  let conv1 := Conv2d 3 inplanes 7 2 3 in
  let bn1 := inplanes in
  let maxpool := MaxPool2d 3 2 1 in
  l0 ← list_getitem layers 0;
  let '(layer1, inplanes) := _make_layer inplanes 64 l0 1 false in
  l1 ← list_getitem layers 1;
  let '(layer2, inplanes) := _make_layer inplanes 128 l1 2 false in
  l2 ← list_getitem layers 2;
  let '(layer3, inplanes) := _make_layer inplanes 256 l2 stride_l3 true in
  let '(SPG_A1, SPG_A2) := (layer3 : spg_layer true) in
  l3 ← list_getitem layers 3;
  let '(layer4, inplanes) := _make_layer inplanes 512 l3 1 false in
  Ok {| c_conv1 := conv1; c_bn1 := bn1; c_maxpool := maxpool;
        c_layer1 := layer1; c_layer2 := layer2;
        c_SPG_A1 := SPG_A1; c_SPG_A2 := SPG_A2;
        c_layer4 := layer4;
        c_SPG_A4 := Conv2d (512 * Bottleneck.expansion) num_classes 1 1 0;
        c_SPG_B_1a := [LConv (Conv2d 1024 1024 3 1 1); LReLU];
        c_SPG_B_2a := [LConv (Conv2d 1024 1024 3 1 1); LReLU];
        c_SPG_B_shared := [LConv (Conv2d 1024 1024 3 1 1); LReLU;
                           LConv (Conv2d 1024 1 1 1 0)];
        c_SPG_C := [LConv (Conv2d 2048 512 3 1 1); LReLU;
                    LConv (Conv2d 512 1 1 1 0)] |}.

End InitSpg.

(** ** The rationals as scalars, for running the model *)

#[global] Instance Qc_scalar : Scalar Qc := {|
  s0 := 0%Qc;
  s1 := 1%Qc;
  sadd := Qcplus;
  ssub := Qcminus;
  smul := Qcmult;
  sdiv := Qcdiv;
  smax := λ x y, match (x ?= y)%Qc with Lt => y | _ => x end;
  smin := λ x y, match (x ?= y)%Qc with Gt => y | _ => x end;
  sltb := λ x y, match (x ?= y)%Qc with Lt => true | _ => false end;
  of_nat := λ n, Q2Qc (inject_Z (Z.of_nat n))
|}.

(** Integer-valued test tensors. *)
Definition qz (z : Z) : Qc := Q2Qc (inject_Z z).
Definition qtensor (sh : list nat) (l : list Z) : tensor Qc := Tensor sh (qz <$> l).

(** ** Small models and inputs *)

(** A layer that returns its input. *)
Definition identity {T} : module T := Ok.

(** A two-class CAM head on three channels whose feature extractor
    returns its input. *)
Definition cam_example (classif_type : string) : ResNetCam.t Qc := {|
  ResNetCam.classif_type := classif_type;
  ResNetCam.conv1 := identity; ResNetCam.bn1 := identity;
  ResNetCam.relu := identity; ResNetCam.maxpool := identity;
  ResNetCam.layer1 := identity; ResNetCam.layer2 := identity;
  ResNetCam.layer3 := identity; ResNetCam.layer4 := identity;
  ResNetCam.fc_weight := qtensor [2; 3] [1; 2; 3; 4; 5; 7]%Z;
  ResNetCam.fc_bias := qtensor [2] [0; 0]%Z
|}.

(** One sample, three channels, 2 x 2 pixels, all ones. *)
Definition ones_1322 : tensor Qc :=
  qtensor [1; 3; 2; 2] [1; 1; 1; 1; 1; 1; 1; 1; 1; 1; 1; 1]%Z.

(** Two samples, three channels, 1 x 2 pixels. *)
Definition ramp_2312 : tensor Qc :=
  qtensor [2; 3; 1; 2] [1; 2; 3; 4; 5; 6; 7; 8; 9; 10; 11; 12]%Z.

(** An ADL head with the classifier of [cam_example]. *)
Definition adl_example : ResNetAdl.t Qc := {|
  ResNetAdl.adl_drop_rate := qz 0; ResNetAdl.adl_threshold := qz 0;
  ResNetAdl.conv1 := identity; ResNetAdl.bn1 := identity;
  ResNetAdl.relu := identity; ResNetAdl.maxpool := identity;
  ResNetAdl.layer1 := identity; ResNetAdl.layer2 := identity;
  ResNetAdl.layer3 := identity; ResNetAdl.layer4 := identity;
  ResNetAdl.fc_weight := qtensor [2; 3] [1; 2; 3; 4; 5; 7]%Z;
  ResNetAdl.fc_bias := qtensor [2] [0; 0]%Z
|}.

(** The rational entries of a tensor, for comparing results. *)
Definition values (t : tensor Qc) : list Q := this <$> data t.

Definition cams_values (r : result (output Qc)) : option (list nat * list Q) :=
  match r with
  | Ok (Cams c) => Some (shape c, values c)
  | _ => None
  end.

(** An ACoL head whose two branches return fixed score maps for two samples,
    two classes and 1 x 2 pixels. *)
Definition acol_example : ResNetAcol.t Qc := {|
  ResNetAcol.drop_threshold := qz 0;
  ResNetAcol.conv1 := identity; ResNetAcol.bn1 := identity;
  ResNetAcol.relu := identity; ResNetAcol.maxpool := identity;
  ResNetAcol.layer1 := identity; ResNetAcol.layer2 := identity;
  ResNetAcol.layer3 := identity; ResNetAcol.layer4 := identity;
  ResNetAcol.classifier_A := identity; ResNetAcol.classifier_B := identity;
  ResNetAcol._acol_logits := λ _ _ _,
    Ok (<[ "feat_map_a" := qtensor [2; 2; 1; 2] [1; 2; 3; 4; 5; 6; 7; 8]%Z ]>
        {[ "feat_map_b" := qtensor [2; 2; 1; 2] [8; 6; 4; 2; 0; 0; 10; 5]%Z ]})
|}.

(** An SPG head whose layers return their input, so that the score map of
    [SPG_A4] is the input itself. *)
Definition spg_example : ResNetSpg.t Qc := {|
  ResNetSpg.conv1 := identity; ResNetSpg.bn1 := identity;
  ResNetSpg.relu := identity; ResNetSpg.maxpool := identity;
  ResNetSpg.layer1 := identity; ResNetSpg.layer2 := identity;
  ResNetSpg.SPG_A1 := identity; ResNetSpg.SPG_A2 := identity;
  ResNetSpg.layer4 := identity; ResNetSpg.SPG_A4 := identity;
  ResNetSpg.SPG_B_1a := identity; ResNetSpg.SPG_B_2a := identity;
  ResNetSpg.SPG_B_shared := identity; ResNetSpg.SPG_C := identity
|}.

(** A stand-in for [spg.compute_attention] that depends on the labels: both
    maps are the label channel of the score map. *)
Definition attention_example (fm : tensor Qc) (labels : labels_arg Qc)
    (b1 b2 : tensor Qc) : result (tensor Qc * tensor Qc) :=
  a ← getitem_range fm (default 0 (head (shape fm))) labels;
  Ok (a, a).

(** Two samples, two classes, 1 x 2 pixels; class 1 has the larger mean for
    sample 0 and class 0 for sample 1. *)
Definition scores_2212 : tensor Qc :=
  qtensor [2; 2; 1; 2] [1; 2; 5; 6; 9; 7; 3; 4]%Z.

(** The entry of a tensor of rationals at a full index. *)
Definition value_at (t : tensor Qc) (idx : list nat) : option Q := this <$> tget t idx.

(** A world in which every model has one convolution and one [fc] layer,
    the download is the ImageNet checkpoint of that model, and the file
    "ckpt.pth" holds a checkpoint without classifier. *)
Definition world_example : world nat := {|
  construct := λ c _ _,
    Ok (NnModel c (<[ "conv1.weight" := 0 ]> (<[ "fc.weight" := 0 ]> {[ "fc.bias" := 0 ]})));
  torch_load := λ path,
    if decide (path = "ckpt.pth")
    then Ok {[ "state_dict" := {[ "conv1.weight" := 7 ]} ]}
    else Raise RuntimeError;
  load_url := λ _,
    Ok (<[ "conv1.weight" := 1 ]> (<[ "fc.weight" := 2 ]> {[ "fc.bias" := 3 ]}));
  replace_layer := λ d _ _, Ok d
|}.

Definition kwargs_example (dataset_name : string) (num_classes : Z)
  : gmap string pyval :=
  <[ "dataset_name" := PStr dataset_name ]> {[ "num_classes" := PInt num_classes ]}.

(** Both classes present in both samples. *)
Definition all_present_22 : tensor Qc := qtensor [2; 2] [1; 1; 1; 1]%Z.

(** A few entries of a ResNet-50 checkpoint. *)
Definition state_dict_example : gmap string nat :=
  <[ "conv1.weight" := 0 ]>
  (<[ "layer3.0.conv1.weight" := 1 ]>
  (<[ "layer3.1.conv1.weight" := 2 ]>
  {[ "layer4.2.bn3.bias" := 3 ]})).

(** Two blocks of a layer with more than ten blocks. *)
Definition state_dict_two_digits : gmap string nat :=
  <[ "layer3.9.w" := 1 ]> {[ "layer3.10.w" := 2 ]}.

(** ** Names used to state the properties *)

Section SpecDefs.
Context {T : Type} `{Scalar T}.

(** Layers applied one after the other. *)
Definition chain (ms : list (module T)) (x : tensor T) : result (tensor T) :=
  foldl (λ acc m, acc ≫= m) (Ok x) ms.

(** The feature map [forward] works on: the output of [layer4]. *)
Definition cam_features (self : ResNetCam.t T) : module T :=
  chain [ResNetCam.conv1 self; ResNetCam.bn1 self; ResNetCam.relu self;
         ResNetCam.maxpool self; ResNetCam.layer1 self; ResNetCam.layer2 self;
         ResNetCam.layer3 self; ResNetCam.layer4 self].

Definition adl_features (self : ResNetAdl.t T) : module T :=
  chain [ResNetAdl.conv1 self; ResNetAdl.bn1 self; ResNetAdl.relu self;
         ResNetAdl.maxpool self; ResNetAdl.layer1 self; ResNetAdl.layer2 self;
         ResNetAdl.layer3 self; ResNetAdl.layer4 self].

(** The classification part of [forward] after the feature extractor. *)
Definition fc_logits (weight bias fm : tensor T) : result (tensor T) :=
  pre_logit ← avgpool fm;
  n ← size pre_logit 0;
  pre_logit ← view pre_logit [Some n; None];
  linear weight bias pre_logit.

(** The closed form of a CAM pixel: the mean over the [c] channels of the
    feature map of sample [b] at [(h, w)], each channel weighted by the entry
    of row [r] of the classifier weights. *)
Definition weighted_mean (weight fm : tensor T) (c r b h w : nat) : T :=
  smean (tabulate c (λ k, smul (elem weight [r; k]) (elem fm [b; k; h; w]))).

(** The feature extractor of ResNetAcol. *)
Definition acol_features (self : ResNetAcol.t T) : module T :=
  chain [ResNetAcol.conv1 self; ResNetAcol.bn1 self; ResNetAcol.relu self;
         ResNetAcol.maxpool self; ResNetAcol.layer1 self; ResNetAcol.layer2 self;
         ResNetAcol.layer3 self; ResNetAcol.layer4 self].

(** What ResNetSpg computes before it looks at [labels]: the per-class score
    map of [SPG_A4] and the three auxiliary logits. *)
Record spg_maps : Type := SpgMaps {
  feat_map : tensor T; logits_b1 : tensor T; logits_b2 : tensor T;
  logits_c : tensor T
}.

Definition spg_trunk (self : ResNetSpg.t T) (x : tensor T) : result spg_maps :=
  x ← chain [ResNetSpg.conv1 self; ResNetSpg.bn1 self; ResNetSpg.relu self;
             ResNetSpg.maxpool self; ResNetSpg.layer1 self; ResNetSpg.layer2 self;
             ResNetSpg.SPG_A1 self] x;
  b1 ← chain [ResNetSpg.SPG_B_1a self; ResNetSpg.SPG_B_shared self] x;
  x ← ResNetSpg.SPG_A2 self x;
  b2 ← chain [ResNetSpg.SPG_B_2a self; ResNetSpg.SPG_B_shared self] x;
  x ← ResNetSpg.layer4 self x;
  fm ← ResNetSpg.SPG_A4 self x;
  c ← ResNetSpg.SPG_C self x;
  Ok (SpgMaps fm b1 b2 c).

(** The pooled main-branch logits of ResNetSpg. *)
Definition spg_logits (fm : tensor T) : result (tensor T) :=
  logits ← avgpool fm;
  view logits (Some <$> take 2 (shape logits)).

End SpecDefs.
Arguments spg_maps T : clear implicits.

(** ** Names used to state the properties of checkpoint loading *)

Section LoadSpec.
Context {V : Type}.

(** The first half of [load_pretrained]: the state dict is read from the
    path or downloaded, then remapped for the method. *)
Definition fetch_state_dict (w : world V) (wsol_method architecture : string)
    (path : option string) : M (gmap string V) :=
  state_dict ←
    (if truthy path then
       let p := default EmptyString path in
       _ ← call (EPrint ("Loaded model from " +:+ p)) (Ok ());
       ckpt ← call (ETorchLoad p) (torch_load w p);
       lift (lookup_or_KeyError ckpt "state_dict")
     else
       url ← lift (lookup_or_KeyError model_urls architecture);
       call (ELoadUrl url) (load_url w url));
  lift (if decide (wsol_method = "adl") then align_layer state_dict
        else if decide (wsol_method = "spg") then batch_replace_layer w state_dict
        else Ok state_dict).

(** Whether the last thing a call did was to load a state dict, and if so
    with which [strict] flag. *)
Definition last_load_strict (tr : list event) : option bool :=
  match last tr with
  | Some (ELoadStateDict _ _ strict) => Some strict
  | _ => None
  end.

End LoadSpec.

(** The condition in the words of the spec: the class count or the dataset
    differs from the pretrained source, which is the ImageNet (ILSVRC)
    classifier with 1000 classes. *)
Definition differs_from_pretrained (kwargs : gmap string pyval) : bool :=
  bool_decide (kwargs !! "dataset_name" ≠ Some (PStr "ILSVRC"))
  || bool_decide (kwargs !! "num_classes" ≠ Some (PInt 1000)).

(** ** Names used to state the properties of [align_layer] *)

(** The number of ADL positions of layer [l] that are strictly less than the
    block index [b]. *)
Definition adl_shift (l : nat) (b : Z) : Z :=
  Z.of_nat (length (filter (λ pos, pos < b)%Z (default [] (_ADL_POSITION !! l)))).

(** The state-dict key 'layer{l}.{b}.{rest}'. *)
Definition layer_key (l : nat) (b : Z) (rest : string) : string :=
  ("layer" +:+ py_str (Z.of_nat l)) +:+ "." +:+ py_str b +:+ "." +:+ rest.

(** Whether the character [c] occurs in [s]. *)
Fixpoint has_char (c : ascii) (s : string) : bool :=
  match s with
  | EmptyString => false
  | String a s' => bool_decide (a = c) || has_char c s'
  end.

(** The key of a parameter of a residual block of a backbone with at most
    four layers, whose block index stays a single digit after the ADL
    shift. *)
Definition backbone_key (key : string) : Prop :=
  ∃ l b rest, l ≤ 4 ∧ (0 ≤ b)%Z ∧ (b + adl_shift l b ≤ 9)%Z ∧ key = layer_key l b rest.

(** A state dict of a backbone: every key that mentions 'layer' is the key
    of a residual block. *)
Definition backbone_state_dict {V} (d : gmap string V) : Prop :=
  ∀ k, is_Some (d !! k) → contains "layer" k = false ∨ backbone_key k.

(** The key under which [align_layer] stores the entry of [key]. *)
Definition aligned_key (key : string) : string :=
  match align_key key with
  | Ok (Some new_key) => new_key
  | _ => key
  end.

(** ** Names used to state further properties of the heads *)

Section MoreSpecDefs.
Context {T : Type} `{Scalar T}.

(** The mean of channel [k] of sample [i] over the [h * w] pixels. *)
Definition channel_mean (fm : tensor T) (h w i k : nat) : T :=
  smean (tabulate (h * w) (λ p, elem fm [i; k; p / w; p `mod` w])).

(** One entry of the classifier output: the pooled features of sample [i]
    times row [j] of the weights, plus the bias of class [j]. *)
Definition fc_entry (weight bias fm : tensor T) (c h w i j : nat) : T :=
  sadd (ssum (tabulate c (λ k, smul (channel_mean fm h w i k) (elem weight [j; k]))))
       (elem bias [j]).

(** The largest entry of channel [k] of sample [i] in the 14 x 14 window at
    the top left. *)
Definition window_max (fm : tensor T) (i k : nat) : T :=
  maximum (tabulate (14 * 14) (λ p, elem fm [i; k; p / 14; p `mod` 14])).

End MoreSpecDefs.

(** The non-negative index that a Python index into a dimension of size [n]
    stands for. *)
Definition wrap_index (n : nat) (l : Z) : Z :=
  if decide (l < 0)%Z then (Z.of_nat n + l)%Z else l.

(** ** Names used to state further properties of checkpoint loading *)

(** The part of a key before its first dot. *)
Definition key_head (key : string) : string := (split_go "." key).1.

(** What [load_pretrained] may do after it has fetched the state dict:
    nothing (it raised), or one call of [load_state_dict]. *)
Inductive load_rest : list event → Prop :=
| load_rest_none : load_rest []
| load_rest_one c keys strict : load_rest [ELoadStateDict c keys strict].

(** The events of one call of [load_pretrained]: the checkpoint is read from
    the file after the message is printed, or it is downloaded from the URL of
    the architecture, or there is no URL and nothing happens. *)
Inductive load_trace (architecture : string) (path : option string)
  : list event → Prop :=
| load_trace_file p rest :
    path = Some p → p ≠ EmptyString → load_rest rest →
    load_trace architecture path
      ([EPrint ("Loaded model from " +:+ p); ETorchLoad p] ++ rest)
| load_trace_url url rest :
    truthy path = false → model_urls !! architecture = Some url → load_rest rest →
    load_trace architecture path ([ELoadUrl url] ++ rest)
| load_trace_no_url :
    truthy path = false → model_urls !! architecture = None →
    load_trace architecture path [].

(** A state dict of a ResNet-50: every key that mentions 'layer' is the key
    of one of the at most six blocks of one of the four layers. *)
Definition resnet50_state_dict {V} (d : gmap string V) : Prop :=
  ∀ k, is_Some (d !! k) →
    contains "layer" k = false ∨
    ∃ l b rest, l ≤ 4 ∧ (0 ≤ b ≤ 5)%Z ∧ k = layer_key l b rest.

(** Block [k] of a layer, followed by an ADL module when [k] is one of the
    positions. *)
Definition with_adl (split : list Z) (k : nat) : list slot :=
  Block k :: if decide (Z.of_nat k ∈ split) then [ADL] else [].

(** ** Names used to state the properties of the residual layers *)

(** A residual addition fits when, without a projection, the block keeps
    the number of channels and the resolution, and when a projection has the
    channels and the stride of the main branch. *)
Definition shortcut_fits (blk : bottleneck_config) : Prop :=
  match cfg_downsample blk with
  | None =>
      cfg_stride blk = 1 ∧ in_channels (cfg_conv1 blk) = out_channels (cfg_conv3 blk)
  | Some (c, bn) =>
      in_channels c = in_channels (cfg_conv1 blk) ∧
      out_channels c = out_channels (cfg_conv3 blk) ∧
      kernel_size c = 1 ∧ conv_padding c = 0 ∧
      conv_stride c = cfg_stride blk ∧ bn = out_channels c
  end.

(** The shape a convolution gives to a batch of maps, if it accepts it. *)
Definition conv_shape (c : conv2d) (sh : list nat) : option (list nat) :=
  match sh with
  | [b; ch; h; w] =>
      if decide (ch = in_channels c ∧ 0 < conv_stride c ∧
                 kernel_size c ≤ h + 2 * conv_padding c ∧
                 kernel_size c ≤ w + 2 * conv_padding c)
      then Some [b; out_channels c;
                 (h + 2 * conv_padding c - kernel_size c) / conv_stride c + 1;
                 (w + 2 * conv_padding c - kernel_size c) / conv_stride c + 1]
      else None
  | _ => None
  end.

(** The shape a max pooling gives to a batch of maps, if it accepts it; the
    padding is at most half of the kernel. *)
Definition pool_shape (p : maxpool2d) (sh : list nat) : option (list nat) :=
  match sh with
  | [b; ch; h; w] =>
      if decide (0 < pool_stride p ∧
                 2 * pool_padding p ≤ pool_kernel p ∧
                 pool_kernel p ≤ h + 2 * pool_padding p ∧
                 pool_kernel p ≤ w + 2 * pool_padding p)
      then Some [b; ch;
                 (h + 2 * pool_padding p - pool_kernel p) / pool_stride p + 1;
                 (w + 2 * pool_padding p - pool_kernel p) / pool_stride p + 1]
      else None
  | _ => None
  end.

(** A layer that behaves like the convolution [c] as far as shapes go. *)
Definition conv_like {T} (c : conv2d) (m : module T) : Prop :=
  ∀ x sh, conv_shape c (shape x) = Some sh → ∃ y, m x = Ok y ∧ shape y = sh.

(** A layer that behaves like the pooling [p] as far as shapes go. *)
Definition pool_like {T} (p : maxpool2d) (m : module T) : Prop :=
  ∀ x sh, pool_shape p (shape x) = Some sh → ∃ y, m x = Ok y ∧ shape y = sh.

(** A layer that behaves like [nn.BatchNorm2d(num_features)] as far as
    shapes go: a batch of maps with [num_features] channels and more than
    one value per channel, which the layer asks for in training mode, comes
    back with its shape.  Nothing is asked on other inputs, on which the
    layer may raise. *)
Definition bn_like {T} (num_features : nat) (m : module T) : Prop :=
  ∀ x b h w, shape x = [b; num_features; h; w] → 1 < b * h * w →
    ∃ y, m x = Ok y ∧ shape y = [b; num_features; h; w].

(** A layer that behaves like [nn.ReLU] on a batch of maps. *)
Definition relu_like {T} (m : module T) : Prop :=
  ∀ x b c h w, shape x = [b; c; h; w] → ∃ y, m x = Ok y ∧ shape y = [b; c; h; w].

(** The layers of the block [self] are those that [cfg] describes: each
    convolution and each batch norm has the configured arguments, and the
    shortcut projection, when there is one, is the [nn.Sequential] of its
    convolution and its batch norm. *)
Definition implements {T} (cfg : bottleneck_config) (self : Bottleneck.t T) : Prop :=
  conv_like (cfg_conv1 cfg) (Bottleneck.conv1 self) ∧
  bn_like (cfg_bn1 cfg) (Bottleneck.bn1 self) ∧
  conv_like (cfg_conv2 cfg) (Bottleneck.conv2 self) ∧
  bn_like (cfg_bn2 cfg) (Bottleneck.bn2 self) ∧
  conv_like (cfg_conv3 cfg) (Bottleneck.conv3 self) ∧
  bn_like (cfg_bn3 cfg) (Bottleneck.bn3 self) ∧
  relu_like (Bottleneck.relu self) ∧
  match cfg_downsample cfg, Bottleneck.downsample self with
  | None, None => True
  | Some (c, n), Some d =>
      ∃ dc dbn, d = nn_Sequential [dc; dbn] ∧ conv_like c dc ∧ bn_like n dbn
  | _, _ => False
  end.

(** Half of a size, rounded up: what a stride of 2 leaves. *)
Definition halve (h : nat) : nat := (h - 1) / 2 + 1.

(** The resolution of the last feature map of ResNetCam for an input of
    size [h]. *)
Definition feature_size (large_feature_map : bool) (h : nat) : nat :=
  let h := halve (halve (halve h)) in
  if large_feature_map then h else halve h.

(** ** More small models and inputs *)


(** A checkpoint saved from a model wrapped for data parallelism. *)
Definition state_dict_data_parallel : gmap string nat :=
  <[ "module.layer1.0.conv1.weight" := 1 ]> {[ "module.conv1.weight" := 0 ]}.

(** A mask for two samples and three classes. *)
Definition mask_23 : tensor Qc := qtensor [2; 3] [1; 0; 1; 0; 1; 0]%Z.

(** The two score maps that [acol_example] returns. *)
Definition acol_map_a : tensor Qc := qtensor [2; 2; 1; 2] [1; 2; 3; 4; 5; 6; 7; 8]%Z.
Definition acol_map_b : tensor Qc := qtensor [2; 2; 1; 2] [8; 6; 4; 2; 0; 0; 10; 5]%Z.

(** A convolution that returns zeros of the right shape. *)
Definition conv_zeros (c : conv2d) : module Qc := λ x,
  match conv_shape c (shape x) with
  | Some sh => Ok (Tensor sh (replicate (numel sh) 0%Qc))
  | None => Raise RuntimeError
  end.

(** A pooling that returns zeros of the right shape. *)
Definition pool_zeros (p : maxpool2d) : module Qc := λ x,
  match pool_shape p (shape x) with
  | Some sh => Ok (Tensor sh (replicate (numel sh) 0%Qc))
  | None => Raise RuntimeError
  end.

(** A batch norm that checks its input as [nn.BatchNorm2d(num_features)]
    does in training mode (four dimensions, [num_features] channels, more
    than one value per channel) and returns it. *)
Definition bn_check (num_features : nat) : module Qc := λ x,
  match shape x with
  | [b; c; h; w] =>
      if decide (c = num_features) then
        if decide (b * h * w = 1) then Raise ValueError else Ok x
      else Raise RuntimeError
  | _ => Raise ValueError
  end.

(** A block made of such convolutions and batch norms; ReLU returns its
    input. *)
Definition bottleneck_example (cfg : bottleneck_config) : Bottleneck.t Qc := {|
  Bottleneck.conv1 := conv_zeros (cfg_conv1 cfg);
  Bottleneck.bn1 := bn_check (cfg_bn1 cfg);
  Bottleneck.conv2 := conv_zeros (cfg_conv2 cfg);
  Bottleneck.bn2 := bn_check (cfg_bn2 cfg);
  Bottleneck.conv3 := conv_zeros (cfg_conv3 cfg);
  Bottleneck.bn3 := bn_check (cfg_bn3 cfg);
  Bottleneck.relu := identity;
  Bottleneck.downsample :=
    (λ p, nn_Sequential [conv_zeros p.1; bn_check p.2]) <$> cfg_downsample cfg
|}.

(** A ResNetCam head whose layers are those of a configuration, with
    convolutions and poolings that return zeros and a batch norm that checks
    its input. *)
Definition resnet_cam_example (cfg : Init.ResNetCam_config) : ResNetCam.t Qc := {|
  ResNetCam.classif_type := "multi_class";
  ResNetCam.conv1 := conv_zeros (Init.c_conv1 cfg);
  ResNetCam.bn1 := bn_check (Init.c_bn1 cfg); ResNetCam.relu := identity;
  ResNetCam.maxpool := pool_zeros (Init.c_maxpool cfg);
  ResNetCam.layer1 :=
    nn_Sequential (Bottleneck.forward <$> (bottleneck_example <$> Init.c_layer1 cfg));
  ResNetCam.layer2 :=
    nn_Sequential (Bottleneck.forward <$> (bottleneck_example <$> Init.c_layer2 cfg));
  ResNetCam.layer3 :=
    nn_Sequential (Bottleneck.forward <$> (bottleneck_example <$> Init.c_layer3 cfg));
  ResNetCam.layer4 :=
    nn_Sequential (Bottleneck.forward <$> (bottleneck_example <$> Init.c_layer4 cfg));
  ResNetCam.fc_weight :=
    Tensor [(Init.c_fc cfg).2; (Init.c_fc cfg).1]
           (replicate ((Init.c_fc cfg).2 * (Init.c_fc cfg).1) 0%Qc);
  ResNetCam.fc_bias := Tensor [(Init.c_fc cfg).2] (replicate (Init.c_fc cfg).2 0%Qc)
|}.

(** An image of 32 x 32 pixels with three channels, all zero. *)
Definition zeros_image : tensor Qc := Tensor [1; 3; 32; 32] (replicate 3072 0%Qc).

(** A 14 x 14 map with the entries 0 to 195. *)
Definition ramp_14 : tensor Qc :=
  Tensor [1; 1; 14; 14] (tabulate 196 (λ p, qz (Z.of_nat p))).

(** A classifier with one class on one channel: weight 2 and bias 1. *)
Definition resnet_example : Resnet.t Qc := {|
  Resnet.features := [];
  Resnet.linear_weight := qtensor [1; 1] [2%Z];
  Resnet.linear_bias := qtensor [1] [1%Z]
|}.

(** The shape an [nn.Sequential] of convolutions and ReLUs gives to a batch
    of maps, if it accepts it. *)
Fixpoint seq_shape (ls : list layer_config) (sh : list nat) : option (list nat) :=
  match ls with
  | [] => Some sh
  | LConv c :: ls' => sh' ← conv_shape c sh; seq_shape ls' sh'
  | LReLU :: ls' => seq_shape ls' sh
  end.

(** A layer that behaves like the [nn.Sequential] [ls] as far as shapes
    go. *)
Definition seq_like {T} (ls : list layer_config) (m : module T) : Prop :=
  ∀ x sh, seq_shape ls (shape x) = Some sh → ∃ y, m x = Ok y ∧ shape y = sh.

(** A sequence of convolutions that returns zeros of the right shape. *)
Definition seq_zeros (ls : list layer_config) : module Qc := λ x,
  match seq_shape ls (shape x) with
  | Some sh => Ok (Tensor sh (replicate (numel sh) 0%Qc))
  | None => Raise RuntimeError
  end.

(** An SPG head whose layers are those of a configuration. *)
Definition resnet_spg_example (cfg : InitSpg.config) : ResNetSpg.t Qc := {|
  ResNetSpg.conv1 := conv_zeros (InitSpg.c_conv1 cfg);
  ResNetSpg.bn1 := bn_check (InitSpg.c_bn1 cfg); ResNetSpg.relu := identity;
  ResNetSpg.maxpool := pool_zeros (InitSpg.c_maxpool cfg);
  ResNetSpg.layer1 :=
    nn_Sequential (Bottleneck.forward <$> (bottleneck_example <$> InitSpg.c_layer1 cfg));
  ResNetSpg.layer2 :=
    nn_Sequential (Bottleneck.forward <$> (bottleneck_example <$> InitSpg.c_layer2 cfg));
  ResNetSpg.SPG_A1 :=
    nn_Sequential (Bottleneck.forward <$> (bottleneck_example <$> InitSpg.c_SPG_A1 cfg));
  ResNetSpg.SPG_A2 :=
    nn_Sequential (Bottleneck.forward <$> (bottleneck_example <$> InitSpg.c_SPG_A2 cfg));
  ResNetSpg.layer4 :=
    nn_Sequential (Bottleneck.forward <$> (bottleneck_example <$> InitSpg.c_layer4 cfg));
  ResNetSpg.SPG_A4 := conv_zeros (InitSpg.c_SPG_A4 cfg);
  ResNetSpg.SPG_B_1a := seq_zeros (InitSpg.c_SPG_B_1a cfg);
  ResNetSpg.SPG_B_2a := seq_zeros (InitSpg.c_SPG_B_2a cfg);
  ResNetSpg.SPG_B_shared := seq_zeros (InitSpg.c_SPG_B_shared cfg);
  ResNetSpg.SPG_C := seq_zeros (InitSpg.c_SPG_C cfg)
|}.

(** * Properties *)

(** ** Index arithmetic *)

Lemma lookup_tabulate {A} (f : nat → A) n i :
  i < n → tabulate n f !! i = Some (f i).
Proof.
  intros Hi. unfold tabulate.
  rewrite list_lookup_fmap, lookup_seq_lt by done. done.
Qed.

Lemma length_tabulate {A} (f : nat → A) n : length (tabulate n f) = n.
Proof. unfold tabulate. by rewrite length_fmap, length_seq. Qed.

Lemma tabulate_ext {A} (f g : nat → A) n :
  (∀ i, i < n → f i = g i) → tabulate n f = tabulate n g.
Proof.
  intros Hfg. unfold tabulate. apply list_fmap_ext.
  intros i x Hx. apply lookup_seq in Hx as [-> ?]. by apply Hfg.
Qed.

Lemma ravel_lt sh idx : in_bounds idx sh → ravel sh idx < numel sh.
Proof.
  induction 1 as [|i d idx sh Hi _ IH]; simpl; [lia|].
  fold (numel sh). nia.
Qed.

Lemma unravel_ravel sh idx : in_bounds idx sh → unravel sh (ravel sh idx) = idx.
Proof.
  induction 1 as [|i d idx sh Hi Hb IH]; simpl; [done|].
  fold (numel sh). pose proof (ravel_lt _ _ Hb) as Hlt.
  assert (numel sh ≠ 0) by lia.
  f_equal.
  - rewrite Nat.div_add_l by done. rewrite Nat.div_small by done. lia.
  - rewrite Nat.add_comm, Nat.Div0.mod_add. by rewrite Nat.mod_small.
Qed.

Lemma in_bounds_length idx sh : in_bounds idx sh → length idx = length sh.
Proof. apply Forall2_length. Qed.

Lemma bsel_lt d i : i < d → bsel d i = i.
Proof. unfold bsel. case_decide; lia. Qed.

Lemma bsel_1 i : bsel 1 i = 0.
Proof. done. Qed.

Lemma zip_bsel_in_bounds sh idx : in_bounds idx sh → zip_with bsel sh idx = idx.
Proof.
  induction 1 as [|i d idx sh Hi _ IH]; simpl; [done|].
  by rewrite bsel_lt, IH.
Qed.

Lemma pad_shape_full n sh : n ≤ length sh → pad_shape n sh = sh.
Proof. intros. unfold pad_shape. by replace (n - length sh) with 0 by lia. Qed.

Section TensorLemmas.
Context {T : Type} `{Scalar T}.

Lemma bget_in_bounds (t : tensor T) idx :
  in_bounds idx (shape t) → bget t idx = elem t idx.
Proof.
  intros Hb. unfold bget, elem, tget.
  rewrite decide_True by done.
  rewrite pad_shape_full by (by rewrite (in_bounds_length _ _ Hb)).
  by rewrite zip_bsel_in_bounds.
Qed.

Lemma tget_tabulate sh (g : list nat → T) idx :
  in_bounds idx sh →
  tget (Tensor sh (tabulate (numel sh) (λ n, g (unravel sh n)))) idx = Some (g idx).
Proof.
  intros Hb. unfold tget; simpl. rewrite decide_True by done.
  rewrite lookup_tabulate by (by apply ravel_lt).
  by rewrite unravel_ravel.
Qed.

Lemma bzip_shape f (a b t : tensor T) :
  bzip f a b = Ok t → broadcast_shapes (shape a) (shape b) = Ok (shape t).
Proof.
  unfold bzip. destruct (broadcast_shapes _ _); simpl; [|done].
  by intros [= <-].
Qed.

Lemma bzip_get f (a b t : tensor T) idx :
  bzip f a b = Ok t → in_bounds idx (shape t) →
  tget t idx = Some (f (bget a idx) (bget b idx)).
Proof.
  unfold bzip. destruct (broadcast_shapes _ _) as [sh|]; simpl; [|done].
  intros [= <-] Hb; simpl in *.
  by rewrite (tget_tabulate sh (λ idx, f (bget a idx) (bget b idx))).
Qed.

Lemma mean_dim_get (t r : tensor T) d n idx :
  mean_dim t d = Ok r → shape t !! d = Some n → in_bounds idx (shape r) →
  shape r = delete d (shape t) ∧
  tget r idx = Some (smean (tabulate n (λ k, bget t (take d idx ++ k :: drop d idx)))).
Proof.
  unfold mean_dim. intros Hm Hn. rewrite Hn in Hm.
  injection Hm as <-. simpl. intros Hb. split; [done|].
  by rewrite (tget_tabulate _
    (λ idx, smean (tabulate n (λ k, bget t (take d idx ++ k :: drop d idx))))).
Qed.

End TensorLemmas.

(** ** Monadic plumbing *)

Lemma bind_Ok {A B} (f : A → result B) (m : result A) a :
  m = Ok a → (m ≫= f) = f a.
Proof. by intros ->. Qed.

Lemma traverse_Forall2 {A B} (f : A → result B) l ys :
  traverse f l = Ok ys → Forall2 (λ x y, f x = Ok y) l ys.
Proof.
  revert ys. induction l as [|x l IH]; intros ys; simpl.
  - intros [= <-]. constructor.
  - destruct (f x) as [y|] eqn:Hy; simpl; [|done].
    destruct (traverse f l) as [ys'|] eqn:Hys; simpl; [|done].
    intros [= <-]. constructor; auto.
Qed.

Lemma traverse_Ok {A B} (f : A → result B) (g : A → B) l :
  Forall (λ x, f x = Ok (g x)) l → traverse f l = Ok (g <$> l).
Proof.
  induction 1 as [|x l Hx _ IH]; simpl; [done|].
  by rewrite Hx, IH.
Qed.

Lemma norm_index_nonneg n i :
  (0 ≤ i < Z.of_nat n)%Z → norm_index n i = Ok (Z.to_nat i).
Proof. intros. unfold norm_index. by rewrite decide_True. Qed.

(** ** Slabs and row selection *)

Lemma lookup_bind_chunks {A B} (f : A → list B) (l : list A) c i k x :
  Forall (λ y, length (f y) = c) l → l !! i = Some x → k < c →
  (l ≫= f) !! (i * c + k) = f x !! k.
Proof.
  intros Hl. revert i. induction Hl as [|y l Hy _ IH]; intros i Hi Hk; [done|].
  rewrite bind_cons. destruct i as [|i]; simpl in *.
  - injection Hi as ->. rewrite lookup_app_l by lia. done.
  - rewrite lookup_app_r by lia. rewrite <- (IH i Hi Hk). f_equal. lia.
Qed.

Lemma length_bind_chunks {A B} (f : A → list B) (l : list A) c :
  Forall (λ y, length (f y) = c) l → length (l ≫= f) = length l * c.
Proof.
  induction 1 as [|y l Hy _ IH]; [done|].
  rewrite bind_cons, length_app, IH, Hy. simpl. lia.
Qed.

Section Slabs.
Context {T : Type} `{Scalar T}.

Lemma length_slab (t : tensor T) n sh i :
  shape t = n :: sh → wf t → i < n → length (slab t i) = numel sh.
Proof.
  unfold wf, slab. intros -> Hwf Hi. simpl in *. fold (numel sh) in *.
  rewrite length_take, length_drop. nia.
Qed.

Lemma lookup_slab (t : tensor T) i k :
  k < numel (tail (shape t)) →
  slab t i !! k = data t !! (i * numel (tail (shape t)) + k).
Proof.
  intros Hk. unfold slab. rewrite lookup_take_lt by done. by rewrite lookup_drop.
Qed.

Lemma elem_lookup (t : tensor T) idx :
  in_bounds idx (shape t) → elem t idx = default s0 (data t !! ravel (shape t) idx).
Proof. intros. unfold elem, tget. by rewrite decide_True. Qed.

Lemma tget_elem (t : tensor T) idx :
  in_bounds idx (shape t) → wf t → tget t idx = Some (elem t idx).
Proof.
  intros Hb Hwf. unfold elem, tget. rewrite decide_True by done.
  destruct (data t !! _) eqn:E; [done|].
  apply lookup_ge_None in E. apply ravel_lt in Hb. unfold wf in Hwf. lia.
Qed.

(** A row of a matrix, entry by entry. *)
Lemma slab_row (t : tensor T) n c r :
  shape t = [n; c] → wf t → r < n →
  slab t r = tabulate c (λ k, elem t [r; k]).
Proof.
  intros Hsh Hwf Hr. apply list_eq. intros k.
  destruct (decide (k < c)) as [Hk|Hk].
  - rewrite lookup_tabulate by done.
    rewrite lookup_slab by (rewrite Hsh; simpl; lia).
    rewrite <- tget_elem; [|rewrite Hsh; repeat constructor; done|done].
    unfold tget. rewrite decide_True by (rewrite Hsh; repeat constructor; done).
    rewrite Hsh. simpl. f_equal. lia.
  - rewrite !lookup_ge_None_2; [done| |].
    + rewrite length_tabulate. lia.
    + rewrite (length_slab t n [c]); simpl; auto. lia.
Qed.

End Slabs.

(** ** The multi-class CAM computation *)

Lemma bcast_dim_same a : bcast_dim a a = Ok a.
Proof. unfold bcast_dim. by rewrite decide_True. Qed.

Lemma bcast_dim_1_l a : bcast_dim 1 a = Ok a.
Proof. unfold bcast_dim. repeat case_decide; congruence. Qed.

Lemma bcast_dim_1_r a : bcast_dim a 1 = Ok a.
Proof. unfold bcast_dim. repeat case_decide; congruence. Qed.

Section CamCore.
Context {T : Type} `{Scalar T}.

Lemma index_rows_spec (t : tensor T) n c labels :
  shape t = [n; c] → wf t → Forall (λ l, 0 ≤ l < Z.of_nat n)%Z labels →
  ∃ r, index_rows t labels = Ok r ∧ shape r = [length labels; c] ∧
       length (data r) = length labels * c ∧
       ∀ b l k, labels !! b = Some l → k < c →
         data r !! (b * c + k) = Some (elem t [Z.to_nat l; k]).
Proof.
  intros Hsh Hwf Hl. unfold index_rows. rewrite Hsh.
  rewrite (traverse_Ok _ Z.to_nat).
  2:{ eapply Forall_impl; [exact Hl|]. intros l ?. by apply norm_index_nonneg. }
  simpl. eexists. split; [done|]. simpl.
  assert (Hrows : Forall (λ y, length (slab t y) = c) (Z.to_nat <$> labels)).
  { apply Forall_fmap. eapply Forall_impl; [exact Hl|]. intros l ?. simpl in *.
    rewrite (length_slab t n [c]); simpl; auto; lia. }
  split; [done|]. split.
  - rewrite (length_bind_chunks _ _ c) by done. by rewrite length_fmap.
  - intros b l k Hb Hk.
    rewrite (lookup_bind_chunks _ _ c b k (Z.to_nat l)); auto.
    2:{ by rewrite list_lookup_fmap, Hb. }
    assert (Z.to_nat l < n).
    { eapply Forall_lookup_1 in Hl; [|exact Hb]. simpl in Hl. lia. }
    rewrite (slab_row t n c) by done. by rewrite lookup_tabulate.
Qed.

Lemma view_exact (t : tensor T) sh :
  numel sh = length (data t) → view t (Some <$> sh) = Ok (Tensor sh (data t)).
Proof.
  intros Hn. unfold view, view_shape.
  assert (omap id (Some <$> sh) = sh) as ->.
  { clear Hn. induction sh; simpl; f_equal; auto. }
  rewrite length_fmap, Nat.sub_diag. by rewrite decide_True.
Qed.

Lemma view_mismatch (t : tensor T) sh :
  numel sh ≠ length (data t) → view t (Some <$> sh) = Raise RuntimeError.
Proof.
  intros Hn. unfold view, view_shape.
  assert (omap id (Some <$> sh) = sh) as ->.
  { clear Hn. induction sh; simpl; f_equal; auto. }
  rewrite length_fmap, Nat.sub_diag. by rewrite decide_False.
Qed.

Lemma cam_formula_spec (weight fm cw0 : tensor T) b c h w :
  shape fm = [b; c; h; w] → wf fm →
  length (data cw0) = b * c →
  ∃ cams,
    (cw ← view cw0 ((Some <$> take 2 (shape fm)) ++ [Some 1; Some 1]);
     prod ← tmul cw fm; mean_dim prod 1) = Ok cams ∧
    shape cams = [b; h; w] ∧ wf cams ∧
    ∀ i y x, i < b → y < h → x < w →
      tget cams [i; y; x] =
        Some (smean (tabulate c (λ k,
          smul (default s0 (data cw0 !! (i * c + k))) (elem fm [i; k; y; x])))).
Proof.
  intros Hfm Hwf Hlen. rewrite Hfm. simpl take.
  change ((Some <$> [b; c]) ++ [Some 1; Some 1])
    with (Some <$> [b; c; 1; 1] : list (option nat)).
  rewrite view_exact by (simpl; lia). simpl.
  unfold tmul, bzip. simpl shape. rewrite Hfm.
  unfold broadcast_shapes, pad_shape. simpl.
  rewrite !bcast_dim_same, !bcast_dim_1_l. simpl.
  unfold mean_dim. simpl.
  eexists. split; [done|]. split; [done|]. split.
  { unfold wf. simpl. by rewrite length_tabulate. }
  intros i y x Hi Hy Hx.
  rewrite (tget_tabulate [b; h; w] (λ idx, smean (tabulate c (λ k,
     bget _ (take 1 idx ++ k :: drop 1 idx))))) by (repeat constructor; done).
  f_equal. f_equal. apply tabulate_ext. intros k Hk. simpl.
  set (prod := Tensor _ _).
  rewrite (bget_in_bounds prod) by (repeat constructor; done).
  unfold elem at 1. unfold prod.
  rewrite (tget_tabulate [b; c; h; w] (λ idx, smul (bget _ idx) (bget fm idx)))
    by (repeat constructor; done).
  simpl. f_equal.
  - unfold bget. simpl. unfold pad_shape. simpl.
    rewrite !bsel_lt by done. do 2 f_equal. lia.
  - apply bget_in_bounds. rewrite Hfm. repeat constructor; done.
Qed.

End CamCore.

(** ** [forward] through the feature extractor *)

Section Chain.
Context {T : Type} `{Scalar T}.

Lemma chain_raise (ms : list (module T)) e :
  foldl (λ acc m, acc ≫= m) (Raise e) ms = Raise e.
Proof. induction ms; simpl; auto. Qed.

Lemma chain_cons (m : module T) ms x : chain (m :: ms) x = m x ≫= chain ms.
Proof.
  unfold chain. simpl. destruct (m x); simpl; [done|]. apply chain_raise.
Qed.

Lemma chain_nil (x : tensor T) : chain [] x = Ok x.
Proof. done. Qed.

End Chain.

(** One layer of a chain after the other: the case in which the layer
    raises is closed, the other goes on with the output of the layer. *)
Ltac run_layers self x :=
  repeat (rewrite chain_cons;
          match goal with
          | |- context [?m self x] =>
              let x' := fresh "x" in
              destruct (m self x) as [x'|]; simpl; [|done];
              clear x; rename x' into x
          end).

Section CamForward.
Context {T : Type} `{Scalar T}.

Lemma ResNetCam_forward_features (self : ResNetCam.t T) x labels return_cam :
  ResNetCam.forward self x labels return_cam =
  fm ← cam_features self x;
  logits ← fc_logits (ResNetCam.fc_weight self) (ResNetCam.fc_bias self) fm;
  if return_cam then
    cams ← (if decide (ResNetCam.classif_type self = "multi_class")
            then ResNetCam.cam_multi_class self fm labels
            else ResNetCam.cam_multi_label self fm labels);
    Ok (Cams cams)
  else Ok (Dict {[ "logits" := logits ]}).
Proof.
  unfold ResNetCam.forward, cam_features, fc_logits.
  run_layers self x.
  rewrite ?chain_nil. simpl.
  destruct (avgpool x) as [p|]; simpl; [|done].
  destruct (size p 0); simpl; [|done].
  destruct (view p _); simpl; done.
Qed.

Lemma ResNetAdl_forward_features (self : ResNetAdl.t T) x labels return_cam :
  ResNetAdl.forward self x labels return_cam =
  fm ← adl_features self x;
  logits ← fc_logits (ResNetAdl.fc_weight self) (ResNetAdl.fc_bias self) fm;
  if return_cam then cams ← ResNetAdl.cam self fm labels; Ok (Cams cams)
  else Ok (Dict {[ "logits" := logits ]}).
Proof.
  unfold ResNetAdl.forward, adl_features, fc_logits.
  run_layers self x.
  rewrite ?chain_nil. simpl.
  destruct (avgpool x) as [p|]; simpl; [|done].
  destruct (size p 0); simpl; [|done].
  destruct (view p _); simpl; done.
Qed.

Lemma fc_logits_ok (weight bias fm : tensor T) b c h w n :
  shape fm = [b; c; h; w] → b ≠ 0 →
  shape weight = [n; c] → shape bias = [n] →
  ∃ logits, fc_logits weight bias fm = Ok logits ∧ shape logits = [b; n].
Proof.
  intros Hfm Hb Hw Hbias. unfold fc_logits, avgpool. rewrite Hfm. simpl.
  unfold view, view_shape. simpl. rewrite length_tabulate.
  rewrite decide_True.
  2:{ split; [lia|]. replace (b * 1) with b by lia.
      rewrite Nat.mul_comm. by apply Nat.Div0.mod_mul. }
  simpl. unfold linear. simpl. rewrite Hw, Hbias.
  replace ((b * c) `div` (b * 1)) with c.
  2:{ replace (b * 1) with b by lia. symmetry. rewrite Nat.mul_comm. by apply Nat.div_mul. }
  rewrite decide_True by done. eauto.
Qed.

End CamForward.

(** ** The CAM branch of ResNetAdl *)

Section AdlCam.
Context {T : Type} `{Scalar T}.

Lemma adl_cam_spec (self : ResNetAdl.t T) (fm : tensor T) (labels : list Z)
    (b c h w n : nat) :
  shape fm = [b; c; h; w] → wf fm →
  shape (ResNetAdl.fc_weight self) = [n; c] → wf (ResNetAdl.fc_weight self) →
  length labels = b → Forall (λ l, 0 ≤ l < Z.of_nat n)%Z labels →
  ∃ cams,
    ResNetAdl.cam self fm (LIndex labels) = Ok cams ∧
    shape cams = [b; h; w] ∧ wf cams ∧
    ∀ i l y x, labels !! i = Some l → y < h → x < w →
      tget cams [i; y; x] =
        Some (weighted_mean (ResNetAdl.fc_weight self) fm c (Z.to_nat l) i y x).
Proof.
  intros Hfm Hwf Hw Hwfw Hlen Hl.
  unfold ResNetAdl.cam, getitem.
  destruct (index_rows_spec _ _ _ labels Hw Hwfw Hl) as (cw0 & -> & Hsh0 & Hlen0 & Hrow).
  rewrite Hlen in Hsh0, Hlen0.
  destruct (cam_formula_spec cw0 fm cw0 b c h w Hfm Hwf Hlen0)
    as (cams & Hc & Hshape & Hwfc & Hget).
  simpl. rewrite Hc. exists cams. split; [done|]. split; [done|]. split; [done|].
  intros i l y x Hi Hy Hx.
  assert (i < b) by (rewrite <- Hlen; by eapply lookup_lt_Some).
  rewrite Hget by done. unfold weighted_mean. do 2 f_equal.
  apply tabulate_ext. intros k Hk. by rewrite (Hrow i l k).
Qed.

End AdlCam.

(** ** Selecting one channel per sample *)

Lemma bcast_index_range {B} n (labels : list B) :
  length labels = n →
  bcast_index (Z.of_nat <$> seq 0 n) labels = Ok (zip (Z.of_nat <$> seq 0 n) labels).
Proof.
  intros Hlen. destruct n as [|[|n]]; destruct labels as [|l [|l' labels]];
    simplify_eq/=; try done.
  unfold bcast_index. simpl. rewrite decide_True; [done|].
  by rewrite length_fmap, length_seq.
Qed.

Lemma bcast_zip_same sh : bcast_zip sh sh = Ok sh.
Proof. induction sh as [|a sh IH]; simpl; [done|]. by rewrite bcast_dim_same, IH. Qed.

Lemma broadcast_shapes_same sh : broadcast_shapes sh sh = Ok sh.
Proof.
  unfold broadcast_shapes. rewrite Nat.max_id, pad_shape_full by done.
  apply bcast_zip_same.
Qed.

Section IndexPairs.
Context {T : Type} `{Scalar T}.

Lemma bzip_same_shape f (a b : tensor T) sh :
  shape a = sh → shape b = sh →
  ∃ t, bzip f a b = Ok t ∧ shape t = sh ∧ wf t ∧
       ∀ idx, in_bounds idx sh → tget t idx = Some (f (elem a idx) (elem b idx)).
Proof.
  intros Ha Hb. unfold bzip. rewrite Ha, Hb, broadcast_shapes_same. simpl.
  eexists. split; [done|]. split; [done|]. split.
  { unfold wf. simpl. by rewrite length_tabulate. }
  intros idx Hidx.
  rewrite (tget_tabulate sh (λ idx, f (bget a idx) (bget b idx))) by done.
  by rewrite !bget_in_bounds by (by rewrite ?Ha, ?Hb).
Qed.

Lemma index_pairs_spec (t : tensor T) b c h w labels :
  shape t = [b; c; h; w] → wf t → length labels = b →
  Forall (λ l, 0 ≤ l < Z.of_nat c)%Z labels →
  ∃ r, index_pairs t (range b) labels = Ok r ∧ shape r = [b; h; w] ∧ wf r ∧
       ∀ i l y x, labels !! i = Some l → y < h → x < w →
         tget r [i; y; x] = Some (elem t [i; Z.to_nat l; y; x]).
Proof.
  intros Hsh Hwf Hlen Hl. unfold index_pairs, range. rewrite Hsh.
  rewrite bcast_index_range by done. simpl.
  set (ps := zip _ _).
  assert (Hps : ∀ i l, labels !! i = Some l → ps !! i = Some (Z.of_nat i, l)).
  { intros i l Hi. unfold ps. apply lookup_zip_with_Some.
    exists (Z.of_nat i), l. split; [done|]. split; [|done].
    rewrite list_lookup_fmap, lookup_seq_lt; [done|].
    rewrite <- Hlen. by eapply lookup_lt_Some. }
  assert (Hlps : length ps = b).
  { unfold ps. rewrite length_zip, length_fmap, length_seq. lia. }
  rewrite (traverse_Ok _ (λ p, Z.to_nat p.1 * c + Z.to_nat p.2)).
  2:{ apply Forall_lookup_2. intros i [r l] Hi.
      apply lookup_zip_with_Some in Hi as (r' & l' & [= <- <-] & Hr & Hli).
      rewrite list_lookup_fmap in Hr.
      destruct (seq 0 b !! i) as [j|] eqn:Hj; [|done].
      apply lookup_seq in Hj as [-> Hj]. simpl in Hr. injection Hr as <-.
      eapply Forall_lookup_1 in Hl; [|exact Hli]. simpl in *.
      rewrite !norm_index_nonneg by lia. simpl. by rewrite Nat2Z.id. }
  simpl. rewrite Hlps.
  set (flat := Tensor (b * c :: [h; w]) (data t)).
  assert (Hslab : ∀ j, j < b * c → length (slab flat j) = h * w).
  { intros j Hj. rewrite (length_slab flat (b * c) [h; w]); auto.
    - simpl. lia.
    - unfold wf, flat. simpl. rewrite Hwf, Hsh. simpl. lia. }
  assert (Hix : Forall (λ j, length (slab flat j) = h * w)
                  ((λ p : Z * Z, Z.to_nat p.1 * c + Z.to_nat p.2) <$> ps)).
  { apply Forall_fmap. apply Forall_lookup_2. intros i [r l] Hi.
    apply lookup_zip_with_Some in Hi as (r' & l' & [= <- <-] & Hr & Hli).
    rewrite list_lookup_fmap in Hr.
    destruct (seq 0 b !! i) as [j|] eqn:Hj; [|done].
    apply lookup_seq in Hj as [-> Hj]. simpl in Hr. injection Hr as <-.
    eapply Forall_lookup_1 in Hl; [|exact Hli]. simpl in *.
    apply Hslab. rewrite Nat2Z.id. nia. }
  eexists. split; [done|]. split; [done|]. split.
  { unfold wf. simpl. rewrite (length_bind_chunks _ _ (h * w)) by done.
    rewrite length_fmap, Hlps. lia. }
  intros i l y x Hi Hy Hx.
  assert (Hib : i < b) by (rewrite <- Hlen; by eapply lookup_lt_Some).
  assert (Hlc : Z.to_nat l < c).
  { eapply Forall_lookup_1 in Hl; [|exact Hi]. simpl in Hl. lia. }
  unfold tget. simpl shape. rewrite decide_True by (repeat constructor; done).
  simpl data.
  replace (ravel [b; h; w] [i; y; x]) with (i * (h * w) + (y * w + x))
    by (simpl; lia).
  rewrite (lookup_bind_chunks _ _ (h * w) i _ (Z.to_nat (Z.of_nat i) * c + Z.to_nat l));
    [|done| |nia].
  2:{ rewrite list_lookup_fmap, (Hps i l Hi). done. }
  rewrite lookup_slab by (simpl; nia).
  rewrite Nat2Z.id. unfold flat. simpl.
  rewrite <- (tget_elem t) by (rewrite ?Hsh; repeat constructor; done).
  unfold tget. rewrite decide_True by (rewrite Hsh; repeat constructor; done).
  rewrite Hsh. f_equal. simpl. lia.
Qed.

End IndexPairs.

(** ** [forward] of ResNetAcol and ResNetSpg through their trunks *)

Section AcolSpgForward.
Context {T : Type} `{Scalar T}.

Lemma ResNetAcol_forward_features nt (self : ResNetAcol.t T) x labels return_cam :
  ResNetAcol.forward nt self x labels return_cam =
  batch_size ← size x 0;
  feature ← acol_features self x;
  logits_dict ← ResNetAcol._acol_logits self feature labels
                  (ResNetAcol.drop_threshold self);
  if return_cam then
    fa ← dict_get logits_dict "feat_map_a";
    normalized_a ← nt fa;
    fb ← dict_get logits_dict "feat_map_b";
    normalized_b ← nt fb;
    feature_map ← tmax normalized_a normalized_b;
    cams ← getitem_range feature_map batch_size labels;
    Ok (Cams cams)
  else Ok (Dict logits_dict).
Proof.
  unfold ResNetAcol.forward, acol_features.
  destruct (size x 0) as [bs|]; simpl; [|done].
  run_layers self x.
  done.
Qed.

Lemma ResNetSpg_forward_trunk ca (self : ResNetSpg.t T) x labels return_cam :
  ResNetSpg.forward ca self x labels return_cam =
  batch_size ← size x 0;
  maps ← spg_trunk self x;
  logits ← spg_logits (feat_map maps);
  labels ← ResNetSpg.default_labels logits labels;
  att ← ca (feat_map maps) labels (logits_b1 maps) (logits_b2 maps);
  if return_cam then
    cams ← getitem_range (feat_map maps) batch_size labels;
    Ok (Cams cams)
  else
    Ok (Dict (<[ "attention" := att.1 ]>
             (<[ "fused_attention" := att.2 ]>
             (<[ "logits" := logits ]>
             (<[ "logits_b1" := logits_b1 maps ]>
             (<[ "logits_b2" := logits_b2 maps ]>
             {[ "logits_c" := logits_c maps ]})))))).
Proof.
  unfold ResNetSpg.forward, spg_trunk, spg_logits.
  destruct (size x 0) as [bs|]; simpl; [|done].
  run_layers self x.
  unfold chain. simpl.
  destruct (ResNetSpg.SPG_B_1a self x) as [b1|]; simpl; [|done].
  destruct (ResNetSpg.SPG_B_shared self b1) as [b1'|]; simpl; [|done].
  destruct (ResNetSpg.SPG_A2 self x) as [x2|]; simpl; [|done].
  destruct (ResNetSpg.SPG_B_2a self x2) as [b2|]; simpl; [|done].
  destruct (ResNetSpg.SPG_B_shared self b2) as [b2'|]; simpl; [|done].
  destruct (ResNetSpg.layer4 self x2) as [x4|]; simpl; [|done].
  destruct (ResNetSpg.SPG_A4 self x4) as [fm|]; simpl; [|done].
  destruct (ResNetSpg.SPG_C self x4) as [lc|]; simpl; [|done].
  destruct (avgpool fm) as [lg|]; simpl; [|done].
  destruct (view lg _) as [lg'|]; simpl; [|done].
  destruct (ResNetSpg.default_labels lg' labels) as [lab|]; simpl; [|done].
  destruct (ca fm lab b1' b2') as [[a fa]|]; simpl; done.
Qed.

Lemma spg_logits_ok (fm : tensor T) b c h w :
  shape fm = [b; c; h; w] →
  ∃ logits, spg_logits fm = Ok logits ∧ shape logits = [b; c] ∧ wf logits.
Proof.
  intros Hfm. unfold spg_logits, avgpool. rewrite Hfm. simpl.
  change [Some b; Some c] with (Some <$> [b; c] : list (option nat)).
  rewrite view_exact by (simpl; rewrite length_tabulate; lia).
  eexists. split; [done|]. split; [done|].
  unfold wf. simpl. rewrite length_tabulate. lia.
Qed.

Lemma tget_Some_elem (t : tensor T) idx v : tget t idx = Some v → elem t idx = v.
Proof. unfold elem. by intros ->. Qed.

End AcolSpgForward.

(** ** argmax *)

Section Argmax.
Context {T : Type} `{Scalar T}.

Lemma argmax_from_range best besti i (l : list T) :
  besti < i → argmax_from best besti i l < i + length l.
Proof.
  revert best besti i. induction l as [|x l IH]; intros best besti i Hi; simpl.
  - lia.
  - destruct (sltb best x).
    + pose proof (IH x i (S i)). lia.
    + pose proof (IH best besti (S i)). lia.
Qed.

(** With an irreflexive and transitive [sltb], no entry of the row is
    larger than the one [argmax_from] picks. *)
Lemma argmax_from_max (row pre l : list T) best besti :
  (∀ a, sltb a a = false) →
  (∀ a b c, sltb a b = true → sltb b c = true → sltb a c = true) →
  row = pre ++ l → row !! besti = Some best → besti < length pre →
  Forall (λ x, sltb best x = false) pre →
  ∃ v, row !! argmax_from best besti (length pre) l = Some v ∧
       Forall (λ x, sltb v x = false) row.
Proof.
  intros Hirr Htr. revert pre best besti.
  induction l as [|x l IH]; intros pre best besti Hrow Hbest Hlt Hpre; simpl.
  - exists best. split; [done|]. by rewrite Hrow, app_nil_r.
  - assert (Hrow' : row = (pre ++ [x]) ++ l) by (by rewrite <- app_assoc).
    destruct (sltb best x) eqn:Hbx.
    + destruct (IH (pre ++ [x]) x (length pre)) as (v & Hv & Hall); auto.
      * rewrite Hrow. rewrite lookup_app_r by lia.
        by rewrite Nat.sub_diag.
      * rewrite length_app. simpl. lia.
      * apply Forall_app. split.
        -- eapply Forall_impl; [exact Hpre|]. intros y Hy. simpl in *.
           destruct (sltb x y) eqn:Hxy; [|done].
           by rewrite (Htr best x y Hbx Hxy) in Hy.
        -- repeat constructor. apply Hirr.
      * exists v. split; [|done].
        rewrite length_app in Hv. simpl in Hv.
        by replace (length pre + 1) with (S (length pre)) in Hv by lia.
    + destruct (IH (pre ++ [x]) best besti) as (v & Hv & Hall); auto.
      * rewrite length_app. simpl. lia.
      * apply Forall_app. split; [done|]. by repeat constructor.
      * exists v. split; [|done].
        rewrite length_app in Hv. simpl in Hv.
        by replace (length pre + 1) with (S (length pre)) in Hv by lia.
Qed.

Lemma argmax_row_spec (row : list T) :
  row ≠ [] →
  ∃ z, argmax_row row = Ok z ∧ (0 ≤ z < Z.of_nat (length row))%Z ∧
    ((∀ a, sltb a a = false) →
     (∀ a b c, sltb a b = true → sltb b c = true → sltb a c = true) →
     ∃ v, row !! Z.to_nat z = Some v ∧ Forall (λ x, sltb v x = false) row).
Proof.
  destruct row as [|x l]; [done|]. intros _. simpl.
  eexists. split; [done|]. split.
  - pose proof (argmax_from_range x 0 1 l). lia.
  - intros Hirr Htr. rewrite Nat2Z.id.
    apply (argmax_from_max (x :: l) [x] l x 0); auto.
Qed.

Lemma argmax_dim1_spec (t : tensor T) b c :
  shape t = [b; c] → wf t → c ≠ 0 →
  ∃ am, argmax_dim1 t = Ok am ∧ length am = b ∧
    Forall (λ l, 0 ≤ l < Z.of_nat c)%Z am ∧
    ((∀ a, sltb a a = false) →
     (∀ a b c, sltb a b = true → sltb b c = true → sltb a c = true) →
     ∀ i l k, am !! i = Some l → k < c →
       sltb (elem t [i; Z.to_nat l]) (elem t [i; k]) = false).
Proof.
  intros Hsh Hwf Hc. unfold argmax_dim1. rewrite Hsh.
  assert (Hrow : ∀ i, i < b → length (slab t i) = c).
  { intros i Hi. rewrite (length_slab t b [c]); simpl; auto. lia. }
  assert (Hsome : ∀ i, i < b → ∃ z, argmax_row (slab t i) = Ok z ∧
    (0 ≤ z < Z.of_nat c)%Z ∧
    ((∀ a, sltb a a = false) →
     (∀ a b c, sltb a b = true → sltb b c = true → sltb a c = true) →
     ∀ k, k < c → sltb (elem t [i; Z.to_nat z]) (elem t [i; k]) = false)).
  { intros i Hi. destruct (argmax_row_spec (slab t i)) as (z & Hz & Hr & Hmax).
    { intros Hnil. specialize (Hrow i Hi). rewrite Hnil in Hrow. simpl in Hrow. lia. }
    rewrite Hrow in Hr by done. exists z. split; [done|]. split; [done|].
    intros Hirr Htr k Hk. destruct (Hmax Hirr Htr) as (v & Hv & Hall).
    rewrite (slab_row t b c i) in Hv, Hall by done.
    rewrite lookup_tabulate in Hv by lia. injection Hv as <-.
    apply (Forall_lookup_1 _ _ k (elem t [i; k])) in Hall; [done|].
    by rewrite lookup_tabulate. }
  clear Hrow.
  assert (Hgen : ∀ n s, s + n ≤ b →
    ∃ am, traverse (λ i, argmax_row (slab t i)) (seq s n) = Ok am ∧
      length am = n ∧ Forall (λ l, 0 ≤ l < Z.of_nat c)%Z am ∧
      ((∀ a, sltb a a = false) →
       (∀ a b c, sltb a b = true → sltb b c = true → sltb a c = true) →
       ∀ i l k, am !! i = Some l → k < c →
         sltb (elem t [s + i; Z.to_nat l]) (elem t [s + i; k]) = false)).
  { induction n as [|n IH]; intros s Hs; simpl.
    - exists []. split; [done|]. split; [done|]. split; [constructor|].
      intros _ _ i l k Hi. done.
    - destruct (Hsome s) as (z & -> & Hz & Hmax); [lia|]. simpl.
      destruct (IH (S s)) as (am & -> & Hlen & Hr & Hmax'); [lia|]. simpl.
      exists (z :: am). split; [done|]. split; [simpl; lia|].
      split; [by constructor|].
      intros Hirr Htr i l k Hi Hk. destruct i as [|i]; simpl in Hi.
      + injection Hi as <-. rewrite Nat.add_0_r. by apply Hmax.
      + replace (s + S i) with (S s + i) by lia. by apply Hmax'. }
  destruct (Hgen b 0) as (am & Ham & ?); [lia|]. exists am. done.
Qed.

End Argmax.

(** ** Factories and checkpoint loading *)

Section FactoryLemmas.
Context {V : Type}.

Lemma load_pretrained_fetch (w : world V) model wsol_method architecture path kwargs tr :
  load_pretrained w model wsol_method architecture path kwargs tr =
  match fetch_state_dict w wsol_method architecture path tr with
  | (Ok sd, tr') =>
      match lenient_condition wsol_method path kwargs with
      | Ok lenient =>
          let sd' := if lenient then remove_layer sd "fc" else sd in
          (load_state_dict model sd' (negb lenient),
           tr' ++ [ELoadStateDict (model_cls model) (dom sd') (negb lenient)])
      | Raise e => (Raise e, tr')
      end
  | (Raise e, tr') => (Raise e, tr')
  end.
Proof.
  unfold load_pretrained, fetch_state_dict.
  set (loader := if truthy path then _ else _).
  unfold mbind, M_bind, lift.
  destruct (loader tr) as [[sd0|e] tr0]; [|done].
  destruct (decide (wsol_method = "adl"));
    [destruct (align_layer sd0); [|done]
    |destruct (decide (wsol_method = "spg"));
       [destruct (batch_replace_layer w sd0); [|done]|]];
    destruct (lenient_condition _ _ _) as [[]|]; done.
Qed.

Lemma lenient_condition_spec wsol_method path (kwargs : gmap string pyval) :
  (path = None → is_Some (kwargs !! "dataset_name")) →
  ∃ lenient : bool,
    lenient_condition wsol_method path kwargs = Ok lenient ∧
    (lenient = true ↔
       path = None ∧
       (kwargs !! "dataset_name" ≠ Some (PStr "ILSVRC")
        ∨ wsol_method = "acol" ∨ wsol_method = "spg")).
Proof.
  intros Hds. unfold lenient_condition. destruct path as [p|].
  - exists false. split; [done|]. split; [done|]. by intros [? _].
  - destruct (Hds eq_refl) as [ds Hd]. unfold lookup_or_KeyError. rewrite Hd. simpl.
    eexists. split; [done|].
    rewrite orb_true_iff, !bool_decide_eq_true.
    rewrite !elem_of_cons, elem_of_nil. split.
    + intros [Hne|[?|[?|[]]]]; (split; [done|]); auto. left. congruence.
    + intros [_ [Hne|[?|?]]]; auto. left. congruence.
Qed.

Lemma load_state_dict_lenient (model : nn_model V) sd :
  ∃ m', load_state_dict model sd false = Ok m'.
Proof. unfold load_state_dict. simpl. eauto. Qed.

Lemma load_state_dict_strict_mismatch (model : nn_model V) sd :
  dom sd ≠ dom (params model) →
  load_state_dict model sd true =
    Raise (StateDictError (dom (params model) ∖ dom sd) (dom sd ∖ dom (params model))).
Proof.
  intros Hne. unfold load_state_dict. simpl.
  rewrite bool_decide_eq_true_2; [done|].
  intros Hempty. apply Hne. apply set_eq. intros k.
  assert (Hk : k ∉ dom (params model) ∖ dom sd ∪ dom sd ∖ dom (params model)).
  { rewrite Hempty. apply not_elem_of_empty. }
  rewrite elem_of_union, !elem_of_difference in Hk.
  destruct (decide (k ∈ dom sd)), (decide (k ∈ dom (params model))); tauto.
Qed.

Lemma load_state_dict_strict_match (model : nn_model V) sd :
  dom sd = dom (params model) → ∃ m', load_state_dict model sd true = Ok m'.
Proof.
  intros Heq. unfold load_state_dict. simpl.
  rewrite bool_decide_eq_false_2; [eauto|].
  intros Hne. apply Hne. rewrite Heq.
  apply set_eq. intros k.
  rewrite elem_of_union, !elem_of_difference, elem_of_empty. tauto.
Qed.

Lemma dom_remove_layer (sd : gmap string V) keyword k :
  k ∈ dom (remove_layer sd keyword) ↔ k ∈ dom sd ∧ contains keyword k = false.
Proof.
  unfold remove_layer. rewrite !elem_of_dom. unfold is_Some. split.
  - intros [v Hv]. apply map_lookup_filter_Some in Hv as [Hv Hc]. eauto.
  - intros [[v Hv] Hc]. exists v. by apply map_lookup_filter_Some.
Qed.

End FactoryLemmas.

(** ** Keys of the state dict *)

Lemma join_split_go c s h t :
  split_go c s = (h, t) → join (String c EmptyString) (h :: t) = s.
Proof.
  revert h t. induction s as [|a s IH]; intros h t; simpl.
  - by intros [= <- <-].
  - destruct (split_go c s) as [h' t'] eqn:E. specialize (IH h' t' eq_refl).
    case_decide as Hac.
    + intros [= <- <-]. subst a. simpl in *. by rewrite IH.
    + intros [= <- <-]. unfold join in *. simpl in *.
      destruct t' as [|x t']; simpl in *; by rewrite <- IH.
Qed.

Lemma contains_false_prefix sub s :
  contains sub s = false → String.prefix sub s = false.
Proof. destruct s; simpl; by intros [? ?]%orb_false_iff. Qed.

Lemma align_key_no_layer key : contains "layer" key = false → align_key key = Ok None.
Proof. intros Hc. unfold align_key. by rewrite Hc. Qed.

Lemma split_go_app c s1 s2 h t :
  has_char c s1 = false → split_go c s2 = (h, t) →
  split_go c (s1 +:+ String c s2) = (s1, h :: t).
Proof.
  intros Hno Hs2. induction s1 as [|a s1 IH]; simpl in *.
  - rewrite Hs2. by rewrite decide_True.
  - apply orb_false_iff in Hno as [Ha Hno]. apply bool_decide_eq_false in Ha.
    rewrite (IH Hno). by rewrite decide_False.
Qed.

Lemma split_two_dots k0 bs rest h t :
  has_char "." k0 = false → has_char "." bs = false →
  split_go "." rest = (h, t) →
  split "." (k0 +:+ "." +:+ bs +:+ "." +:+ rest) = k0 :: bs :: h :: t.
Proof.
  intros Hk Hb Hrest. unfold split.
  change ("." +:+ bs +:+ "." +:+ rest) with (String "." (bs +:+ String "." rest)).
  by rewrite (split_go_app _ _ _ bs (h :: t) Hk (split_go_app _ _ _ h t Hb Hrest)).
Qed.

Lemma prefix_app s1 s2 : String.prefix s1 (s1 +:+ s2) = true.
Proof.
  induction s1 as [|a s1 IH]; simpl; [by destruct s2|].
  by destruct (ascii_dec a a).
Qed.

Lemma prefix_mono sub s1 s2 :
  String.prefix sub s1 = true → String.prefix sub (s1 +:+ s2) = true.
Proof.
  revert s1. induction sub as [|b sub IH]; intros s1.
  - intros _. by destruct (s1 +:+ s2).
  - destruct s1 as [|a s1]; simpl; [done|].
    destruct (ascii_dec b a); [apply IH|done].
Qed.

Lemma contains_app sub s1 s2 : contains sub s1 = true → contains sub (s1 +:+ s2) = true.
Proof.
  induction s1 as [|a s1 IH].
  - cbn [contains]. rewrite orb_false_r. intros Hp.
    apply (prefix_mono sub EmptyString s2) in Hp.
    change (EmptyString +:+ s2) with s2 in *.
    destruct s2; cbn [contains]; rewrite Hp; done.
  - intros [Hp|Hc]%orb_true_iff.
    + apply (prefix_mono sub _ s2) in Hp.
      change (String a s1 +:+ s2) with (String a (s1 +:+ s2)) in *.
      cbn [contains]. by rewrite Hp.
    + change (String a s1 +:+ s2) with (String a (s1 +:+ s2)).
      cbn [contains]. rewrite (IH Hc). apply orb_true_r.
Qed.

Lemma list_getitem_0 {A} (x : A) l : list_getitem (x :: l) 0 = Ok x.
Proof. unfold list_getitem. rewrite norm_index_nonneg by (simpl; lia). done. Qed.

Lemma list_getitem_1 {A} (x y : A) l : list_getitem (x :: y :: l) 1 = Ok y.
Proof. unfold list_getitem. rewrite norm_index_nonneg by (simpl; lia). done. Qed.

Lemma count_moves (positions : list Z) bs b :
  py_int bs = Ok b →
  foldl (λ (acc : result Z) (pos : Z),
           acc ≫= λ move, py_int bs ≫= λ b,
             Ok (if decide (pos < b)%Z then (move + 1)%Z else move))
        (Ok 0%Z) (reverse positions)
  = Ok (Z.of_nat (length (filter (λ pos, pos < b)%Z positions))).
Proof.
  intros Hb. rewrite <- (reverse_involutive positions) at 2.
  generalize (reverse positions). clear positions. intros l.
  induction l as [|pos l IH] using rev_ind; [done|].
  rewrite foldl_app. simpl. rewrite IH. simpl. rewrite Hb. simpl.
  rewrite reverse_app. simpl. rewrite filter_cons.
  case_decide; simpl; f_equal; lia.
Qed.

Lemma join_cons2 sep x y l : join sep (x :: y :: l) = x +:+ sep +:+ join sep (y :: l).
Proof. done. Qed.

(** [align_key] from the pieces of the key. *)
Lemma align_key_pieces key k0 bs tl ch l positions b :
  contains "layer" key = true →
  split "." key = k0 :: bs :: tl →
  last_char k0 = Ok ch →
  py_int (String ch EmptyString) = Ok l →
  list_getitem _ADL_POSITION l = Ok positions →
  py_int bs = Ok b →
  align_key key =
    Ok (if decide (positions = []) then None
        else Some (join "." (k0 ::
               py_str (b + Z.of_nat (length (filter (λ pos, pos < b)%Z positions)))
               :: tl))).
Proof.
  intros Hc Hsp Hch Hl Hpos Hb. unfold align_key.
  rewrite Hc, Hsp. simpl negb. cbv iota.
  rewrite list_getitem_0. simpl. rewrite Hch. simpl. rewrite Hl. simpl.
  rewrite list_getitem_1. simpl. rewrite Hpos. simpl.
  case_decide; [done|].
  rewrite (count_moves positions bs b Hb). simpl. by rewrite Hb.
Qed.

(** A key of the form 'layer{l}.{b}.{rest}' with single digits [l <= 4] and
    [b]: the block index is moved by the number of ADL positions below it. *)
Lemma align_key_layer_key_nat l n rest :
  l ≤ 4 → n ≤ 9 →
  align_key (layer_key l (Z.of_nat n) rest) =
    Ok (if decide (default [] (_ADL_POSITION !! l) = []) then None
        else Some (layer_key l (Z.of_nat n + adl_shift l (Z.of_nat n)) rest)).
Proof.
  intros Hl Hn.
  destruct (split_go "." rest) as [h t] eqn:Hsplit.
  pose proof (join_split_go _ _ _ _ Hsplit) as Hjoin.
  change (String "." EmptyString) with "." in Hjoin.
  assert (Hc : contains "layer" (layer_key l (Z.of_nat n) rest) = true).
  { unfold layer_key. apply contains_app, contains_app. reflexivity. }
  destruct l as [|[|[|[|[|l]]]]]; [| | | | |lia];
  destruct n as [|[|[|[|[|[|[|[|[|[|n]]]]]]]]]]; try lia;
    (erewrite align_key_pieces;
       [ | exact Hc
         | unfold layer_key; apply split_two_dots; [reflexivity | reflexivity | exact Hsplit]
         | reflexivity | reflexivity | reflexivity | reflexivity ];
     simpl decide; cbv iota; [try reflexivity];
     rewrite !join_cons2, Hjoin; reflexivity).
Qed.

Lemma align_key_layer_key l b rest :
  l ≤ 4 → (0 ≤ b ≤ 9)%Z →
  align_key (layer_key l b rest) =
    Ok (if decide (default [] (_ADL_POSITION !! l) = []) then None
        else Some (layer_key l (b + adl_shift l b) rest)).
Proof.
  intros Hl Hb. rewrite <- (Z2Nat.id b) by lia.
  apply align_key_layer_key_nat; [done|lia].
Qed.

(** ** The loop of [align_layer] *)

Section AlignFold.
Context {V : Type}.

Lemma align_step_rename (f : string → string) (d : gmap string V) k v :
  d !! k = Some v →
  (align_key k = Ok None ∧ f k = k) ∨ align_key k = Ok (Some (f k)) →
  align_step d k = Ok (<[f k := v]> (delete k d)).
Proof.
  intros Hk [[Hn Hf]|Hs]; unfold align_step, dict_pop.
  - rewrite Hn, Hf. simpl. by rewrite insert_delete_id.
  - rewrite Hs. simpl. by rewrite Hk.
Qed.

Lemma align_fold (f : string → string) (ks : list string) (d : gmap string V) :
  (∀ k, k ∈ ks → is_Some (d !! k)) →
  (∀ k, k ∈ ks →
     (align_key k = Ok None ∧ f k = k) ∨ align_key k = Ok (Some (f k))) →
  NoDup ks →
  StronglySorted (flip String.le) ks →
  (∀ k, k ∈ ks → String.le k (f k)) →
  (∀ k1 k2, k1 ∈ ks → k2 ∈ ks → f k1 = f k2 → k1 = k2) →
  ∃ d', foldl (λ acc key, acc ≫= λ d, align_step d key) (Ok d) ks = Ok d' ∧
    (∀ k, k ∈ ks → d' !! f k = d !! k) ∧
    (∀ k', (∀ k, k ∈ ks → k' ≠ f k) →
       d' !! k' = if decide (k' ∈ ks) then None else d !! k').
Proof.
  revert d. induction ks as [|k ks IH]; intros d Hdom Hkey Hnd Hsorted Hmono Hinj.
  - exists d. split; [done|]. split; [by intros k ?%elem_of_nil|].
    intros k' _. rewrite decide_False; [done|]. apply not_elem_of_nil.
  - apply NoDup_cons in Hnd as [Hk_notin Hnd].
    apply StronglySorted_inv in Hsorted as [Hsorted Hall].
    destruct (Hdom k) as [v Hv]; [left|].
    assert (Hfk_notin : f k ∉ ks).
    { intros Hin. rewrite Forall_forall in Hall. specialize (Hall _ Hin).
      unfold flip in Hall.
      assert (f k = k); [|congruence].
      apply (anti_symm String.le); [done|]. apply Hmono. left. }
    assert (Hfk_ne : ∀ k2, k2 ∈ ks → f k ≠ f k2).
    { intros k2 Hin Heq. apply Hinj in Heq; [|left|by right]. congruence. }
    simpl. rewrite (align_step_rename f d k v Hv) by (apply Hkey; left).
    set (d1 := <[f k := v]> (delete k d)).
    assert (Hd1 : ∀ k2, k2 ∈ ks → d1 !! k2 = d !! k2).
    { intros k2 Hin. unfold d1.
      rewrite lookup_insert_ne by congruence.
      rewrite lookup_delete_ne by congruence. done. }
    destruct (IH d1) as (d' & Hfold & Ha & Hb).
    { intros k2 Hin. rewrite Hd1 by done. apply Hdom. by right. }
    { intros k2 Hin. apply Hkey. by right. }
    { done. }
    { done. }
    { intros k2 Hin. apply Hmono. by right. }
    { intros k1 k2 H1 H2. apply Hinj; by right. }
    exists d'. split; [done|]. split.
    + intros k2 [->|Hin]%elem_of_cons.
      * rewrite Hb by (intros k3 Hin3; by apply Hfk_ne).
        rewrite decide_False by done. unfold d1. by rewrite lookup_insert_eq.
      * rewrite Ha by done. by apply Hd1.
    + intros k' Hk'.
      rewrite Hb by (intros k2 Hin; apply Hk'; by right).
      assert (k' ≠ f k) by (apply Hk'; left).
      destruct (decide (k' ∈ ks)) as [Hin|Hnin].
      * rewrite decide_True; [done|by right].
      * unfold d1. rewrite lookup_insert_ne by done.
        destruct (decide (k' = k)) as [->|Hne].
        -- rewrite lookup_delete_eq. rewrite decide_True; [done|left].
        -- rewrite lookup_delete_ne by done.
           rewrite decide_False; [done|].
           rewrite not_elem_of_cons. done.
Qed.

Lemma elem_of_sorted_keys (d : gmap string V) k :
  k ∈ reverse (sorted_keys d) ↔ is_Some (d !! k).
Proof.
  unfold sorted_keys. rewrite elem_of_reverse, merge_sort_Permutation.
  rewrite list_elem_of_fmap. split.
  - intros [[k' v] [-> Hin]]. apply elem_of_map_to_list in Hin. simpl. eauto.
  - intros [v Hv]. exists (k, v). split; [done|]. by apply elem_of_map_to_list.
Qed.

Lemma NoDup_sorted_keys (d : gmap string V) : NoDup (reverse (sorted_keys d)).
Proof.
  unfold sorted_keys.
  rewrite reverse_Permutation, merge_sort_Permutation. apply NoDup_fst_map_to_list.
Qed.

Lemma sorted_keys_descending (d : gmap string V) :
  StronglySorted (flip String.le) (reverse (sorted_keys d)).
Proof.
  apply Sorted_StronglySorted; [apply _|].
  apply Sorted_reverse. unfold sorted_keys. apply Sorted_merge_sort; apply _.
Qed.

(** When no renamed key can land on a key that is still to be visited,
    [align_layer] moves every entry to its aligned key and does nothing
    else. *)
Lemma align_layer_rename (d : gmap string V) :
  (∀ k, is_Some (d !! k) →
     ((align_key k = Ok None ∧ aligned_key k = k)
      ∨ align_key k = Ok (Some (aligned_key k)))
     ∧ String.le k (aligned_key k)) →
  (∀ k1 k2, is_Some (d !! k1) → is_Some (d !! k2) →
     aligned_key k1 = aligned_key k2 → k1 = k2) →
  ∃ d', align_layer d = Ok d' ∧
    (∀ k, is_Some (d !! k) → d' !! aligned_key k = d !! k) ∧
    (∀ k' v, d' !! k' = Some v →
       ∃ k, k' = aligned_key k ∧ d !! k = Some v).
Proof.
  intros Hkeys Hinj. unfold align_layer.
  destruct (align_fold aligned_key (reverse (sorted_keys d)) d)
    as (d' & Hfold & Ha & Hb).
  - intros k. by rewrite elem_of_sorted_keys.
  - intros k Hin%elem_of_sorted_keys. by apply Hkeys.
  - apply NoDup_sorted_keys.
  - apply sorted_keys_descending.
  - intros k Hin%elem_of_sorted_keys. by apply Hkeys.
  - intros k1 k2 H1%elem_of_sorted_keys H2%elem_of_sorted_keys. by apply Hinj.
  - exists d'. split; [done|]. split.
    + intros k Hk. apply Ha. by apply elem_of_sorted_keys.
    + intros k' v Hv.
      destruct (decide (Exists (λ k, k' = aligned_key k) (reverse (sorted_keys d))))
        as [Hex|Hnex].
      * apply Exists_exists in Hex as (k & Hin & ->).
        exists k. split; [done|]. rewrite <- Ha; done.
      * rewrite Hb in Hv.
        2:{ intros k Hin Heq. apply Hnex. apply Exists_exists. eauto. }
        case_decide as Hin; [done|].
        exfalso. apply Hin. apply elem_of_sorted_keys. eauto.
Qed.

End AlignFold.

(** ** Keys of the residual blocks *)

Lemma compare_app_prefix p s1 s2 :
  String.compare (p +:+ s1) (p +:+ s2) = String.compare s1 s2.
Proof.
  induction p as [|a p IH]; simpl; [done|].
  unfold Ascii.compare. by rewrite N.compare_refl.
Qed.

Lemma le_app_prefix p s1 s2 : String.le s1 s2 → String.le (p +:+ s1) (p +:+ s2).
Proof. unfold String.le, String.leb. by rewrite compare_app_prefix. Qed.

Lemma adl_shift_mono l b1 b2 : (b1 ≤ b2)%Z → (adl_shift l b1 ≤ adl_shift l b2)%Z.
Proof.
  intros Hb. unfold adl_shift. generalize (default [] (_ADL_POSITION !! l)).
  intros ps. apply inj_le.
  induction ps as [|p ps IH]; [done|].
  rewrite !filter_cons. repeat case_decide; simpl; lia.
Qed.

Lemma adl_shift_nonneg l b : (0 ≤ adl_shift l b)%Z.
Proof. unfold adl_shift. lia. Qed.

Lemma adl_shift_inj l b1 b2 :
  (b1 + adl_shift l b1 = b2 + adl_shift l b2)%Z → b1 = b2.
Proof.
  intros Heq.
  destruct (Z.lt_total b1 b2) as [Hlt|[->|Hlt]]; [|done|].
  - pose proof (adl_shift_mono l b1 b2). lia.
  - pose proof (adl_shift_mono l b2 b1). lia.
Qed.

Lemma adl_shift_no_positions l b :
  default [] (_ADL_POSITION !! l) = [] → adl_shift l b = 0%Z.
Proof. unfold adl_shift. by intros ->. Qed.

Lemma layer_key_le l b b' rest :
  (0 ≤ b)%Z → (b ≤ b')%Z → (b' ≤ 9)%Z →
  String.le (layer_key l b rest) (layer_key l b' rest).
Proof.
  intros H0 Hb H9. unfold layer_key.
  apply le_app_prefix.
  change ("." +:+ py_str b +:+ "." +:+ rest) with (String "." (py_str b +:+ "." +:+ rest)).
  change ("." +:+ py_str b' +:+ "." +:+ rest) with (String "." (py_str b' +:+ "." +:+ rest)).
  apply (le_app_prefix ".").
  destruct (decide (b = b')) as [->|Hne]; [done|].
  rewrite <- (Z2Nat.id b), <- (Z2Nat.id b') by lia.
  assert (Hlt : Z.to_nat b < Z.to_nat b') by lia.
  assert (H9' : Z.to_nat b' ≤ 9) by lia.
  revert Hlt H9'. generalize (Z.to_nat b) (Z.to_nat b'). clear. intros n n' Hlt H9.
  do 10 (destruct n as [|n]; [do 10 (destruct n' as [|n']; [try lia; try exact I|]); lia|]).
  lia.
Qed.

Lemma split_layer_key l b rest h t :
  l ≤ 4 → (0 ≤ b ≤ 9)%Z → split_go "." rest = (h, t) →
  split "." (layer_key l b rest) = ("layer" +:+ py_str (Z.of_nat l)) :: py_str b :: h :: t.
Proof.
  intros Hl Hb Hsplit. unfold layer_key. apply split_two_dots; [| |done].
  - destruct l as [|[|[|[|[|l]]]]]; [done..|lia].
  - rewrite <- (Z2Nat.id b) by lia.
    assert (Hn : Z.to_nat b ≤ 9) by lia. revert Hn. generalize (Z.to_nat b).
    intros n Hn. do 10 (destruct n as [|n]; [done|]). lia.
Qed.

Lemma py_str_digit_inj (n m : nat) :
  n ≤ 9 → m ≤ 9 → py_str (Z.of_nat n) = py_str (Z.of_nat m) → n = m.
Proof.
  intros Hn Hm.
  do 10 (destruct n as [|n]; [do 10 (destruct m as [|m]; [done|]); lia|]). lia.
Qed.

Lemma layer_key_inj l1 b1 rest1 l2 b2 rest2 :
  l1 ≤ 4 → l2 ≤ 4 → (0 ≤ b1 ≤ 9)%Z → (0 ≤ b2 ≤ 9)%Z →
  layer_key l1 b1 rest1 = layer_key l2 b2 rest2 →
  l1 = l2 ∧ b1 = b2 ∧ rest1 = rest2.
Proof.
  intros Hl1 Hl2 Hb1 Hb2 Heq.
  destruct (split_go "." rest1) as [h1 t1] eqn:Hs1.
  destruct (split_go "." rest2) as [h2 t2] eqn:Hs2.
  apply (f_equal (split ".")) in Heq.
  rewrite (split_layer_key l1 b1 rest1 h1 t1), (split_layer_key l2 b2 rest2 h2 t2)
    in Heq by done.
  injection Heq as Hk Hb Hh Ht. subst h2 t2.
  split; [|split].
  - apply (py_str_digit_inj l1 l2); [lia..|].
    exact Hk.
  - rewrite <- (Z2Nat.id b1), <- (Z2Nat.id b2) in * by lia. f_equal.
    apply py_str_digit_inj; [lia..|done].
  - rewrite <- (join_split_go _ _ _ _ Hs1), <- (join_split_go _ _ _ _ Hs2). done.
Qed.

Lemma contains_layer_key l b rest : contains "layer" (layer_key l b rest) = true.
Proof. unfold layer_key. by apply contains_app, contains_app. Qed.

Lemma aligned_key_no_layer key :
  contains "layer" key = false → align_key key = Ok None ∧ aligned_key key = key.
Proof.
  intros Hc. unfold aligned_key. by rewrite (align_key_no_layer key Hc).
Qed.

Lemma aligned_key_layer_key l b rest :
  l ≤ 4 → (0 ≤ b ≤ 9)%Z →
  aligned_key (layer_key l b rest) = layer_key l (b + adl_shift l b) rest ∧
  ((align_key (layer_key l b rest) = Ok None ∧
    aligned_key (layer_key l b rest) = layer_key l b rest)
   ∨ align_key (layer_key l b rest) = Ok (Some (aligned_key (layer_key l b rest)))).
Proof.
  intros Hl Hb. unfold aligned_key. rewrite (align_key_layer_key l b rest Hl Hb).
  case_decide as Hpos.
  - rewrite (adl_shift_no_positions l b Hpos), Z.add_0_r. auto.
  - auto.
Qed.

Lemma backbone_key_bounds k :
  backbone_key k →
  ∃ l b rest, l ≤ 4 ∧ (0 ≤ b ≤ 9)%Z ∧ (b + adl_shift l b ≤ 9)%Z ∧ k = layer_key l b rest.
Proof.
  intros (l & b & rest & Hl & Hb & Hs & ->). exists l, b, rest.
  pose proof (adl_shift_nonneg l b). repeat split; auto; lia.
Qed.

Lemma backbone_align_layer {V} (d : gmap string V) :
  backbone_state_dict d →
  ∃ d', align_layer d = Ok d' ∧
    (∀ k, is_Some (d !! k) → d' !! aligned_key k = d !! k) ∧
    (∀ k' v, d' !! k' = Some v → ∃ k, k' = aligned_key k ∧ d !! k = Some v).
Proof.
  intros Hd. apply align_layer_rename.
  - intros k Hk. destruct (Hd k Hk) as [Hno|Hbk].
    + destruct (aligned_key_no_layer k Hno) as [Ha Hid]. split; [by left|].
      by rewrite Hid.
    + apply backbone_key_bounds in Hbk as (l & b & rest & Hl & Hb & Hs & ->).
      destruct (aligned_key_layer_key l b rest Hl Hb) as [Ha Hcases].
      split; [done|]. rewrite Ha.
      pose proof (adl_shift_nonneg l b). apply layer_key_le; lia.
  - intros k1 k2 Hk1 Hk2 Heq.
    destruct (Hd k1 Hk1) as [Hno1|Hb1], (Hd k2 Hk2) as [Hno2|Hb2].
    + destruct (aligned_key_no_layer k1 Hno1) as [_ H1].
      destruct (aligned_key_no_layer k2 Hno2) as [_ H2]. congruence.
    + apply backbone_key_bounds in Hb2 as (l & b & rest & Hl & Hb & Hs & ->).
      destruct (aligned_key_no_layer k1 Hno1) as [_ H1].
      destruct (aligned_key_layer_key l b rest Hl Hb) as [H2 _].
      rewrite H1, H2 in Heq. rewrite Heq, contains_layer_key in Hno1. done.
    + apply backbone_key_bounds in Hb1 as (l & b & rest & Hl & Hb & Hs & ->).
      destruct (aligned_key_no_layer k2 Hno2) as [_ H2].
      destruct (aligned_key_layer_key l b rest Hl Hb) as [H1 _].
      rewrite H1, H2 in Heq. rewrite <- Heq, contains_layer_key in Hno2. done.
    + apply backbone_key_bounds in Hb1 as (l1 & b1 & rest1 & Hl1 & Hb1 & Hs1 & ->).
      apply backbone_key_bounds in Hb2 as (l2 & b2 & rest2 & Hl2 & Hb2 & Hs2 & ->).
      destruct (aligned_key_layer_key l1 b1 rest1 Hl1 Hb1) as [H1 _].
      destruct (aligned_key_layer_key l2 b2 rest2 Hl2 Hb2) as [H2 _].
      rewrite H1, H2 in Heq.
      pose proof (adl_shift_nonneg l1 b1). pose proof (adl_shift_nonneg l2 b2).
      apply layer_key_inj in Heq as (-> & Hbb & ->); [|lia..].
      apply adl_shift_inj in Hbb as ->. done.
Qed.

(** ** The layers of ResNetAdl *)

Lemma lookup_list_insert_at_lt {A} i (x : A) l j :
  j < i → j < length l → list_insert_at i x l !! j = l !! j.
Proof.
  intros Hi Hj. unfold list_insert_at.
  rewrite lookup_app_l by (rewrite length_take; lia).
  by rewrite lookup_take_lt.
Qed.

Lemma lookup_list_insert_at_ge {A} i (x : A) l j :
  i ≤ j → i ≤ length l → list_insert_at i x l !! S j = l !! j.
Proof.
  intros Hi Hl. unfold list_insert_at.
  rewrite lookup_app_r by (rewrite length_take; lia).
  rewrite length_take. replace (S j - i `min` length l) with (S (j - i)) by lia.
  simpl. rewrite lookup_drop. f_equal. lia.
Qed.

Lemma length_list_insert_at {A} i (x : A) l :
  length (list_insert_at i x l) = S (length l).
Proof.
  unfold list_insert_at. rewrite length_app. simpl.
  rewrite length_take, length_drop. lia.
Qed.

Lemma lookup_layer blocks k : k < blocks → _layer blocks !! k = Some (Block k).
Proof.
  intros Hk. unfold _layer. destruct k as [|k]; [done|]. simpl.
  rewrite list_lookup_fmap, lookup_seq_lt by lia. done.
Qed.

Lemma length_layer blocks : 0 < blocks → length (_layer blocks) = blocks.
Proof. intros. unfold _layer. simpl. rewrite length_fmap, length_seq. lia. Qed.

(** Block [k] of a layer sits [adl_shift] places further in the layer that
    [_make_layer] builds. *)
Lemma make_layer_block l blocks k :
  l ≤ 4 → k < blocks →
  _make_layer blocks (default [] (_ADL_POSITION !! l))
    !! (k + Z.to_nat (adl_shift l (Z.of_nat k))) = Some (Block k).
Proof.
  intros Hl Hk.
  pose proof (lookup_layer blocks k Hk) as Hlk.
  pose proof (length_layer blocks ltac:(lia)) as Hlen.
  unfold _make_layer, adl_shift.
  destruct l as [|[|[|[|[|l]]]]]; [..|lia].
  - change (default [] (_ADL_POSITION !! 0)) with ([] : list Z).
    simpl. by rewrite Nat.add_0_r.
  - change (default [] (_ADL_POSITION !! 1)) with ([] : list Z).
    simpl. by rewrite Nat.add_0_r.
  - change (default [] (_ADL_POSITION !! 2)) with ([] : list Z).
    simpl. by rewrite Nat.add_0_r.
  - change (default [] (_ADL_POSITION !! 3)) with [0%Z].
    change (reverse [0%Z]) with [0%Z]. cbn [foldl].
    change (Z.to_nat (0 + 1)) with 1.
    rewrite filter_cons, filter_nil.
    case_decide; cbn [length]; rewrite Nat2Z.id.
    + replace (k + 1) with (S k) by lia.
      rewrite lookup_list_insert_at_ge by lia. done.
    + rewrite Nat.add_0_r. rewrite lookup_list_insert_at_lt by lia. done.
  - change (default [] (_ADL_POSITION !! 4)) with [0%Z; 2%Z].
    change (reverse [0%Z; 2%Z]) with [2%Z; 0%Z]. cbn [foldl].
    change (Z.to_nat (0 + 1)) with 1. change (Z.to_nat (2 + 1)) with 3.
    rewrite !filter_cons, filter_nil.
    repeat case_decide; cbn [length]; rewrite Nat2Z.id; try lia.
    + replace (k + 2) with (S (S k)) by lia.
      rewrite lookup_list_insert_at_ge by (rewrite ?length_list_insert_at; lia).
      rewrite lookup_list_insert_at_ge by lia. done.
    + replace (k + 1) with (S k) by lia.
      rewrite lookup_list_insert_at_ge by (rewrite ?length_list_insert_at; lia).
      rewrite lookup_list_insert_at_lt by lia. done.
    + rewrite Nat.add_0_r.
      rewrite lookup_list_insert_at_lt by (rewrite ?length_list_insert_at; lia).
      rewrite lookup_list_insert_at_lt by lia. done.
Qed.

(** ** The multi-label CAM computation, step by step *)

Lemma lookup_join_replicate {A} (l : list A) r j q :
  j < r → q < length l → mjoin (replicate r l) !! (j * length l + q) = l !! q.
Proof.
  revert j. induction r as [|r IH]; intros j Hj Hq; [lia|].
  simpl. destruct j as [|j]; simpl.
  - by rewrite lookup_app_l.
  - rewrite lookup_app_r by lia. rewrite <- (IH j) by lia. f_equal. lia.
Qed.

Lemma length_join_replicate {A} (l : list A) r :
  length (mjoin (replicate r l)) = r * length l.
Proof. induction r as [|r IH]; simpl; [done|]. rewrite length_app, IH. lia. Qed.

Lemma view_shape_infer n pre post q :
  numel pre * numel post ≠ 0 → n = numel pre * q * numel post →
  view_shape n ((Some <$> pre) ++ None :: (Some <$> post)) = Ok (pre ++ q :: post).
Proof.
  intros Hp Hn. unfold view_shape.
  assert (Homap : omap id ((Some <$> pre) ++ None :: (Some <$> post)) = pre ++ post).
  { rewrite omap_app. simpl. f_equal.
    - clear. induction pre; simpl; f_equal; auto.
    - clear. induction post; simpl; f_equal; auto. }
  rewrite Homap.
  assert (Hnumel : numel (pre ++ post) = numel pre * numel post).
  { clear. induction pre as [|a pre IH]; simpl; [lia|].
    fold (numel (pre ++ post)). fold (numel pre). rewrite IH. lia. }
  rewrite Hnumel.
  rewrite !length_app. simpl. rewrite !length_fmap.
  replace (length pre + S (length post) - (length pre + length post)) with 1 by lia.
  rewrite decide_True.
  2:{ split; [done|]. subst n.
      replace (numel pre * q * numel post) with (q * (numel pre * numel post)) by lia.
      by apply Nat.Div0.mod_mul. }
  f_equal. rewrite fmap_app. simpl. f_equal.
  - generalize (n `div` (numel pre * numel post)). clear. intros d.
    induction pre; simpl; f_equal; auto.
  - f_equal.
    + subst n.
      replace (numel pre * q * numel post) with (q * (numel pre * numel post)) by lia.
      by apply Nat.div_mul.
    + generalize (n `div` (numel pre * numel post)). clear. intros d.
      induction post; simpl; f_equal; auto.
Qed.

Section MultiLabel.
Context {T : Type} `{Scalar T}.

Lemma view_infer (t : tensor T) pre post q :
  numel pre * numel post ≠ 0 → length (data t) = numel pre * q * numel post →
  view t ((Some <$> pre) ++ None :: (Some <$> post))
    = Ok (Tensor (pre ++ q :: post) (data t)).
Proof. intros Hp Hn. unfold view. by rewrite (view_shape_infer _ pre post q). Qed.

Lemma elem_matrix (t : tensor T) n c i q :
  shape t = [n; c] → i < n → q < c →
  elem t [i; q] = default s0 (data t !! (i * c + q)).
Proof.
  intros Hsh Hi Hq. rewrite elem_lookup by (rewrite Hsh; repeat constructor; done).
  rewrite Hsh. simpl. do 2 f_equal. lia.
Qed.

Lemma repeat_interleave_spec (m : tensor T) b c r :
  shape m = [b; c] → wf m →
  ∃ t, repeat_interleave m r = Ok t ∧ shape t = [b * r; c] ∧
    length (data t) = b * r * c ∧
    ∀ i j q, i < b → j < r → q < c →
      data t !! ((i * r + j) * c + q) = data m !! (i * c + q).
Proof.
  intros Hsh Hwf. unfold repeat_interleave. rewrite Hsh.
  eexists. split; [done|]. split; [done|]. simpl.
  assert (Hslab : ∀ i, i < b → length (slab m i) = c).
  { intros i Hi. rewrite (length_slab m b [c]); simpl; auto. lia. }
  assert (Hchunks : Forall (λ i, length (mjoin (replicate r (slab m i))) = r * c) (seq 0 b)).
  { apply Forall_forall. intros i Hi%elem_of_seq.
    rewrite length_join_replicate, Hslab; lia. }
  split.
  - rewrite (length_bind_chunks _ _ (r * c)) by done. rewrite length_seq. lia.
  - intros i j q Hi Hj Hq.
    replace ((i * r + j) * c + q) with (i * (r * c) + (j * c + q)) by lia.
    rewrite (lookup_bind_chunks _ _ (r * c) i _ i); [|done| |nia].
    2:{ by rewrite lookup_seq_lt. }
    rewrite <- (Hslab i Hi) at 1.
    rewrite lookup_join_replicate by (rewrite ?Hslab; done).
    rewrite lookup_slab by (rewrite Hsh; simpl; lia).
    rewrite Hsh. simpl. f_equal. lia.
Qed.

Lemma repeat_rows_eye_spec b c :
  ∃ t, repeat_rows (eye c : tensor T) b = Ok t ∧ shape t = [b * c; c] ∧
    length (data t) = b * c * c ∧
    ∀ i j q, i < b → j < c → q < c →
      data t !! ((i * c + j) * c + q) = Some (if decide (j = q) then s1 else s0).
Proof.
  unfold repeat_rows, eye. simpl.
  eexists. split; [done|]. split; [done|]. simpl. split.
  - rewrite length_join_replicate, length_tabulate. lia.
  - intros i j q Hi Hj Hq.
    replace ((i * c + j) * c + q) with (i * (c * c) + (j * c + q)) by lia.
    rewrite <- (length_tabulate (λ n, if decide (n `div` c = n `mod` c) then s1 else s0) (c * c)) at 1.
    rewrite lookup_join_replicate by (rewrite ?length_tabulate; nia).
    rewrite lookup_tabulate by nia. f_equal.
    assert (Hdiv : (j * c + q) `div` c = j).
    { rewrite Nat.div_add_l by lia. rewrite (Nat.div_small q c) by done. lia. }
    assert (Hmod : (j * c + q) `mod` c = q).
    { rewrite (Nat.add_comm (j * c) q), Nat.Div0.mod_add. by apply Nat.mod_small. }
    by rewrite Hdiv, Hmod.
Qed.

Lemma foldl_sadd_zeros (a : T) l :
  (∀ x, sadd x s0 = x) → Forall (λ x, x = s0) l → foldl sadd a l = a.
Proof.
  intros Hr Hall. revert a. induction Hall as [|x l -> _ IH]; intros a; simpl; [done|].
  by rewrite Hr.
Qed.

(** A sum in which only the term at [j] may be non-zero. *)
Lemma ssum_single (g : nat → T) c j :
  (∀ x, sadd x s0 = x) → (∀ x, sadd s0 x = x) →
  j < c → (∀ l, l < c → l ≠ j → g l = s0) →
  ssum (tabulate c g) = g j.
Proof.
  intros Hr Hl Hj Hz. unfold ssum, tabulate.
  replace c with (j + (1 + (c - S j))) by lia.
  rewrite !seq_app, !fmap_app, !foldl_app. simpl.
  rewrite (foldl_sadd_zeros s0), Hl, foldl_sadd_zeros; auto.
  - apply Forall_fmap, Forall_forall. intros l Hin%elem_of_seq. simpl.
    apply Hz; lia.
  - apply Forall_fmap, Forall_forall. intros l Hin%elem_of_seq. simpl.
    apply Hz; lia.
Qed.

End MultiLabel.

Lemma flat_index_lt a n k p : a < n → k < p → a * p + k < n * p.
Proof. nia. Qed.

Section MultiLabelCam.
Context {T : Type} `{Scalar T}.

Lemma bzip_spec f (a b : tensor T) sh :
  broadcast_shapes (shape a) (shape b) = Ok sh →
  ∃ t, bzip f a b = Ok t ∧ shape t = sh ∧ wf t ∧
    ∀ idx, in_bounds idx sh → tget t idx = Some (f (bget a idx) (bget b idx)).
Proof.
  intros Hsh. unfold bzip. rewrite Hsh.
  eexists. split; [done|]. split; [done|]. split.
  { unfold wf. simpl. by rewrite length_tabulate. }
  intros idx Hidx.
  by rewrite (tget_tabulate sh (λ idx, f (bget a idx) (bget b idx))).
Qed.

Lemma mean_dim_spec (t : tensor T) d n :
  shape t !! d = Some n →
  ∃ r, mean_dim t d = Ok r ∧ shape r = delete d (shape t) ∧ wf r ∧
    ∀ idx, in_bounds idx (delete d (shape t)) →
      tget r idx = Some (smean (tabulate n (λ k, bget t (take d idx ++ k :: drop d idx)))).
Proof.
  intros Hn. unfold mean_dim. rewrite Hn.
  eexists. split; [done|]. split; [done|]. split.
  { unfold wf. simpl. by rewrite length_tabulate. }
  intros idx Hidx.
  by rewrite (tget_tabulate _
    (λ idx, smean (tabulate n (λ k, bget t (take d idx ++ k :: drop d idx))))).
Qed.

Lemma matmul_spec (a w : tensor T) b n m p :
  shape a = [b; n; m] → shape w = [m; p] →
  ∃ t, matmul a w = Ok t ∧ shape t = [b; n; p] ∧ length (data t) = b * n * p ∧
    ∀ i j k, i < b → j < n → k < p →
      data t !! ((i * n + j) * p + k) =
        Some (ssum (tabulate m (λ l, smul (bget a [i; j; l]) (bget w [l; k])))).
Proof.
  intros Ha Hw. unfold matmul. rewrite Ha, Hw. rewrite decide_True by done.
  eexists. split; [done|]. split; [done|]. simpl. split.
  - by rewrite length_tabulate.
  - intros i j k Hi Hj Hk.
    pose proof (flat_index_lt i b j n Hi Hj) as Hij.
    pose proof (flat_index_lt j n k p Hj Hk) as Hjk.
    rewrite lookup_tabulate by (by apply flat_index_lt).
    assert (Hi' : ((i * n + j) * p + k) `div` (n * p) = i).
    { replace ((i * n + j) * p + k) with (i * (n * p) + (j * p + k)) by lia.
      rewrite Nat.div_add_l by nia. rewrite Nat.div_small by nia. lia. }
    assert (Hr : ((i * n + j) * p + k) `mod` (n * p) = j * p + k).
    { replace ((i * n + j) * p + k) with ((j * p + k) + i * (n * p)) by lia.
      rewrite Nat.Div0.mod_add. apply Nat.mod_small. nia. }
    assert (Hj' : (j * p + k) `div` p = j).
    { rewrite Nat.div_add_l by lia. rewrite Nat.div_small by done. lia. }
    assert (Hk' : ((i * n + j) * p + k) `mod` p = k).
    { rewrite Nat.add_comm, Nat.Div0.mod_add. by apply Nat.mod_small. }
    by rewrite Hi', Hr, Hj', Hk'.
Qed.

(** What the multi-label branch computes: the map at position [i][j] is
    the channel mean of the feature map of sample [(i * c + j) mod b], each
    channel weighted by [labels[i][j] * W[j][k]]. *)
Lemma cam_multi_label_spec (self : ResNetCam.t T) (fm labels : tensor T)
    (b c ch h w : nat) :
  (∀ x : T, smul x s0 = s0) → (∀ x : T, smul s0 x = s0) →
  (∀ x : T, smul x s1 = x) →
  (∀ x : T, sadd x s0 = x) → (∀ x : T, sadd s0 x = x) →
  shape labels = [b; c] → wf labels → b ≠ 0 → c ≠ 0 →
  shape fm = [b; ch; h; w] → wf fm →
  shape (ResNetCam.fc_weight self) = [c; ch] → wf (ResNetCam.fc_weight self) →
  ∃ cams, ResNetCam.cam_multi_label self fm (LMask labels) = Ok cams ∧
    shape cams = [b; c; h; w] ∧
    ∀ i j y x, i < b → j < c → y < h → x < w →
      tget cams [i; j; y; x] =
        Some (smean (tabulate ch (λ k,
          smul (smul (elem labels [i; j]) (elem (ResNetCam.fc_weight self) [j; k]))
               (elem fm [(i * c + j) `mod` b; k; y; x])))).
Proof.
  intros Hm0r Hm0l Hm1 Ha0r Ha0l Hls Hlwf Hb Hc Hfm Hfwf Hw Hwwf.
  unfold ResNetCam.cam_multi_label. rewrite Hls.
  destruct (repeat_interleave_spec labels b c c Hls Hlwf)
    as (ri & -> & Hris & Hril & Hri).
  destruct (repeat_rows_eye_spec b c) as (ey & -> & Heys & Heyl & Hey).
  cbv beta iota delta [mbind result_bind].
  destruct (bzip_same_shape smul ri ey [b * c; c] Hris Heys)
    as (lm0 & Hlm0 & Hlm0s & Hlm0wf & Hlm0g).
  unfold tmul at 1. rewrite Hlm0.
  assert (Hlm0l : length (data lm0) = b * c * c).
  { unfold wf in Hlm0wf. rewrite Hlm0wf, Hlm0s. simpl. lia. }
  change [Some b; None; Some c]
    with ((Some <$> [b]) ++ None :: (Some <$> [c]) : list (option nat)).
  rewrite (view_infer lm0 [b] [c] c) by (simpl; nia).
  change ([b] ++ c :: [c]) with [b; c; c].
  set (lm := Tensor [b; c; c] (data lm0)).
  destruct (matmul_spec lm (ResNetCam.fc_weight self) b c c ch eq_refl Hw)
    as (cwt & -> & Hcwts & Hcwtl & Hcwt).
  assert (Hweights : ∀ i j k, i < b → j < c → k < ch →
    data cwt !! ((i * c + j) * ch + k) =
      Some (smul (elem labels [i; j]) (elem (ResNetCam.fc_weight self) [j; k]))).
  { intros i j k Hi Hj Hk. rewrite Hcwt by done. f_equal.
    assert (Hg : ∀ l, l < c →
      smul (bget lm [i; j; l]) (bget (ResNetCam.fc_weight self) [l; k]) =
      smul (smul (elem labels [i; l]) (if decide (j = l) then s1 else s0))
           (elem (ResNetCam.fc_weight self) [l; k])).
    { intros l Hl. f_equal.
      - rewrite bget_in_bounds by (repeat constructor; done).
        rewrite elem_lookup by (repeat constructor; done).
        unfold lm. simpl shape. simpl data.
        replace (ravel [b; c; c] [i; j; l]) with ((i * c + j) * c + l) by (simpl; lia).
        assert (Hin : in_bounds [i * c + j; l] [b * c; c]) by (repeat constructor; nia).
        pose proof (Hlm0g _ Hin) as Hget. unfold tget in Hget.
        rewrite Hlm0s in Hget. rewrite decide_True in Hget by done.
        replace (ravel [b * c; c] [i * c + j; l]) with ((i * c + j) * c + l) in Hget
          by (simpl; lia).
        rewrite Hget. simpl. f_equal.
        + rewrite (elem_matrix ri (b * c) c) by (auto; nia).
          rewrite Hri by done.
          by rewrite (elem_matrix labels b c).
        + rewrite (elem_matrix ey (b * c) c) by (auto; nia).
          by rewrite Hey.
      - apply bget_in_bounds. rewrite Hw. repeat constructor; done. }
    rewrite (tabulate_ext _ _ _ Hg).
    rewrite (ssum_single _ c j) by
      (auto; intros l Hl Hne; rewrite decide_False by done; by rewrite Hm0r, Hm0l).
    rewrite decide_True by done. by rewrite Hm1. }
  change [Some c; Some b; None; Some 1; Some 1]
    with ((Some <$> [c; b]) ++ None :: (Some <$> [1; 1]) : list (option nat)).
  rewrite (view_infer cwt [c; b] [1; 1] ch) by (simpl; nia).
  change ([c; b] ++ ch :: [1; 1]) with [c; b; ch; 1; 1].
  set (cw := Tensor [c; b; ch; 1; 1] (data cwt)).
  assert (Hbs : broadcast_shapes (shape cw) (shape fm) = Ok [c; b; ch; h; w]).
  { rewrite Hfm. unfold broadcast_shapes, pad_shape. simpl.
    by rewrite !bcast_dim_same, !bcast_dim_1_l, !bcast_dim_1_r. }
  destruct (bzip_spec smul cw fm _ Hbs) as (prod & Hprod & Hprods & _ & Hprodg).
  unfold tmul. rewrite Hprod.
  destruct (mean_dim_spec prod 2 ch) as (mn & -> & Hmns & Hmnwf & Hmng).
  { by rewrite Hprods. }
  rewrite Hprods in Hmns, Hmng.
  change (delete 2 [c; b; ch; h; w]) with [c; b; h; w] in Hmns, Hmng.
  rewrite Hfm.
  change (Some <$> [b; c] ++ drop 2 [b; ch; h; w])
    with (Some <$> [b; c; h; w] : list (option nat)).
  rewrite view_exact by (rewrite Hmnwf, Hmns; simpl; lia).
  eexists. split; [done|]. split; [done|].
  intros i j y x Hi Hj Hy Hx.
  set (N := i * c + j).
  assert (HN : N < b * c) by (unfold N; nia).
  assert (Hdm : N = b * (N `div` b) + N `mod` b) by (by apply Nat.div_mod).
  assert (Hq : N `div` b < c) by (apply Nat.Div0.div_lt_upper_bound; lia).
  assert (Hr : N `mod` b < b) by (by apply Nat.mod_upper_bound).
  assert (Hin : in_bounds [N `div` b; N `mod` b; y; x] [c; b; h; w])
    by (repeat constructor; done).
  unfold tget at 1. simpl shape. rewrite decide_True by (repeat constructor; done).
  simpl data.
  replace (ravel [b; c; h; w] [i; j; y; x])
    with (ravel [c; b; h; w] [N `div` b; N `mod` b; y; x]) by (simpl; unfold N in *; nia).
  pose proof (Hmng _ Hin) as Hget. unfold tget in Hget.
  rewrite Hmns in Hget. rewrite decide_True in Hget by done.
  rewrite Hget. f_equal. f_equal. apply tabulate_ext. intros k Hk.
  change (take 2 [N `div` b; N `mod` b; y; x] ++ k :: drop 2 [N `div` b; N `mod` b; y; x])
    with [N `div` b; N `mod` b; k; y; x].
  assert (Hin5 : in_bounds [N `div` b; N `mod` b; k; y; x] [c; b; ch; h; w])
    by (repeat constructor; done).
  rewrite (bget_in_bounds prod) by (by rewrite Hprods).
  unfold elem at 1. rewrite (Hprodg _ Hin5). simpl default. f_equal.
  - unfold bget, cw. simpl shape. simpl data. unfold pad_shape. simpl.
    rewrite !bsel_lt by done.
    replace (N `div` b * (b * (ch * 1)) + (N `mod` b * (ch * 1) + (k * 1 + 0)))
      with ((i * c + j) * ch + k) by (unfold N in *; nia).
    by rewrite Hweights.
  - unfold bget. rewrite Hfm. unfold pad_shape. simpl.
    rewrite !bsel_lt by done.
    rewrite elem_lookup by (rewrite Hfm; repeat constructor; done).
    rewrite Hfm. simpl. done.
Qed.

(** What holds of the multi-label maps for every batch size: a class with
    a zero mask has the map [0 / c]; and for a single sample a class with
    mask one has the closed form of the multi-class path. *)
Lemma cam_multi_label_facts (self : ResNetCam.t T) (fm labels : tensor T)
    (b c ch h w : nat) :
  (∀ x : T, smul x s0 = s0) → (∀ x : T, smul s0 x = s0) →
  (∀ x : T, smul x s1 = x) → (∀ x : T, smul s1 x = x) →
  (∀ x : T, sadd x s0 = x) → (∀ x : T, sadd s0 x = x) →
  shape labels = [b; c] → wf labels → b ≠ 0 → c ≠ 0 →
  shape fm = [b; ch; h; w] → wf fm →
  shape (ResNetCam.fc_weight self) = [c; ch] → wf (ResNetCam.fc_weight self) →
  ∃ cams, ResNetCam.cam_multi_label self fm (LMask labels) = Ok cams ∧
    shape cams = [b; c; h; w] ∧
    (∀ i j y x, i < b → j < c → y < h → x < w → elem labels [i; j] = s0 →
       tget cams [i; j; y; x] = Some (sdiv s0 (of_nat ch))) ∧
    (b = 1 → ∀ j y x, j < c → y < h → x < w → elem labels [0; j] = s1 →
       tget cams [0; j; y; x] =
         Some (weighted_mean (ResNetCam.fc_weight self) fm ch j 0 y x)).
Proof.
  intros Hm0r Hm0l Hm1r Hm1l Ha0r Ha0l Hls Hlwf Hb Hc Hfm Hfwf Hw Hwwf.
  destruct (cam_multi_label_spec self fm labels b c ch h w Hm0r Hm0l Hm1r Ha0r Ha0l
              Hls Hlwf Hb Hc Hfm Hfwf Hw Hwwf) as (cams & Hrun & Hshape & Hget).
  exists cams. split; [done|]. split; [done|]. split.
  - intros i j y x Hi Hj Hy Hx Hzero. rewrite Hget by done. f_equal.
    rewrite (tabulate_ext _ (λ _, s0)).
    2:{ intros k Hk. by rewrite Hzero, !Hm0l. }
    unfold smean, ssum. rewrite length_tabulate. f_equal.
    apply foldl_sadd_zeros; [done|].
    unfold tabulate. apply Forall_fmap, Forall_forall. done.
  - intros -> j y x Hj Hy Hx Hone. rewrite Hget by (done || lia). f_equal.
    unfold weighted_mean. f_equal. apply tabulate_ext. intros k Hk.
    rewrite Hone, Hm1l. by rewrite Nat.mod_1_r.
Qed.

End MultiLabelCam.

(** ** Pooled features, label indices and index broadcasting *)

Section MoreTensorLemmas.
Context {T : Type} `{Scalar T}.

Lemma div_mod_lt a n m : a < n * m → a / m < n ∧ a `mod` m < m.
Proof.
  intros Ha. assert (m ≠ 0) by (intros ->; lia).
  split; [apply Nat.Div0.div_lt_upper_bound; lia|by apply Nat.mod_upper_bound].
Qed.

Lemma avgpool_spec (fm : tensor T) b c h w :
  shape fm = [b; c; h; w] → wf fm →
  avgpool fm = Ok (Tensor [b; c; 1; 1]
    (tabulate (b * c) (λ n, channel_mean fm h w (n / c) (n `mod` c)))).
Proof.
  intros Hfm Hwf. unfold avgpool. rewrite Hfm. do 2 f_equal.
  apply tabulate_ext. intros n Hn. unfold channel_mean.
  assert (Hwf' : wf (Tensor [b * c; h * w] (data fm))).
  { unfold wf in *. rewrite Hfm in Hwf. simpl in *. lia. }
  rewrite (slab_row _ (b * c) (h * w)) by done.
  f_equal. apply tabulate_ext. intros p Hp.
  destruct (div_mod_lt n b c Hn) as [? ?].
  destruct (div_mod_lt p h w Hp) as [? ?].
  rewrite !elem_lookup; simpl; rewrite ?Hfm.
  - f_equal. f_equal. simpl.
    pose proof (Nat.div_mod_eq n c). pose proof (Nat.div_mod_eq p w). nia.
  - repeat constructor; lia.
  - repeat constructor; lia.
Qed.

Lemma div_mod_flat i j n : j < n → (i * n + j) / n = i ∧ (i * n + j) `mod` n = j.
Proof.
  intros Hj. split.
  - rewrite Nat.div_add_l by lia. rewrite Nat.div_small by done. lia.
  - rewrite Nat.add_comm, Nat.Div0.mod_add. by apply Nat.mod_small.
Qed.

Lemma elem_tabulate_matrix (g : nat → T) n m i j :
  i < n → j < m → elem (Tensor [n; m] (tabulate (n * m) g)) [i; j] = g (i * m + j).
Proof.
  intros Hi Hj. rewrite elem_lookup by (repeat constructor; done). simpl.
  rewrite lookup_tabulate by nia. simpl. f_equal. lia.
Qed.

Lemma fc_logits_spec (weight bias fm : tensor T) b c h w n :
  shape fm = [b; c; h; w] → wf fm → b ≠ 0 →
  shape weight = [n; c] → shape bias = [n] →
  ∃ logits, fc_logits weight bias fm = Ok logits ∧ shape logits = [b; n] ∧
    wf logits ∧
    ∀ i j, i < b → j < n →
      tget logits [i; j] = Some (fc_entry weight bias fm c h w i j).
Proof.
  intros Hfm Hwf Hb Hw Hbias. unfold fc_logits.
  rewrite (avgpool_spec fm b c h w) by done. simpl.
  set (g := λ n, channel_mean fm h w (n / c) (n `mod` c)).
  pose proof (view_infer (Tensor [b; c; 1; 1] (tabulate (b * c) g)) [b] [] c) as Hv.
  simpl in Hv. rewrite Hv; [|lia|rewrite length_tabulate; lia]. clear Hv. simpl.
  unfold linear. simpl. rewrite Hw, Hbias. rewrite decide_True by done.
  eexists. split; [done|]. split; [done|]. split.
  { unfold wf. simpl. rewrite length_tabulate. lia. }
  intros i j Hi Hj. unfold tget. simpl. rewrite decide_True by (repeat constructor; done).
  rewrite lookup_tabulate by nia.
  replace (i * (n * 1) + (j * 1 + 0)) with (i * n + j) by lia.
  destruct (div_mod_flat i j n Hj) as [-> ->].
  unfold fc_entry. f_equal. f_equal; [f_equal|].
  - apply tabulate_ext. intros k Hk. f_equal.
    + rewrite bget_in_bounds by (repeat constructor; done).
      rewrite elem_tabulate_matrix by done. unfold g.
      by destruct (div_mod_flat i k c Hk) as [-> ->].
    + apply bget_in_bounds. rewrite Hw. repeat constructor; done.
  - apply bget_in_bounds. rewrite Hbias. repeat constructor; done.
Qed.
Lemma norm_index_wrap n l :
  (- Z.of_nat n ≤ l < Z.of_nat n)%Z →
  norm_index n l = Ok (Z.to_nat (wrap_index n l)) ∧
  (0 ≤ wrap_index n l < Z.of_nat n)%Z.
Proof.
  intros Hl. unfold norm_index, wrap_index.
  destruct (decide (l < 0)%Z).
  - rewrite decide_False by lia. rewrite decide_True by lia. split; [done|lia].
  - rewrite decide_True by lia. split; [done|lia].
Qed.

Lemma norm_index_outside n l :
  ¬ (- Z.of_nat n ≤ l < Z.of_nat n)%Z → norm_index n l = Raise IndexError.
Proof.
  intros Hl. unfold norm_index.
  rewrite decide_False by lia. by rewrite decide_False by lia.
Qed.

Lemma traverse_norm_index_outside n labels :
  Exists (λ l, ¬ (- Z.of_nat n ≤ l < Z.of_nat n)%Z) labels →
  traverse (norm_index n) labels = Raise IndexError.
Proof.
  induction 1 as [l labels Hl|l labels _ IH]; simpl.
  - by rewrite norm_index_outside.
  - destruct (decide (- Z.of_nat n ≤ l < Z.of_nat n)%Z) as [Hl|Hl].
    + destruct (norm_index_wrap n l Hl) as [-> _]. simpl. by rewrite IH.
    + by rewrite norm_index_outside.
Qed.

Lemma traverse_norm_index_wrap n labels :
  Forall (λ l, - Z.of_nat n ≤ l < Z.of_nat n)%Z labels →
  traverse (norm_index n) labels = Ok ((λ l, Z.to_nat (wrap_index n l)) <$> labels).
Proof.
  intros Hl. apply traverse_Ok. eapply Forall_impl; [exact Hl|].
  intros l Hr. simpl. by destruct (norm_index_wrap n l Hr).
Qed.

Lemma index_rows_wrap (t : tensor T) n sh labels :
  shape t = n :: sh →
  Forall (λ l, - Z.of_nat n ≤ l < Z.of_nat n)%Z labels →
  index_rows t labels = index_rows t (wrap_index n <$> labels) ∧
  index_rows t labels =
    Ok (Tensor (length labels :: sh)
          (((λ l, Z.to_nat (wrap_index n l)) <$> labels) ≫= slab t)).
Proof.
  intros Ht Hl. unfold index_rows. rewrite Ht.
  rewrite (traverse_norm_index_wrap n labels Hl).
  rewrite (traverse_norm_index_wrap n (wrap_index n <$> labels)).
  - simpl. rewrite length_fmap, <- list_fmap_compose. split; [|done].
    do 3 f_equal. apply list_fmap_ext. intros i l Hi. simpl.
    eapply Forall_lookup_1 in Hl; [|exact Hi]. simpl in Hl.
    f_equal. unfold wrap_index.
    destruct (decide (l < 0)%Z); [|by rewrite decide_False by lia].
    by rewrite decide_False by lia.
  - apply Forall_fmap. eapply Forall_impl; [exact Hl|].
    intros l Hr. simpl. destruct (norm_index_wrap n l Hr) as [_ ?]. lia.
Qed.

Lemma index_rows_length (t : tensor T) n c labels r :
  shape t = [n; c] → wf t →
  Forall (λ l, - Z.of_nat n ≤ l < Z.of_nat n)%Z labels →
  index_rows t labels = Ok r → length (data r) = length labels * c.
Proof.
  intros Ht Hwf Hl Hr.
  destruct (index_rows_wrap t n [c] labels Ht Hl) as [_ Hr'].
  rewrite Hr' in Hr. injection Hr as <-. simpl.
  rewrite (length_bind_chunks _ _ c); [by rewrite length_fmap|].
  apply Forall_fmap. eapply Forall_impl; [exact Hl|].
  intros l Hlr. simpl. destruct (norm_index_wrap n l Hlr) as [_ ?].
  rewrite (length_slab t n [c]); [simpl; lia|done|done|lia].
Qed.

Lemma bcast_index_one {A B} (xs : list A) (l : B) :
  bcast_index xs [l] = Ok (zip xs (replicate (length xs) l)).
Proof.
  assert (Hz : ∀ (xs : list A), (λ x, (x, l)) <$> xs = zip xs (replicate (length xs) l)).
  { clear xs. induction xs as [|x xs IH]; [done|].
    rewrite fmap_cons. simpl. by f_equal. }
  unfold bcast_index. destruct xs as [|x [|x' xs]]; [done|done|].
  by rewrite Hz.
Qed.

Lemma bcast_index_single {B} n (l : B) :
  bcast_index (range n) [l] = Ok (zip (range n) (replicate n l)).
Proof.
  rewrite bcast_index_one. unfold range. by rewrite length_fmap, length_seq.
Qed.

Lemma index_pairs_single (t : tensor T) n (l : Z) :
  index_pairs t (range n) [l] = index_pairs t (range n) (replicate n l).
Proof.
  unfold index_pairs. destruct (shape t) as [|? [|? ?]]; try done.
  rewrite bcast_index_single. unfold range.
  by rewrite bcast_index_range by apply length_replicate.
Qed.

Lemma bcast_index_mismatch {A B} (xs : list A) (ys : list B) :
  length xs ≠ 1 → length ys ≠ 1 → length xs ≠ length ys →
  bcast_index xs ys = Raise IndexError.
Proof.
  intros Hx Hy Hxy. unfold bcast_index.
  destruct xs as [|x [|x' xs]]; simpl in *; try done;
    destruct ys as [|y [|y' ys]]; simpl in *; try done;
    by rewrite decide_False by done.
Qed.

Lemma chunks_concat {A} (l : list A) n r :
  length l = n * r → seq 0 n ≫= (λ i, take r (drop (i * r) l)) = l.
Proof.
  revert l. induction n as [|n IH]; intros l Hl.
  - simpl in *. by destruct l.
  - change (seq 0 (S n)) with (0 :: seq 1 n). rewrite bind_cons. simpl drop.
    rewrite <- fmap_S_seq, list_fmap_bind.
    transitivity (take r l ++ drop r l); [|apply take_drop].
    f_equal. etrans; [|apply (IH (drop r l)); rewrite length_drop; lia].
    apply list_bind_ext; [|done].
    intros i. simpl. rewrite drop_drop. do 2 f_equal; lia.
Qed.

Lemma slabs_concat (t : tensor T) n sh :
  shape t = n :: sh → wf t → seq 0 n ≫= slab t = data t.
Proof.
  intros Ht Hwf. unfold slab. rewrite Ht. simpl tail.
  apply chunks_concat. unfold wf in Hwf. by rewrite Hwf, Ht.
Qed.

Lemma traverse_norm_index_range n :
  traverse (norm_index n) (range n) = Ok (seq 0 n).
Proof.
  unfold range. rewrite (traverse_Ok _ Z.to_nat).
  - f_equal. rewrite <- list_fmap_compose.
    etrans; [|apply list_fmap_id]. apply list_fmap_ext.
    intros i k _. simpl. lia.
  - apply Forall_fmap, Forall_forall. intros i Hi. simpl.
    apply elem_of_seq in Hi. apply norm_index_nonneg. lia.
Qed.

Lemma index_rows_range (t : tensor T) n sh :
  shape t = n :: sh → wf t → index_rows t (range n) = Ok t.
Proof.
  intros Ht Hwf. unfold index_rows. rewrite Ht, traverse_norm_index_range. simpl.
  rewrite (slabs_concat t n sh) by done.
  unfold range. rewrite length_fmap, length_seq. rewrite <- Ht. by destruct t.
Qed.

Lemma spg_logits_spec (fm : tensor T) b c h w :
  shape fm = [b; c; h; w] → wf fm →
  ∃ logits, spg_logits fm = Ok logits ∧ shape logits = [b; c] ∧ wf logits ∧
    ∀ i j, i < b → j < c → tget logits [i; j] = Some (channel_mean fm h w i j).
Proof.
  intros Hfm Hwf. unfold spg_logits.
  rewrite (avgpool_spec fm b c h w) by done. simpl.
  change [Some b; Some c] with (Some <$> [b; c]).
  rewrite view_exact by (simpl; rewrite length_tabulate; lia). simpl.
  eexists. split; [done|]. split; [done|]. split.
  { unfold wf. simpl. rewrite length_tabulate. lia. }
  intros i j Hi Hj. unfold tget. simpl.
  rewrite decide_True by (repeat constructor; done).
  rewrite lookup_tabulate by nia.
  replace (i * (c * 1) + (j * 1 + 0)) with (i * c + j) by lia.
  by destruct (div_mod_flat i j c Hj) as [-> ->].
Qed.

Lemma cam_multi_label_wrong_classes (self : ResNetCam.t T) (fm labels : tensor T)
    (b c n ch : nat) :
  shape labels = [b; c] → wf labels → c ≠ n →
  shape (ResNetCam.fc_weight self) = [n; ch] →
  ResNetCam.cam_multi_label self fm (LMask labels) = Raise RuntimeError.
Proof.
  intros Hls Hlwf Hc Hw.
  unfold ResNetCam.cam_multi_label. rewrite Hls.
  destruct (repeat_interleave_spec labels b c c Hls Hlwf)
    as (ri & -> & Hris & Hril & Hri).
  destruct (repeat_rows_eye_spec b c) as (ey & -> & Heys & Heyl & Hey).
  cbv beta iota delta [mbind result_bind].
  destruct (bzip_same_shape smul ri ey [b * c; c] Hris Heys)
    as (lm0 & Hlm0 & Hlm0s & Hlm0wf & Hlm0g).
  unfold tmul at 1. rewrite Hlm0.
  assert (Hlm0l : length (data lm0) = b * c * c).
  { unfold wf in Hlm0wf. rewrite Hlm0wf, Hlm0s. simpl. lia. }
  destruct (view lm0 [Some b; None; Some c]) as [lm|] eqn:Hv; [|].
  - unfold view in Hv.
    destruct (view_shape (length (data lm0)) [Some b; None; Some c]) as [sh|] eqn:Hsh;
      [|discriminate].
    simpl in Hv. injection Hv as <-.
    unfold view_shape in Hsh. simpl in Hsh.
    destruct (decide _) as [_|_] in Hsh; [|discriminate].
    injection Hsh as <-.
    unfold matmul. simpl shape. rewrite Hw.
    by rewrite decide_False.
  - unfold view in Hv.
    destruct (view_shape (length (data lm0)) [Some b; None; Some c]) as [sh|e2] eqn:Hsh;
      [discriminate|].
    unfold view_shape in Hsh. simpl in Hsh.
    destruct (decide _) in Hsh; [discriminate|]. simpl in Hv. by injection Hsh as <-.
Qed.

End MoreTensorLemmas.

(** ** Sums of rationals, and the multi-class CAM as a lemma *)

Lemma qsum_S (f : nat → Qc) n :
  ssum (tabulate (S n) f) = (ssum (tabulate n f) + f n)%Qc.
Proof.
  unfold ssum, tabulate. rewrite seq_S, fmap_app, foldl_app. reflexivity.
Qed.

Lemma qsum_scale (a : Qc) (f : nat → Qc) n :
  ssum (tabulate n (λ k, a * f k)%Qc) = (a * ssum (tabulate n f))%Qc.
Proof.
  induction n as [|n IH].
  - simpl. unfold ssum. simpl. ring.
  - rewrite !qsum_S, IH. ring.
Qed.

Lemma qsum_add (f g : nat → Qc) n :
  ssum (tabulate n (λ k, f k + g k)%Qc)
    = (ssum (tabulate n f) + ssum (tabulate n g))%Qc.
Proof.
  induction n as [|n IH].
  - unfold ssum. simpl. ring.
  - rewrite !qsum_S, IH. ring.
Qed.

Lemma qsum_swap (f : nat → nat → Qc) n m :
  ssum (tabulate n (λ i, ssum (tabulate m (λ j, f i j))))
    = ssum (tabulate m (λ j, ssum (tabulate n (λ i, f i j)))).
Proof.
  induction n as [|n IH].
  - unfold ssum at 1. simpl.
    induction m as [|m IHm]; [done|]. rewrite qsum_S, <- IHm.
    unfold ssum. simpl. ring.
  - rewrite qsum_S, IH, <- qsum_add.
    apply f_equal, tabulate_ext. intros j _. by rewrite qsum_S.
Qed.

Lemma qsum_ext (f g : nat → Qc) n :
  (∀ k, k < n → f k = g k) → ssum (tabulate n f) = ssum (tabulate n g).
Proof. intros Hfg. f_equal. by apply tabulate_ext. Qed.

Lemma of_nat_Qc_neq_0 n : n ≠ 0 → (of_nat n : Qc) ≠ 0%Qc.
Proof.
  intros Hn Heq. change (Q2Qc (inject_Z (Z.of_nat n)) = Q2Qc 0) in Heq.
  apply Q2Qc_eq_iff in Heq. unfold Qeq in Heq. simpl in Heq. lia.
Qed.

Section CamSpec.
Context {T : Type} `{Scalar T}.

Lemma cam_multi_class_spec (self : ResNetCam.t T) (fm : tensor T) (labels : list Z)
    (b c h w n : nat) :
  shape fm = [b; c; h; w] → wf fm →
  shape (ResNetCam.fc_weight self) = [n; c] → wf (ResNetCam.fc_weight self) →
  length labels = b → Forall (λ l, 0 ≤ l < Z.of_nat n)%Z labels →
  ∃ cams,
    ResNetCam.cam_multi_class self fm (LIndex labels) = Ok cams ∧
    shape cams = [b; h; w] ∧ wf cams ∧
    ∀ i l y x, labels !! i = Some l → y < h → x < w →
      tget cams [i; y; x] =
        Some (weighted_mean (ResNetCam.fc_weight self) fm c (Z.to_nat l) i y x).
Proof.
  intros Hfm Hwf Hw Hwfw Hlen Hl.
  unfold ResNetCam.cam_multi_class, getitem.
  destruct (index_rows_spec _ _ _ labels Hw Hwfw Hl) as (cw0 & -> & Hsh0 & Hlen0 & Hrow).
  rewrite Hlen in Hsh0, Hlen0.
  destruct (cam_formula_spec cw0 fm cw0 b c h w Hfm Hwf Hlen0)
    as (cams & Hc & Hshape & Hwfc & Hget).
  simpl. rewrite Hc. exists cams. split; [done|]. split; [done|]. split; [done|].
  intros i l y x' Hi Hy Hx.
  assert (i < b) by (rewrite <- Hlen; by eapply lookup_lt_Some).
  rewrite Hget by done. unfold weighted_mean. do 2 f_equal.
  apply tabulate_ext. intros k Hk. by rewrite (Hrow i l k).
Qed.
End CamSpec.

(** ** Keys that [align_layer] rejects, the events of a load, ADL insertion *)

Lemma py_int_char ch l :
  py_int (String ch EmptyString) = Ok l →
  ∃ d, d ≤ 9 ∧ l = Z.of_nat d ∧ ch = digit_char d.
Proof.
  destruct ch as [[] [] [] [] [] [] [] []]; vm_compute; intros Heq;
    try discriminate; injection Heq as <-;
    let try_digit d := (exists d; split; [lia|split; reflexivity]) in
    first [ try_digit 0 | try_digit 1 | try_digit 2 | try_digit 3 | try_digit 4
          | try_digit 5 | try_digit 6 | try_digit 7 | try_digit 8 | try_digit 9 ].
Qed.

Lemma align_key_raises key :
  contains "layer" key = true →
  (∀ ch, last_char (key_head key) = Ok ch → ch ∉ ["0"; "1"; "2"; "3"; "4"]%char) →
  raises (align_key key).
Proof.
  intros Hc Hch. unfold align_key. rewrite Hc. simpl negb. cbv iota.
  unfold key_head in Hch. unfold split.
  destruct (split_go "." key) as [k0 tl]. simpl in Hch.
  rewrite list_getitem_0.
  cbv beta iota delta [mbind result_bind].
  destruct (last_char k0) as [ch|e]; [|by exists e].
  specialize (Hch ch eq_refl).
  destruct (py_int (String ch EmptyString)) as [l|e] eqn:Hl; [|by exists e].
  destruct (py_int_char ch l Hl) as (d & Hd & -> & ->).
  destruct (list_getitem (k0 :: tl) 1) as [bs|e]; [|by exists e].
  assert (5 ≤ d).
  { destruct d as [|[|[|[|[|d]]]]]; [exfalso; apply Hch; set_solver..|lia]. }
  exists IndexError. unfold list_getitem, norm_index. simpl length.
  rewrite decide_False by lia. by rewrite decide_False by lia.
Qed.

Section Fold.
Context {V : Type}.

Lemma align_fold_Raise (ks : list string) e :
  foldl (λ (acc : result (gmap string V)) key, acc ≫= λ d, align_step d key)
        (Raise e) ks = Raise e.
Proof. induction ks as [|k ks IH]; simpl; [done|apply IH]. Qed.

Lemma align_fold_raises (ks : list string) key (acc : result (gmap string V)) :
  key ∈ ks → raises (align_key key) →
  raises (foldl (λ acc key, acc ≫= λ d, align_step d key) acc ks).
Proof.
  intros Hin [e He]. revert acc.
  induction ks as [|k ks IH]; intros acc; [by apply elem_of_nil in Hin|].
  simpl. apply elem_of_cons in Hin as [<-|Hin]; [|by apply IH].
  destruct acc as [d|e']; simpl.
  - unfold align_step. rewrite He. simpl. rewrite align_fold_Raise. by exists e.
  - rewrite align_fold_Raise. by exists e'.
Qed.
End Fold.

Section FactoryMore.
Context {V : Type}.

Lemma fetch_state_dict_trace (w : world V) wsol_method architecture path tr :
  ∃ evs, (fetch_state_dict w wsol_method architecture path tr).2 = tr ++ evs ∧
    match (fetch_state_dict w wsol_method architecture path tr).1 with
    | Ok _ => ∀ rest, load_rest rest → load_trace architecture path (evs ++ rest)
    | Raise _ => load_trace architecture path evs
    end.
Proof.
  unfold fetch_state_dict.
  destruct (truthy path) eqn:Hp.
  - destruct path as [[|a p]|]; try discriminate. set (p' := String a p).
    exists [EPrint ("Loaded model from " +:+ p'); ETorchLoad p'].
    assert (∀ rest, load_rest rest → load_trace architecture (Some p')
              ([EPrint ("Loaded model from " +:+ p'); ETorchLoad p'] ++ rest)) as Hrest.
    { intros rest Hr. by apply load_trace_file. }
    pose proof (Hrest [] load_rest_none) as Hnil. rewrite app_nil_r in Hnil.
    unfold mbind, M_bind, call, lift. simpl default. fold p'.
    rewrite <- !app_assoc. simpl app.
    destruct (torch_load w p') as [ckpt|]; [|done].
    destruct (lookup_or_KeyError ckpt "state_dict") as [sd|]; [|done].
    by destruct (if decide (wsol_method = "adl") then _ else _).
  - unfold mbind, M_bind, call, lift.
    destruct (model_urls !! architecture) as [url|] eqn:Hurl.
    + exists [ELoadUrl url].
      assert (∀ rest, load_rest rest → load_trace architecture path
                ([ELoadUrl url] ++ rest)) as Hrest.
      { intros rest Hr. by apply load_trace_url. }
      pose proof (Hrest [] load_rest_none) as Hnil. rewrite app_nil_r in Hnil.
      unfold lookup_or_KeyError. rewrite Hurl.
      destruct (load_url w url) as [sd|]; [|done].
      by destruct (if decide (wsol_method = "adl") then _ else _).
    + exists []. unfold lookup_or_KeyError. rewrite Hurl. simpl.
      split; [by rewrite app_nil_r|by apply load_trace_no_url].
Qed.


End FactoryMore.

Lemma layer_seq blocks : 0 < blocks → _layer blocks = Block <$> seq 0 blocks.
Proof.
  intros Hb. unfold _layer. destruct blocks as [|n]; [lia|].
  simpl. by rewrite Nat.sub_0_r.
Qed.

Lemma bind_with_adl_fresh split a n :
  (∀ k, a ≤ k < a + n → Z.of_nat k ∉ split) →
  seq a n ≫= with_adl split = Block <$> seq a n.
Proof.
  revert a. induction n as [|n IH]; intros a Hf; [done|].
  simpl seq. rewrite bind_cons, fmap_cons, IH by (intros k Hk; apply Hf; lia).
  unfold with_adl at 1. rewrite decide_False by (apply Hf; lia). done.
Qed.

Lemma make_layer_foldr blocks split :
  _make_layer blocks split =
    foldr (λ pos layers, list_insert_at (Z.to_nat (pos + 1)) ADL layers)
          (_layer blocks) split.
Proof.
  unfold _make_layer. induction split as [|pos ps IH]; [done|].
  rewrite reverse_cons, foldl_app. simpl. by rewrite IH.
Qed.

Lemma adl_shift_le_2 l b : l ≤ 4 → (adl_shift l b ≤ 2)%Z.
Proof.
  intros Hl. unfold adl_shift.
  assert (length (filter (λ pos, pos < b)%Z (default [] (_ADL_POSITION !! l))) ≤
          length (default [] (_ADL_POSITION !! l))) by apply length_filter.
  destruct l as [|[|[|[|[|l]]]]]; simpl in *; lia.
Qed.

Lemma adl_shift_layer3 b : (1 ≤ b)%Z → adl_shift 3 b = 1%Z.
Proof.
  intros Hb. unfold adl_shift. simpl.
  rewrite filter_cons_True by lia. done.
Qed.

Lemma resnet50_backbone {V} (d : gmap string V) :
  resnet50_state_dict d → backbone_state_dict d.
Proof.
  intros Hd k Hk. destruct (Hd k Hk) as [?|(l & b & rest & Hl & Hb & ->)]; [by left|].
  right. exists l, b, rest. pose proof (adl_shift_le_2 l b Hl).
  repeat split; [done|lia|lia].
Qed.

(** ** Residual blocks: what [_layer] builds and the shapes it gives *)

Lemma foldl_snoc_const {A B} (x : A) (l0 : list A) (ks : list B) :
  foldl (λ layers _, layers ++ [x]) l0 ks = l0 ++ replicate (length ks) x.
Proof.
  revert l0. induction ks as [|k ks IH]; intros l0; simpl.
  - by rewrite app_nil_r.
  - rewrite IH, <- app_assoc. done.
Qed.

Lemma layer_blocks inplanes planes blocks stride :
  Init._layer inplanes planes blocks stride =
    (Bottleneck.__init__ inplanes planes stride
       (get_downsampling_layer inplanes planes stride) 64
     :: replicate (Z.to_nat (blocks - 1))
          (Bottleneck.__init__ (planes * Bottleneck.expansion) planes 1 None 64),
     planes * Bottleneck.expansion).
Proof.
  unfold Init._layer. rewrite foldl_snoc_const, length_seq. done.
Qed.

Lemma width_64 planes : planes * 64 / 64 = planes.
Proof. by apply Nat.div_mul. Qed.

Lemma shortcut_fits_first inplanes planes stride :
  shortcut_fits (Bottleneck.__init__ inplanes planes stride
                   (get_downsampling_layer inplanes planes stride) 64).
Proof.
  unfold shortcut_fits, get_downsampling_layer. simpl.
  destruct (decide _) as [[-> ->]|_]; simpl; done.
Qed.

Lemma shortcut_fits_next planes :
  shortcut_fits (Bottleneck.__init__ (planes * Bottleneck.expansion) planes 1 None 64).
Proof. by unfold shortcut_fits. Qed.

Lemma conv_shape_1x1 inp out b h w :
  0 < h → 0 < w →
  conv_shape (Conv2d inp out 1 1 0) [b; inp; h; w] = Some [b; out; h; w].
Proof.
  intros Hh Hw. unfold conv_shape.
  cbn [in_channels out_channels kernel_size conv_stride conv_padding].
  rewrite decide_True by lia.
  replace ((h + 2 * 0 - 1) / 1 + 1) with h by (rewrite Nat.div_1_r; lia).
  by replace ((w + 2 * 0 - 1) / 1 + 1) with w by (rewrite Nat.div_1_r; lia).
Qed.

Lemma conv_shape_3x3 width s b h w :
  0 < s → 0 < h → 0 < w →
  conv_shape (Conv2d width width 3 s 1) [b; width; h; w]
    = Some [b; width; (h - 1) / s + 1; (w - 1) / s + 1].
Proof.
  intros Hs Hh Hw. unfold conv_shape.
  cbn [in_channels out_channels kernel_size conv_stride conv_padding].
  rewrite decide_True by lia.
  replace (h + 2 * 1 - 3) with (h - 1) by lia.
  by replace (w + 2 * 1 - 3) with (w - 1) by lia.
Qed.

Lemma conv_shape_projection c inp b h w :
  in_channels c = inp → kernel_size c = 1 → conv_padding c = 0 →
  0 < conv_stride c → 0 < h → 0 < w →
  conv_shape c [b; inp; h; w]
    = Some [b; out_channels c; (h - 1) / conv_stride c + 1;
            (w - 1) / conv_stride c + 1].
Proof.
  intros Hi Hk Hp Hs Hh Hw. unfold conv_shape. rewrite Hi, Hk, Hp.
  rewrite decide_True by lia.
  replace (h + 2 * 0 - 1) with (h - 1) by lia.
  by replace (w + 2 * 0 - 1) with (w - 1) by lia.
Qed.

Lemma strided_le h s : 0 < h → (h - 1) / s + 1 ≤ h.
Proof.
  intros Hh. destruct s as [|s]; [simpl; lia|].
  pose proof (Nat.Div0.mul_div_le (h - 1) (S s)). nia.
Qed.

Lemma more_values b h w h' w' :
  h' ≤ h → w' ≤ w → 1 < b * h' * w' → 1 < b * h * w.
Proof.
  intros Hh Hw Hn.
  assert (b * h' * w' ≤ b * h * w); [|lia].
  apply Nat.mul_le_mono; [apply Nat.mul_le_mono_l|]; done.
Qed.

Lemma halve_pos n : 0 < halve n.
Proof. unfold halve. lia. Qed.

Lemma halve_le n : 0 < n → halve n ≤ n.
Proof. apply strided_le. Qed.

Lemma feature_size_pos (lfm : bool) n : 0 < feature_size lfm n.
Proof. unfold feature_size. destruct lfm; apply halve_pos. Qed.

Lemma feature_size_le (lfm : bool) n : feature_size lfm n ≤ halve (halve (halve n)).
Proof.
  unfold feature_size. destruct lfm; [done|]. apply halve_le, halve_pos.
Qed.

Lemma feature_size_stride (lfm : bool) n :
  (halve (halve (halve n)) - 1) / (if lfm then 1 else 2) + 1 = feature_size lfm n.
Proof.
  unfold feature_size. destruct lfm; [|done].
  rewrite Nat.div_1_r. pose proof (halve_pos (halve (halve n))). lia.
Qed.

Lemma chain_app {T} (ms ms' : list (module T)) x :
  chain (ms ++ ms') x = chain ms x ≫= chain ms'.
Proof.
  revert x. induction ms as [|m ms IH]; intros x.
  - by rewrite chain_nil.
  - rewrite <- app_comm_cons, !chain_cons. destruct (m x) as [y|e]; [apply IH|done].
Qed.

Lemma nn_Sequential_cons {T} (m : module T) ms x :
  nn_Sequential (m :: ms) x = m x ≫= nn_Sequential ms.
Proof.
  unfold nn_Sequential. simpl. destruct (m x) as [y|e]; [done|].
  simpl. induction ms as [|m' ms IH]; [done|apply IH].
Qed.

Section BlockShape.
Context {T : Type} `{Scalar T}.

Lemma iadd_same_shape (out identity : tensor T) sh :
  shape out = sh → shape identity = sh →
  ∃ r, Bottleneck.iadd out identity = Ok r ∧ shape r = sh ∧
    ∀ idx, in_bounds idx sh →
      tget r idx = Some (sadd (elem out idx) (elem identity idx)).
Proof.
  intros Ho Hi. unfold Bottleneck.iadd.
  destruct (bzip_same_shape sadd out identity sh Ho Hi) as (r & -> & Hr & _ & Hget).
  simpl. rewrite decide_True by congruence. by exists r.
Qed.

Lemma bottleneck_forward_shape (self : Bottleneck.t T) inplanes planes stride ds
    (x : tensor T) b h w :
  let cfg := Bottleneck.__init__ inplanes planes stride ds 64 in
  shortcut_fits cfg → implements cfg self →
  0 < stride → shape x = [b; inplanes; h; w] → 0 < h → 0 < w →
  1 < b * ((h - 1) / stride + 1) * ((w - 1) / stride + 1) →
  ∃ y, Bottleneck.forward self x = Ok y ∧
       shape y = [b; planes * 4; (h - 1) / stride + 1; (w - 1) / stride + 1].
Proof.
  intros cfg Hfit (Hc1 & Hb1 & Hc2 & Hb2 & Hc3 & Hb3 & Hrelu & Hds) Hs Hx Hh Hw Hn.
  unfold cfg in *. clear cfg.
  cbv beta iota zeta delta [Bottleneck.__init__ cfg_conv1 cfg_conv2 cfg_conv3
                            cfg_bn1 cfg_bn2 cfg_bn3]
    in Hc1, Hc2, Hc3, Hb1, Hb2, Hb3.
  rewrite width_64 in Hc1, Hc2, Hc3, Hb1, Hb2.
  set (ho := (h - 1) / stride + 1) in *. set (wo := (w - 1) / stride + 1) in *.
  assert (0 < ho) as Hh' by (unfold ho; lia).
  assert (0 < wo) as Hw' by (unfold wo; lia).
  assert (1 < b * h * w) as Hn0.
  { apply (more_values b h w ho wo); [by apply strided_le..|done]. }
  unfold Bottleneck.forward.
  destruct (Hc1 x _ ltac:(rewrite Hx; by apply conv_shape_1x1)) as (o1 & -> & S1). simpl.
  destruct (Hb1 o1 b h w S1 Hn0) as (o2 & -> & S2). simpl.
  destruct (Hrelu o2 _ _ _ _ S2) as (o3 & -> & S3). simpl.
  destruct (Hc2 o3 _ ltac:(rewrite S3; by apply conv_shape_3x3)) as (o4 & -> & S4). simpl.
  fold ho wo in S4.
  destruct (Hb2 o4 b ho wo S4 Hn) as (o5 & -> & S5). simpl.
  destruct (Hrelu o5 _ _ _ _ S5) as (o6 & -> & S6). simpl.
  destruct (Hc3 o6 _ ltac:(rewrite S6; by apply conv_shape_1x1)) as (o7 & -> & S7). simpl.
  destruct (Hb3 o7 b ho wo S7 Hn) as (o8 & -> & S8). simpl.
  assert (∃ idn, match Bottleneck.downsample self with
                 | Some d => d x
                 | None => Ok x
                 end = Ok idn ∧ shape idn = shape o8) as (idn & -> & Si).
  { unfold shortcut_fits in Hfit.
    cbv beta iota zeta delta [Bottleneck.__init__ cfg_conv1 cfg_conv3
                              cfg_downsample cfg_stride] in Hfit, Hds.
    rewrite ?width_64 in Hfit.
    cbn [in_channels out_channels] in Hfit.
    destruct ds as [[c bn]|], (Bottleneck.downsample self) as [d|]; try done.
    - destruct Hfit as (Hi & Ho & Hk & Hp & Hst & Hbn).
      destruct Hds as (dc & dbn & -> & Hdc & Hdbn).
      destruct (Hdc x _ ltac:(rewrite Hx; apply conv_shape_projection; [done..|lia|done|done]))
        as (i1 & R1 & Si1).
      rewrite Hst in Si1. fold ho wo in Si1. rewrite <- Hbn in Si1.
      destruct (Hdbn i1 b ho wo Si1 Hn) as (idn & R2 & Si).
      exists idn. split.
      + rewrite (nn_Sequential_cons dc [dbn] x), (bind_Ok _ _ _ R1).
        rewrite (nn_Sequential_cons dbn [] i1), (bind_Ok _ _ _ R2). done.
      + rewrite Si, S8, Hbn, Ho. done.
    - destruct Hfit as [-> ->]. exists x. split; [done|].
      rewrite Hx, S8. unfold ho, wo. rewrite !Nat.div_1_r. do 2 f_equal.
      f_equal; [lia|f_equal; lia]. }
  simpl.
  destruct (iadd_same_shape o8 idn _ eq_refl Si) as (r & -> & Sr & _). simpl.
  rewrite S8 in Sr.
  destruct (Hrelu r _ _ _ _ Sr) as (y & -> & Sy). simpl.
  exists y. split; [done|]. by rewrite Sy.
Qed.

Lemma blocks_keep_shape (selfs : list (Bottleneck.t T)) planes (x : tensor T) b h w :
  Forall (implements
            (Bottleneck.__init__ (planes * Bottleneck.expansion) planes 1 None 64))
         selfs →
  shape x = [b; planes * 4; h; w] → 0 < h → 0 < w → 1 < b * h * w →
  ∃ y, nn_Sequential (Bottleneck.forward <$> selfs) x = Ok y ∧
       shape y = [b; planes * 4; h; w].
Proof.
  intros Himpl. revert x.
  induction Himpl as [|self selfs Hs _ IH]; intros x Hx Hh Hw Hn.
  - by exists x.
  - assert ((h - 1) / 1 + 1 = h) as Eh by (rewrite Nat.div_1_r; lia).
    assert ((w - 1) / 1 + 1 = w) as Ew by (rewrite Nat.div_1_r; lia).
    destruct (bottleneck_forward_shape self (planes * Bottleneck.expansion) planes 1
                None x b h w (shortcut_fits_next planes) Hs)
      as (y & Hrun & Hy); [lia|done..|by rewrite Eh, Ew|].
    rewrite Eh, Ew in Hy.
    destruct (IH y Hy Hh Hw Hn) as (z & Hz & Hsz). exists z. split; [|done].
    rewrite fmap_cons.
    rewrite (nn_Sequential_cons (Bottleneck.forward self) (Bottleneck.forward <$> selfs) x).
    by rewrite (bind_Ok _ _ _ Hrun).
Qed.

Lemma layer_forward_shape inplanes planes blocks stride
    (selfs : list (Bottleneck.t T)) (x : tensor T) b h w :
  Forall2 implements (Init._layer inplanes planes blocks stride).1 selfs →
  0 < stride → shape x = [b; inplanes; h; w] → 0 < h → 0 < w →
  1 < b * ((h - 1) / stride + 1) * ((w - 1) / stride + 1) →
  ∃ y, nn_Sequential (Bottleneck.forward <$> selfs) x = Ok y ∧
       shape y = [b; planes * 4; (h - 1) / stride + 1; (w - 1) / stride + 1].
Proof.
  intros Himpl Hs Hx Hh Hw Hn. rewrite layer_blocks in Himpl. simpl in Himpl.
  apply Forall2_cons_inv_l in Himpl as (self & rest & Hfirst & Hrest & ->).
  destruct (bottleneck_forward_shape self inplanes planes stride _
              x b h w (shortcut_fits_first inplanes planes stride) Hfirst)
    as (y & Hrun & Hy); [done..|].
  assert (Forall (implements
                    (Bottleneck.__init__ (planes * Bottleneck.expansion) planes 1 None 64))
            rest) as Hall.
  { apply Forall_forall. intros s Hin.
    apply list_elem_of_lookup in Hin as [i Hi].
    destruct (Forall2_lookup_r _ _ _ _ _ Hrest Hi) as (cfg & Hcfg & Himp).
    by apply lookup_replicate in Hcfg as [-> _]. }
  destruct (blocks_keep_shape rest planes y b _ _ Hall Hy) as (z & Hz & Hsz);
    [lia..|done|].
  exists z. split; [|done].
  rewrite fmap_cons.
  rewrite (nn_Sequential_cons (Bottleneck.forward self) (Bottleneck.forward <$> rest) x).
  by rewrite (bind_Ok _ _ _ Hrun).
Qed.

(** The layers that the heads share: the stem, [layer1], [layer2] and a
    third layer of stride 1 or 2. *)
Lemma trunk_shape (conv1 bn1 relu maxpool : module T)
    (blocks1 blocks2 blocks3 : list (Bottleneck.t T)) (l0 l1 l2 : Z) (lfm : bool)
    (x : tensor T) b h w :
  conv_like (Conv2d 3 64 7 2 3) conv1 → bn_like 64 bn1 → relu_like relu →
  pool_like (MaxPool2d 3 2 1) maxpool →
  Forall2 implements (Init._layer 64 64 l0 1).1 blocks1 →
  Forall2 implements (Init._layer 256 128 l1 2).1 blocks2 →
  Forall2 implements (Init._layer 512 256 l2 (if lfm then 1 else 2)).1 blocks3 →
  shape x = [b; 3; h; w] → 0 < h → 0 < w →
  1 < b * feature_size lfm h * feature_size lfm w →
  ∃ y,
    chain [conv1; bn1; relu; maxpool;
           nn_Sequential (Bottleneck.forward <$> blocks1);
           nn_Sequential (Bottleneck.forward <$> blocks2);
           nn_Sequential (Bottleneck.forward <$> blocks3)] x = Ok y ∧
    shape y = [b; 1024; feature_size lfm h; feature_size lfm w].
Proof.
  intros Hc1 Hbn Hrelu Hpool Hb1 Hb2 Hb3 Hx Hh Hw Hn.
  set (h1 := halve h). set (w1 := halve w).
  set (h2 := halve h1). set (w2 := halve w1).
  set (h3 := halve h2). set (w3 := halve w2).
  assert (0 < h1 ∧ 0 < w1 ∧ 0 < h2 ∧ 0 < w2 ∧ 0 < h3 ∧ 0 < w3)
    as (Hh1 & Hw1 & Hh2 & Hw2 & Hh3 & Hw3) by (repeat split; apply halve_pos).
  assert (h3 ≤ h2 ∧ w3 ≤ w2 ∧ h2 ≤ h1 ∧ w2 ≤ w1) as (Lh3 & Lw3 & Lh2 & Lw2)
    by (repeat split; by apply halve_le).
  pose proof (feature_size_le lfm h) as Lfh. pose proof (feature_size_le lfm w) as Lfw.
  fold h1 h2 h3 in Lfh. fold w1 w2 w3 in Lfw.
  assert (1 < b * h3 * w3) as Hn3 by (by apply (more_values b h3 w3 _ _ Lfh Lfw)).
  assert (1 < b * h2 * w2) as Hn2 by (by apply (more_values b h2 w2 _ _ Lh3 Lw3)).
  assert (1 < b * h1 * w1) as Hn1 by (by apply (more_values b h1 w1 _ _ Lh2 Lw2)).
  destruct (Hc1 x [b; 64; h1; w1]) as (x1 & R1 & S1).
  { rewrite Hx. unfold conv_shape. cbn [in_channels out_channels kernel_size
      conv_stride conv_padding]. rewrite decide_True by lia. unfold h1, w1, halve.
    by replace (h + 2 * 3 - 7) with (h - 1) by lia;
       replace (w + 2 * 3 - 7) with (w - 1) by lia. }
  destruct (Hbn x1 b h1 w1 S1 Hn1) as (x2 & R2 & S2).
  destruct (Hrelu x2 _ _ _ _ S2) as (x3 & R3 & S3).
  destruct (Hpool x3 [b; 64; h2; w2]) as (x4 & R4 & S4).
  { rewrite S3. unfold pool_shape. cbn [pool_kernel pool_stride pool_padding].
    rewrite decide_True by lia. unfold h2, w2, halve.
    by replace (h1 + 2 * 1 - 3) with (h1 - 1) by lia;
       replace (w1 + 2 * 1 - 3) with (w1 - 1) by lia. }
  assert ((h2 - 1) / 1 + 1 = h2) as Eh2 by (rewrite Nat.div_1_r; lia).
  assert ((w2 - 1) / 1 + 1 = w2) as Ew2 by (rewrite Nat.div_1_r; lia).
  destruct (layer_forward_shape 64 64 l0 1 blocks1 x4 b h2 w2 Hb1 ltac:(lia) S4)
    as (x5 & R5 & S5); [done|done|by rewrite Eh2, Ew2|].
  rewrite Eh2, Ew2 in S5.
  destruct (layer_forward_shape 256 128 l1 2 blocks2 x5 b h2 w2 Hb2 ltac:(lia) S5)
    as (x6 & R6 & S6); [done|done|exact Hn3|].
  fold (halve h2) (halve w2) in S6. fold h3 w3 in S6.
  destruct (layer_forward_shape 512 256 l2 (if lfm then 1 else 2) blocks3 x6 b h3 w3
              Hb3 ltac:(destruct lfm; lia) S6)
    as (x7 & R7 & S7);
    [done|done|unfold h3, h2, h1, w3, w2, w1; by rewrite !feature_size_stride|].
  unfold h3, h2, h1, w3, w2, w1 in S7. rewrite !feature_size_stride in S7.
  exists x7. split; [|exact S7].
  rewrite chain_cons, R1. simpl. rewrite chain_cons, R2. simpl.
  rewrite chain_cons, R3. simpl. rewrite chain_cons, R4. simpl.
  rewrite chain_cons, R5. simpl. rewrite chain_cons, R6. simpl.
  rewrite chain_cons, R7. simpl. apply chain_nil.
Qed.

Lemma max_pool2d_shape (fm : tensor T) b c h w k s :
  shape fm = [b; c; h; w] → 0 < k → 0 < s → k ≤ h → k ≤ w →
  ∃ p, max_pool2d k s fm = Ok p ∧
    shape p = [b; c; (h - k) / s + 1; (w - k) / s + 1] ∧ wf p ∧
    ∀ i j y x, i < b → j < c → y < (h - k) / s + 1 → x < (w - k) / s + 1 →
      tget p [i; j; y; x] =
        Some (maximum (tabulate (k * k) (λ q,
                elem fm [i; j; y * s + q / k; x * s + q `mod` k]))).
Proof.
  intros Hfm Hk Hs Hh Hw. unfold max_pool2d. rewrite Hfm.
  rewrite decide_True by done.
  eexists. split; [done|]. split; [done|]. split.
  { unfold wf. simpl shape. simpl data. by rewrite length_tabulate. }
  intros i j y x Hi Hj Hy Hx.
  set (sh := [b; c; (h - k) / s + 1; (w - k) / s + 1]).
  pose proof (tget_tabulate sh (λ idx,
    match idx with
    | [i; j; y; x] =>
        maximum (tabulate (k * k) (λ q, elem fm [i; j; y * s + q / k; x * s + q `mod` k]))
    | _ => s0
    end) [i; j; y; x]) as Hg.
  simpl in Hg. apply Hg. repeat constructor; done.
Qed.

Lemma max_pool2d_too_small (fm : tensor T) b c h w k s :
  shape fm = [b; c; h; w] → h < k ∨ w < k →
  max_pool2d k s fm = Raise RuntimeError.
Proof.
  intros Hfm Hsmall. unfold max_pool2d. rewrite Hfm.
  by rewrite decide_False by lia.
Qed.

End BlockShape.

Lemma conv_zeros_like c : conv_like c (conv_zeros c).
Proof. intros x sh Hsh. unfold conv_zeros. rewrite Hsh. by eexists. Qed.

Lemma pool_zeros_like p : pool_like p (pool_zeros p).
Proof. intros x sh Hsh. unfold pool_zeros. rewrite Hsh. by eexists. Qed.

Lemma identity_relu_like : relu_like (identity : module Qc).
Proof. intros x b c h w Hx. by exists x. Qed.

Lemma bn_check_like n : bn_like n (bn_check n).
Proof.
  intros x b h w Hx Hn. exists x. split; [|done].
  unfold bn_check. rewrite Hx, decide_True by done.
  by rewrite decide_False by lia.
Qed.

Lemma bottleneck_example_implements cfg : implements cfg (bottleneck_example cfg).
Proof.
  unfold implements. simpl.
  repeat split; try apply conv_zeros_like; try apply bn_check_like;
    try apply identity_relu_like.
  destruct (cfg_downsample cfg) as [[c bn]|]; simpl; [|done].
  exists (conv_zeros c), (bn_check bn).
  split; [done|]. split; [apply conv_zeros_like|apply bn_check_like].
Qed.

Lemma bottleneck_examples_implement cfgs :
  Forall2 implements cfgs (bottleneck_example <$> cfgs).
Proof.
  apply Forall2_fmap_r, Forall_Forall2_diag, Forall_forall.
  intros cfg _. apply bottleneck_example_implements.
Qed.

Lemma init_ResNetCam_layers layers num_classes lfm cfg :
  Init.ResNetCam layers num_classes lfm = Ok cfg →
  ∃ l0 l1 l2 l3,
    cfg = {| Init.c_conv1 := Conv2d 3 64 7 2 3; Init.c_bn1 := 64;
             Init.c_maxpool := MaxPool2d 3 2 1;
             Init.c_layer1 := (Init._layer 64 64 l0 1).1;
             Init.c_layer2 := (Init._layer 256 128 l1 2).1;
             Init.c_layer3 := (Init._layer 512 256 l2 (if lfm then 1 else 2)).1;
             Init.c_layer4 := (Init._layer 1024 512 l3 1).1;
             Init.c_fc := (2048, num_classes) |}.
Proof.
  unfold Init.ResNetCam. intros Hcfg.
  destruct (list_getitem layers 0) as [l0|]; [|done].
  destruct (list_getitem layers 1) as [l1|]; [|done].
  destruct (list_getitem layers 2) as [l2|]; [|done].
  destruct (list_getitem layers 3) as [l3|]; [|done].
  exists l0, l1, l2, l3. simpl in Hcfg. injection Hcfg as <-. reflexivity.
Qed.

Lemma conv_shape_3x3_keep cin cout b h w :
  0 < h → 0 < w →
  conv_shape (Conv2d cin cout 3 1 1) [b; cin; h; w] = Some [b; cout; h; w].
Proof.
  intros Hh Hw. unfold conv_shape.
  cbn [in_channels out_channels kernel_size conv_stride conv_padding].
  rewrite decide_True by lia.
  replace ((h + 2 * 1 - 3) / 1 + 1) with h by (rewrite Nat.div_1_r; lia).
  by replace ((w + 2 * 1 - 3) / 1 + 1) with w by (rewrite Nat.div_1_r; lia).
Qed.

Lemma seq_zeros_like ls : seq_like ls (seq_zeros ls).
Proof. intros x sh Hsh. unfold seq_zeros. rewrite Hsh. by eexists. Qed.

Lemma init_ResNetSpg_layers layers num_classes lfm cfg :
  InitSpg.__init__ layers num_classes lfm = Ok cfg →
  ∃ l0 l1 l2 l3,
    InitSpg.c_conv1 cfg = Conv2d 3 64 7 2 3 ∧
    InitSpg.c_bn1 cfg = 64 ∧
    InitSpg.c_maxpool cfg = MaxPool2d 3 2 1 ∧
    InitSpg.c_layer1 cfg = (Init._layer 64 64 l0 1).1 ∧
    InitSpg.c_layer2 cfg = (Init._layer 256 128 l1 2).1 ∧
    InitSpg.c_SPG_A1 cfg = (Init._layer 512 256 1 (if lfm then 1 else 2)).1 ∧
    InitSpg.c_SPG_A2 cfg =
      replicate (Z.to_nat (l2 - 1)) (Bottleneck.__init__ 1024 256 1 None 64) ∧
    InitSpg.c_layer4 cfg = (Init._layer 1024 512 l3 1).1 ∧
    InitSpg.c_SPG_A4 cfg = Conv2d 2048 num_classes 1 1 0 ∧
    InitSpg.c_SPG_B_1a cfg = [LConv (Conv2d 1024 1024 3 1 1); LReLU] ∧
    InitSpg.c_SPG_B_2a cfg = [LConv (Conv2d 1024 1024 3 1 1); LReLU] ∧
    InitSpg.c_SPG_B_shared cfg =
      [LConv (Conv2d 1024 1024 3 1 1); LReLU; LConv (Conv2d 1024 1 1 1 0)] ∧
    InitSpg.c_SPG_C cfg =
      [LConv (Conv2d 2048 512 3 1 1); LReLU; LConv (Conv2d 512 1 1 1 0)].
Proof.
  unfold InitSpg.__init__. intros Hcfg.
  destruct (list_getitem layers 0) as [l0|]; [|done].
  destruct (list_getitem layers 1) as [l1|]; [|done].
  destruct (list_getitem layers 2) as [l2|]; [|done].
  destruct (list_getitem layers 3) as [l3|]; [|done].
  exists l0, l1, l2, l3.
  simpl in Hcfg. injection Hcfg as <-. simpl.
  repeat split; try reflexivity; by rewrite !foldl_snoc_const, ?length_seq.
Qed.

Section SpgTrunk.
Context {T : Type} `{Scalar T}.

Lemma Forall2_implements_replicate n cfg (selfs : list (Bottleneck.t T)) :
  Forall2 implements (replicate n cfg) selfs → Forall (implements cfg) selfs.
Proof.
  intros Hrest. apply Forall_forall. intros s Hin.
  apply list_elem_of_lookup in Hin as [i Hi].
  destruct (Forall2_lookup_r _ _ _ _ _ Hrest Hi) as (c & Hc & Himp).
  by apply lookup_replicate in Hc as [-> _].
Qed.

Lemma seq_shape_conv_relu cin cout b h w :
  0 < h → 0 < w →
  seq_shape [LConv (Conv2d cin cout 3 1 1); LReLU] [b; cin; h; w]
    = Some [b; cout; h; w].
Proof.
  intros Hh Hw. cbn [seq_shape]. by rewrite conv_shape_3x3_keep.
Qed.

Lemma seq_shape_conv_relu_conv cin mid cout b h w :
  0 < h → 0 < w →
  seq_shape [LConv (Conv2d cin mid 3 1 1); LReLU; LConv (Conv2d mid cout 1 1 0)]
            [b; cin; h; w]
    = Some [b; cout; h; w].
Proof.
  intros Hh Hw. cbn [seq_shape]. rewrite conv_shape_3x3_keep by done.
  cbn [mbind option_bind]. by rewrite conv_shape_1x1.
Qed.

End SpgTrunk.

(** * The claims *)

(** C1 — Plain multi-class CAM, closed form.  For a ResNetCam with
    [classif_type = "multi_class"], [forward(x, labels, return_cam=True)]
    returns a (B, H, W) tensor whose entry for sample [i] at pixel [(y, x)] is
    the mean over the channels of the last feature map weighted by the row
    [W[labels[i]]] of the classifier weights.  In particular, when the
    feature map has shape (1, C, H, W) and all its entries are one, every
    pixel equals the mean of that weight row; this uses only [a * 1 = a]. *)
Theorem ResNetCam_multi_class_closed_form {T} `{Scalar T}
    (self : ResNetCam.t T) (x fm : tensor T) (labels : list Z) (b c h w n : nat) :
  ResNetCam.classif_type self = "multi_class" →
  cam_features self x = Ok fm →
  shape fm = [b; c; h; w] → wf fm → b ≠ 0 →
  shape (ResNetCam.fc_weight self) = [n; c] → wf (ResNetCam.fc_weight self) →
  shape (ResNetCam.fc_bias self) = [n] →
  length labels = b → Forall (λ l, 0 ≤ l < Z.of_nat n)%Z labels →
  (∀ a : T, smul a s1 = a) →
  ∃ cams,
    ResNetCam.forward self x (LIndex labels) true = Ok (Cams cams) ∧
    shape cams = [b; h; w] ∧ wf cams ∧
    (∀ i l y x', labels !! i = Some l → y < h → x' < w →
       tget cams [i; y; x'] =
         Some (weighted_mean (ResNetCam.fc_weight self) fm c (Z.to_nat l) i y x')) ∧
    (b = 1 → Forall (λ v, v = s1) (data fm) →
     ∀ l y x', labels !! 0 = Some l → y < h → x' < w →
       tget cams [0; y; x'] = Some (smean (slab (ResNetCam.fc_weight self) (Z.to_nat l)))).
Proof.
  intros Hty Hfeat Hfm Hwf Hb Hw Hwfw Hbias Hlen Hl Hone.
  rewrite ResNetCam_forward_features, Hfeat. simpl.
  destruct (fc_logits_ok _ _ _ _ _ _ _ _ Hfm Hb Hw Hbias) as (lg & -> & _). simpl.
  rewrite decide_True by done.
  unfold ResNetCam.cam_multi_class, getitem.
  destruct (index_rows_spec _ _ _ labels Hw Hwfw Hl) as (cw0 & -> & Hsh0 & Hlen0 & Hrow).
  rewrite Hlen in Hsh0, Hlen0.
  destruct (cam_formula_spec cw0 fm cw0 b c h w Hfm Hwf Hlen0)
    as (cams & Hc & Hshape & Hwfc & Hget).
  simpl. rewrite Hc. simpl. exists cams. split; [done|]. split; [done|]. split; [done|].
  assert (Hclosed : ∀ i l y x', labels !! i = Some l → y < h → x' < w →
    tget cams [i; y; x'] =
      Some (weighted_mean (ResNetCam.fc_weight self) fm c (Z.to_nat l) i y x')).
  { intros i l y x' Hi Hy Hx.
    assert (i < b) by (rewrite <- Hlen; by eapply lookup_lt_Some).
    rewrite Hget by done. unfold weighted_mean. do 2 f_equal.
    apply tabulate_ext. intros k Hk. by rewrite (Hrow i l k). }
  split; [exact Hclosed|].
  intros -> Hall l y x' Hi Hy Hx. rewrite (Hclosed 0 l y x') by done.
  unfold weighted_mean. do 2 f_equal.
  assert (Z.to_nat l < n).
  { eapply Forall_lookup_1 in Hl; [|exact Hi]. simpl in Hl. lia. }
  rewrite (slab_row _ n c) by done.
  apply tabulate_ext. intros k Hk.
  assert (Hin : in_bounds [0; k; y; x'] (shape fm)).
  { rewrite Hfm. repeat constructor; lia. }
  pose proof (tget_elem fm _ Hin Hwf) as Hs.
  assert (elem fm [0; k; y; x'] = s1) as ->; [|apply Hone].
  unfold tget in Hs. rewrite decide_True in Hs by done.
  apply list_elem_of_lookup_2 in Hs.
  by eapply Forall_forall in Hall.
Qed.

Lemma ResNetCam_multi_class_closed_form_witness :
  ∃ cams,
    ResNetCam.forward (cam_example "multi_class") ones_1322 (LIndex [1%Z]) true
      = Ok (Cams cams) ∧
    shape cams = [1; 2; 2] ∧
    tget cams [0; 1; 0] =
      Some (weighted_mean (ResNetCam.fc_weight (cam_example "multi_class"))
              ones_1322 3 1 0 1 0) ∧
    tget cams [0; 1; 0] =
      Some (smean (slab (ResNetCam.fc_weight (cam_example "multi_class")) 1)).
Proof.
  destruct (ResNetCam_multi_class_closed_form
              (cam_example "multi_class") ones_1322 ones_1322 [1%Z] 1 3 2 2 2)
    as (cams & Hrun & Hshape & _ & Hclosed & Hones);
    [reflexivity | reflexivity | reflexivity | reflexivity | lia | reflexivity
    | reflexivity | reflexivity | reflexivity | repeat constructor; lia
    | intros a; apply Qcmult_1_r |].
  exists cams. split; [exact Hrun|]. split; [exact Hshape|]. split.
  - apply (Hclosed 0 1%Z 1 0); [reflexivity | lia | lia].
  - assert (Hf : Forall (λ v : Qc, v = s1) (data ones_1322)) by repeat constructor.
    apply (Hones eq_refl Hf 1%Z 1 0); [reflexivity | lia | lia].
Defined.

(** With equal classifiers and equal feature maps, ResNetAdl and the
    multi-class ResNetCam return the same CAM result, whatever [labels] is. *)
Lemma adl_forward_eq_cam_forward {T} `{Scalar T}
    (adl : ResNetAdl.t T) (cam : ResNetCam.t T) (x_adl x_cam : tensor T) labels :
  ResNetCam.classif_type cam = "multi_class" →
  ResNetAdl.fc_weight adl = ResNetCam.fc_weight cam →
  ResNetAdl.fc_bias adl = ResNetCam.fc_bias cam →
  adl_features adl x_adl = cam_features cam x_cam →
  ResNetAdl.forward adl x_adl labels true = ResNetCam.forward cam x_cam labels true.
Proof.
  intros Hty Hw Hb Hfeat.
  rewrite ResNetAdl_forward_features, ResNetCam_forward_features.
  rewrite Hfeat, Hw, Hb.
  destruct (cam_features cam x_cam) as [fm|]; simpl; [|done].
  destruct (fc_logits _ _ fm); simpl; [|done].
  rewrite decide_True by done.
  unfold ResNetAdl.cam, ResNetCam.cam_multi_class. by rewrite Hw.
Qed.

(** C5 — The ADL CAM is the plain multi-class CAM.  When [layer4] of a
    ResNetAdl returns the feature map [fm] of shape (B, C, H, W),
    [forward(x, labels, return_cam=True)] returns a (B, H, W) tensor whose
    entry for sample [i] at pixel [(y, x)] is the mean over the channels of
    [fm] weighted by the row [W[labels[i]]] of the classifier weights: rows
    selected by [labels], multiplied channel by channel, averaged over the
    channels.  A multi-class ResNetCam with the same classifier and the same
    feature map returns this very tensor; the two CAM computations agree on
    every feature map and every [labels], and so do the two [forward]
    calls. *)
Theorem ResNetAdl_cam_is_ResNetCam_cam {T} `{Scalar T}
    (adl : ResNetAdl.t T) (cam : ResNetCam.t T) (x_adl x_cam fm : tensor T)
    (labels : list Z) (b c h w n : nat) :
  ResNetCam.classif_type cam = "multi_class" →
  ResNetAdl.fc_weight adl = ResNetCam.fc_weight cam →
  ResNetAdl.fc_bias adl = ResNetCam.fc_bias cam →
  adl_features adl x_adl = Ok fm → cam_features cam x_cam = Ok fm →
  shape fm = [b; c; h; w] → wf fm → b ≠ 0 →
  shape (ResNetAdl.fc_weight adl) = [n; c] → wf (ResNetAdl.fc_weight adl) →
  shape (ResNetAdl.fc_bias adl) = [n] →
  length labels = b → Forall (λ l, 0 ≤ l < Z.of_nat n)%Z labels →
  (∃ cams,
     ResNetAdl.forward adl x_adl (LIndex labels) true = Ok (Cams cams) ∧
     shape cams = [b; h; w] ∧ wf cams ∧
     (∀ i l y x', labels !! i = Some l → y < h → x' < w →
        tget cams [i; y; x'] =
          Some (weighted_mean (ResNetAdl.fc_weight adl) fm c (Z.to_nat l) i y x')) ∧
     ResNetCam.forward cam x_cam (LIndex labels) true = Ok (Cams cams)) ∧
  (∀ fm' labels',
     ResNetAdl.cam adl fm' labels' = ResNetCam.cam_multi_class cam fm' labels') ∧
  (∀ labels',
     ResNetAdl.forward adl x_adl labels' true
       = ResNetCam.forward cam x_cam labels' true).
Proof.
  intros Hty Hw Hb Hadl Hcam Hfm Hwf Hb0 Hsw Hwfw Hsb Hlen Hl.
  assert (Heq : ∀ labels',
    ResNetAdl.forward adl x_adl labels' true
      = ResNetCam.forward cam x_cam labels' true).
  { intros labels'. apply adl_forward_eq_cam_forward; [done..|congruence]. }
  split; [|split; [|exact Heq]].
  - destruct (adl_cam_spec adl fm labels b c h w n Hfm Hwf Hsw Hwfw Hlen Hl)
      as (cams & Hrun & Hshape & Hwfc & Hget).
    exists cams.
    assert (ResNetAdl.forward adl x_adl (LIndex labels) true = Ok (Cams cams)) as Hfw.
    { rewrite ResNetAdl_forward_features, Hadl. simpl.
      destruct (fc_logits_ok _ _ _ _ _ _ _ _ Hfm Hb0 Hsw Hsb) as (lg & -> & _).
      simpl. by rewrite Hrun. }
    split; [exact Hfw|]. split; [done|]. split; [done|]. split; [exact Hget|].
    by rewrite <- Heq.
  - intros fm' labels'. unfold ResNetAdl.cam, ResNetCam.cam_multi_class.
    by rewrite Hw.
Qed.

Lemma ResNetAdl_cam_is_ResNetCam_cam_witness :
  ∃ cams,
    ResNetAdl.forward adl_example ramp_2312 (LIndex [1; 0]%Z) true = Ok (Cams cams) ∧
    shape cams = [2; 1; 2] ∧
    tget cams [0; 0; 1] =
      Some (weighted_mean (ResNetAdl.fc_weight adl_example) ramp_2312 3 1 0 0 1) ∧
    ResNetCam.forward (cam_example "multi_class") ramp_2312 (LIndex [1; 0]%Z) true
      = Ok (Cams cams).
Proof.
  destruct (ResNetAdl_cam_is_ResNetCam_cam adl_example (cam_example "multi_class")
              ramp_2312 ramp_2312 ramp_2312 [1; 0]%Z 2 3 1 2 2)
    as [(cams & Hrun & Hshape & _ & Hget & Hcam) _];
    [reflexivity | reflexivity | reflexivity | reflexivity | reflexivity
    | reflexivity | reflexivity | lia | reflexivity | reflexivity | reflexivity
    | reflexivity | repeat constructor; lia |].
  exists cams. split; [exact Hrun|]. split; [exact Hshape|]. split; [|exact Hcam].
  apply (Hget 0 1%Z 0 1); [reflexivity | lia | lia].
Defined.

(** C10, as stated, fails: with as many samples as classes,
    [forward(x, labels=None, return_cam=True)] of the multi-class ResNetCam
    does not raise. *)
Lemma ResNetCam_no_labels_may_return :
  ¬ raises (ResNetCam.forward (cam_example "multi_class") ramp_2312 LNone true).
Proof. intros [e He]. vm_compute in He. discriminate He. Qed.

(** C10, amended — ResNetCam (multi-class) and ResNetAdl do no argmax
    defaulting in CAM mode.  With [labels=None] the classifier weights are
    indexed by [None], which gives a tensor of shape (1, N, C); the two heads
    behave alike; for a non-empty feature map the call raises when the batch
    size differs from the number of classes, and when they are equal it
    returns the CAM in which sample [i] is weighted by row [W[i]] of the
    classifier weights, whatever the logits are. *)
Theorem no_labels_no_argmax {T} `{Scalar T}
    (cam : ResNetCam.t T) (adl : ResNetAdl.t T) (x_cam x_adl fm : tensor T)
    (b c h w n : nat) :
  ResNetCam.classif_type cam = "multi_class" →
  cam_features cam x_cam = Ok fm → adl_features adl x_adl = Ok fm →
  shape fm = [b; c; h; w] → wf fm → b ≠ 0 → c ≠ 0 →
  shape (ResNetCam.fc_weight cam) = [n; c] → wf (ResNetCam.fc_weight cam) →
  shape (ResNetCam.fc_bias cam) = [n] →
  ResNetAdl.fc_weight adl = ResNetCam.fc_weight cam →
  ResNetAdl.fc_bias adl = ResNetCam.fc_bias cam →
  ResNetAdl.forward adl x_adl LNone true = ResNetCam.forward cam x_cam LNone true ∧
  (b ≠ n → ResNetCam.forward cam x_cam LNone true = Raise RuntimeError) ∧
  (b = n →
   ∃ cams, ResNetCam.forward cam x_cam LNone true = Ok (Cams cams) ∧
     shape cams = [b; h; w] ∧
     ∀ i y x', i < b → y < h → x' < w →
       tget cams [i; y; x'] =
         Some (weighted_mean (ResNetCam.fc_weight cam) fm c i i y x')).
Proof.
  intros Hty Hfc Hfa Hfm Hwf Hb Hc Hw Hwfw Hbias Hwa Hba.
  split.
  { apply adl_forward_eq_cam_forward; auto. congruence. }
  rewrite ResNetCam_forward_features, Hfc. simpl.
  destruct (fc_logits_ok _ _ _ _ _ _ _ _ Hfm Hb Hw Hbias) as (lg & -> & _). simpl.
  rewrite decide_True by done.
  unfold ResNetCam.cam_multi_class, getitem.
  assert (Hlen : length (data (index_none (ResNetCam.fc_weight cam))) = n * c).
  { simpl. rewrite Hwfw, Hw. simpl. lia. }
  split.
  - intros Hne. simpl. rewrite Hfm. simpl take.
    change ((Some <$> [b; c]) ++ [Some 1; Some 1])
      with (Some <$> [b; c; 1; 1] : list (option nat)).
    rewrite view_mismatch; [done|].
    rewrite Hlen. simpl. nia.
  - intros <-.
    destruct (cam_formula_spec (ResNetCam.fc_weight cam) fm
                (index_none (ResNetCam.fc_weight cam)) b c h w Hfm Hwf Hlen)
      as (cams & Hcams & Hshape & _ & Hget).
    simpl. simpl in Hcams. rewrite Hcams. simpl.
    exists cams. split; [done|]. split; [done|].
    intros i y x' Hi Hy Hx. rewrite Hget by done.
    unfold weighted_mean. do 2 f_equal. apply tabulate_ext. intros k Hk.
    rewrite (elem_lookup (ResNetCam.fc_weight cam))
      by (rewrite Hw; repeat constructor; done).
    rewrite Hw. simpl. do 3 f_equal. lia.
Qed.

Lemma no_labels_no_argmax_witness :
  ResNetAdl.forward adl_example ramp_2312 LNone true
    = ResNetCam.forward (cam_example "multi_class") ramp_2312 LNone true ∧
  ∃ cams,
    ResNetCam.forward (cam_example "multi_class") ramp_2312 LNone true
      = Ok (Cams cams) ∧
    shape cams = [2; 1; 2] ∧
    tget cams [1; 0; 1] =
      Some (weighted_mean (ResNetCam.fc_weight (cam_example "multi_class"))
              ramp_2312 3 1 1 0 1).
Proof.
  destruct (no_labels_no_argmax (cam_example "multi_class") adl_example
              ramp_2312 ramp_2312 ramp_2312 2 3 1 2 2)
    as (Hsame & _ & Hret);
    [reflexivity | reflexivity | reflexivity | reflexivity | reflexivity
    | lia | lia | reflexivity | reflexivity | reflexivity | reflexivity
    | reflexivity |].
  split; [exact Hsame|].
  destruct (Hret eq_refl) as (cams & Hrun & Hshape & Hget).
  exists cams. split; [exact Hrun|]. split; [exact Hshape|].
  apply Hget; lia.
Defined.

(** C3 — ACoL fused CAM.  [ResNetAcol.forward] with [return_cam=True]
    normalizes the score map of each branch on its own with
    [normalize_tensor], takes the elementwise maximum of the two normalized
    maps, and returns for sample [i] the channel [labels[i]] of that maximum:
    a (B, H, W) tensor whose entries are the maximum of the two normalized
    entries. *)
Theorem ResNetAcol_fused_cam {T} `{Scalar T}
    (normalize_tensor : tensor T → result (tensor T))
    (self : ResNetAcol.t T) (x feature fa fb na nb : tensor T)
    (d : gmap string (tensor T)) (labels : list Z) (b c h w : nat) :
  size x 0 = Ok b →
  acol_features self x = Ok feature →
  ResNetAcol._acol_logits self feature (LIndex labels)
    (ResNetAcol.drop_threshold self) = Ok d →
  d !! "feat_map_a" = Some fa → d !! "feat_map_b" = Some fb →
  normalize_tensor fa = Ok na → normalize_tensor fb = Ok nb →
  shape na = [b; c; h; w] → shape nb = [b; c; h; w] →
  length labels = b → Forall (λ l, 0 ≤ l < Z.of_nat c)%Z labels →
  ∃ cams,
    ResNetAcol.forward normalize_tensor self x (LIndex labels) true = Ok (Cams cams) ∧
    shape cams = [b; h; w] ∧
    ∀ i l y x', labels !! i = Some l → y < h → x' < w →
      tget cams [i; y; x'] =
        Some (smax (elem na [i; Z.to_nat l; y; x']) (elem nb [i; Z.to_nat l; y; x'])).
Proof.
  intros Hb Hfeat Hd Hfa Hfb Hna Hnb Hsa Hsb Hlen Hl.
  rewrite ResNetAcol_forward_features, Hb, Hfeat. simpl. rewrite Hd. simpl.
  unfold dict_get. rewrite Hfa, Hfb. simpl. rewrite Hna, Hnb. simpl.
  destruct (bzip_same_shape smax na nb _ Hsa Hsb) as (m & Hm & Hsm & Hwfm & Hgm).
  unfold tmax. rewrite Hm. simpl.
  destruct (index_pairs_spec m b c h w labels Hsm Hwfm Hlen Hl)
    as (cams & Hc & Hsc & _ & Hgc).
  rewrite Hc. simpl. exists cams. split; [done|]. split; [done|].
  intros i l y x' Hi Hy Hx. rewrite (Hgc i l y x') by done. f_equal.
  apply tget_Some_elem. apply Hgm.
  assert (i < b) by (rewrite <- Hlen; by eapply lookup_lt_Some).
  eapply Forall_lookup_1 in Hl; [|exact Hi]. simpl in Hl.
  repeat constructor; lia.
Qed.

Lemma ResNetAcol_fused_cam_witness :
  ∃ cams,
    ResNetAcol.forward normalize_minmax acol_example ramp_2312 (LIndex [1; 0]%Z) true
      = Ok (Cams cams) ∧
    shape cams = [2; 1; 2] ∧
    values cams = [2 # 3; 1; 0; 1 # 3]%Q.
Proof.
  destruct (ResNetAcol_fused_cam normalize_minmax acol_example ramp_2312 ramp_2312
              (qtensor [2; 2; 1; 2] [1; 2; 3; 4; 5; 6; 7; 8]%Z)
              (qtensor [2; 2; 1; 2] [8; 6; 4; 2; 0; 0; 10; 5]%Z)
              (Tensor [2; 2; 1; 2]
                 (Q2Qc <$> [0; 1 # 3; 2 # 3; 1; 0; 1 # 3; 2 # 3; 1]%Q))
              (Tensor [2; 2; 1; 2]
                 (Q2Qc <$> [1; 2 # 3; 1 # 3; 0; 0; 0; 1; 1 # 2]%Q))
              (<[ "feat_map_a" := qtensor [2; 2; 1; 2] [1; 2; 3; 4; 5; 6; 7; 8]%Z ]>
               {[ "feat_map_b" := qtensor [2; 2; 1; 2] [8; 6; 4; 2; 0; 0; 10; 5]%Z ]})
              [1; 0]%Z 2 2 1 2)
    as (cams & Hrun & Hshape & _);
    [reflexivity | reflexivity | reflexivity | reflexivity | reflexivity
    | | | reflexivity | reflexivity | reflexivity | repeat constructor; lia |].
  - unfold normalize_minmax. simpl shape. cbv iota beta. do 2 f_equal.
    apply (list_eq_Forall2 _ _). vm_compute.
    repeat constructor; apply Qc_is_canon; reflexivity.
  - unfold normalize_minmax. simpl shape. cbv iota beta. do 2 f_equal.
    apply (list_eq_Forall2 _ _). vm_compute.
    repeat constructor; apply Qc_is_canon; reflexivity.
  - exists cams. split; [exact Hrun|]. split; [exact Hshape|].
    assert (Hv : cams_values (Ok (Cams cams)) = Some ([2; 1; 2], [2 # 3; 1; 0; 1 # 3]%Q)).
    { rewrite <- Hrun. vm_compute. reflexivity. }
    by injection Hv.
Defined.

(** C9 — The CAM of ResNetSpg is the raw label channel of the score map.
    With [return_cam=True], [ResNetSpg.forward] returns a (B, H, W) tensor
    whose entry for sample [i] is the entry of the [SPG_A4] score map of that
    sample in channel [labels[i]], where [labels] is what was supplied or the
    argmax default: the entries are not normalized and do not depend on what
    [compute_attention] returned. *)
Theorem ResNetSpg_cam_is_raw_slice {T} `{Scalar T}
    (compute_attention :
       tensor T → labels_arg T → tensor T → tensor T → result (tensor T * tensor T))
    (self : ResNetSpg.t T) (x logits : tensor T) (maps : spg_maps T)
    (larg : labels_arg T) (labels : list Z) (att : tensor T * tensor T)
    (b c h w : nat) :
  size x 0 = Ok b →
  spg_trunk self x = Ok maps →
  shape (feat_map maps) = [b; c; h; w] → wf (feat_map maps) →
  spg_logits (feat_map maps) = Ok logits →
  ResNetSpg.default_labels logits larg = Ok (LIndex labels) →
  length labels = b → Forall (λ l, 0 ≤ l < Z.of_nat c)%Z labels →
  compute_attention (feat_map maps) (LIndex labels) (logits_b1 maps) (logits_b2 maps)
    = Ok att →
  ∃ cams,
    ResNetSpg.forward compute_attention self x larg true = Ok (Cams cams) ∧
    shape cams = [b; h; w] ∧
    ∀ i l y x', labels !! i = Some l → y < h → x' < w →
      tget cams [i; y; x'] = Some (elem (feat_map maps) [i; Z.to_nat l; y; x']).
Proof.
  intros Hb Htrunk Hsh Hwf Hlogits Hdef Hlen Hl Hatt.
  rewrite ResNetSpg_forward_trunk, Hb. simpl. rewrite Htrunk. simpl.
  rewrite Hlogits. simpl. rewrite Hdef. simpl. rewrite Hatt. simpl.
  destruct (index_pairs_spec (feat_map maps) b c h w labels Hsh Hwf Hlen Hl)
    as (cams & Hc & Hsc & _ & Hgc).
  rewrite Hc. simpl. exists cams. done.
Qed.

Lemma ResNetSpg_cam_is_raw_slice_witness :
  ∃ cams,
    ResNetSpg.forward attention_example spg_example scores_2212 (LIndex [0; 1]%Z) true
      = Ok (Cams cams) ∧
    shape cams = [2; 1; 2] ∧
    tget cams [1; 0; 1] = Some (elem scores_2212 [1; 1; 0; 1]).
Proof.
  destruct (spg_logits_ok scores_2212 2 2 1 2 eq_refl) as (logits & Hlogits & _).
  destruct (ResNetSpg_cam_is_raw_slice attention_example spg_example scores_2212
              logits
              (SpgMaps scores_2212 scores_2212 scores_2212 scores_2212)
              (LIndex [0; 1]%Z) [0; 1]%Z
              (qtensor [2; 1; 2] [1; 2; 3; 4]%Z, qtensor [2; 1; 2] [1; 2; 3; 4]%Z)
              2 2 1 2)
    as (cams & Hrun & Hshape & Hget);
    [reflexivity | reflexivity | reflexivity | reflexivity | exact Hlogits
    | reflexivity | reflexivity | repeat constructor; lia | reflexivity |].
  exists cams. split; [exact Hrun|]. split; [exact Hshape|].
  apply (Hget 1 1%Z 0 1); [reflexivity | lia | lia].
Defined.

(** C4 — SPG implicit self-labeling.  When [ResNetSpg.forward] is called
    with [labels=None], it behaves as if it had been called with the
    per-sample argmax of the pooled [SPG_A4] logits: these labels go to
    [compute_attention] and select the CAM channel.  Labels that are supplied
    are used as they are.  So the output can differ between supplying a label
    and withholding it: on [scores_2212] the CAM for the labels [0; 1] is
    not the CAM returned without labels. *)
Theorem ResNetSpg_implicit_self_labeling {T} `{Scalar T}
    (compute_attention :
       tensor T → labels_arg T → tensor T → tensor T → result (tensor T * tensor T))
    (self : ResNetSpg.t T) (x : tensor T) (maps : spg_maps T) (b c h w bs : nat) :
  (∀ a : T, sltb a a = false) →
  (∀ a1 a2 a3 : T, sltb a1 a2 = true → sltb a2 a3 = true → sltb a1 a3 = true) →
  size x 0 = Ok bs →
  spg_trunk self x = Ok maps →
  shape (feat_map maps) = [b; c; h; w] → c ≠ 0 →
  ∃ logits am,
    spg_logits (feat_map maps) = Ok logits ∧
    argmax_dim1 logits = Ok am ∧ length am = b ∧
    (∀ i l k, am !! i = Some l → k < c →
       (0 ≤ l < Z.of_nat c)%Z ∧
       sltb (elem logits [i; Z.to_nat l]) (elem logits [i; k]) = false) ∧
    (∀ return_cam,
       ResNetSpg.forward compute_attention self x LNone return_cam
         = ResNetSpg.forward compute_attention self x (LIndex am) return_cam) ∧
    (∀ l,
       ResNetSpg.forward compute_attention self x (LIndex l) true
         = (_ ← compute_attention (feat_map maps) (LIndex l)
                  (logits_b1 maps) (logits_b2 maps);
            cams ← getitem_range (feat_map maps) bs (LIndex l);
            Ok (Cams cams))) ∧
    cams_values (ResNetSpg.forward attention_example spg_example scores_2212
                   LNone true)
      ≠ cams_values (ResNetSpg.forward attention_example spg_example scores_2212
                       (LIndex [0; 1]%Z) true).
Proof.
  intros Hirr Htr Hbs Htrunk Hsh Hc.
  destruct (spg_logits_ok (feat_map maps) b c h w Hsh) as (logits & Hlogits & Hls & Hlwf).
  destruct (argmax_dim1_spec logits b c Hls Hlwf Hc) as (am & Ham & Hlen & Hr & Hmax).
  exists logits, am. split; [done|]. split; [done|]. split; [done|]. split.
  { intros i l k Hi Hk. split.
    - by eapply Forall_lookup_1 in Hr.
    - by eapply Hmax. }
  split.
  { intros rc. rewrite !ResNetSpg_forward_trunk, Hbs. simpl. rewrite Htrunk. simpl.
    rewrite Hlogits. simpl. by rewrite Ham. }
  split.
  { intros l. rewrite ResNetSpg_forward_trunk, Hbs. simpl. rewrite Htrunk. simpl.
    rewrite Hlogits. simpl. by destruct (compute_attention _ _ _ _). }
  vm_compute. discriminate.
Qed.

Lemma ResNetSpg_implicit_self_labeling_witness :
  ∃ logits am,
    spg_logits scores_2212 = Ok logits ∧
    argmax_dim1 logits = Ok am ∧ length am = 2 ∧
    (∀ return_cam,
       ResNetSpg.forward attention_example spg_example scores_2212 LNone return_cam
         = ResNetSpg.forward attention_example spg_example scores_2212
             (LIndex am) return_cam).
Proof.
  destruct (ResNetSpg_implicit_self_labeling attention_example spg_example
              scores_2212 (SpgMaps scores_2212 scores_2212 scores_2212 scores_2212)
              2 2 1 2 2)
    as (logits & am & Hlogits & Ham & Hlen & _ & Hnone & _);
    [ | | reflexivity | reflexivity | reflexivity | lia |].
  - intros a. simpl. by rewrite (proj1 (Qceq_alt a a) eq_refl).
  - intros a1 a2 a3. simpl.
    destruct (a1 ?= a2)%Qc eqn:H12; try discriminate.
    destruct (a2 ?= a3)%Qc eqn:H23; try discriminate.
    intros _ _. apply Qclt_alt in H12, H23.
    by rewrite (proj1 (Qclt_alt a1 a3) (Qclt_trans _ _ _ H12 H23)).
  - exists logits, am. split; [exact Hlogits|]. split; [exact Ham|].
    split; [exact Hlen|]. exact Hnone.
Defined.

(** C6 — Fail-fast on an unknown method name.  A factory called with a
    [wsol_method] that is not a key of its dictionary of constructors raises
    [KeyError] at the dictionary lookup: the trace of the call is empty, so
    no constructor has run and nothing has been loaded. *)
Theorem factories_fail_fast {V} (w : world V) (wsol_method : string)
    (pretrained : bool) (pretrained_path : option string)
    (kwargs : gmap string pyval) (tr : list event) :
  (wsol_method ∉ ["cam"; "grad_cam"; "acol"; "spg"; "adl"] →
   resnet50 w wsol_method pretrained pretrained_path kwargs tr
     = (Raise (KeyError wsol_method), tr)) ∧
  (wsol_method ∉ ["grad_cam"; "graph_cam"; "addgraph_cam"] →
   resnet101 w wsol_method pretrained pretrained_path kwargs tr
     = (Raise (KeyError wsol_method), tr)) ∧
  (wsol_method ∉ ["grad_cam"; "graph_cam"] →
   resnext50 w wsol_method pretrained pretrained_path kwargs tr
     = (Raise (KeyError wsol_method), tr)).
Proof.
  split; [|split]; intros Hnot;
    repeat (apply not_elem_of_cons in Hnot as [? Hnot]).
  - unfold resnet50, lookup_or_KeyError, resnet50_methods.
    rewrite !lookup_insert_ne, lookup_singleton_ne by done. done.
  - unfold resnet101, lookup_or_KeyError, resnet101_methods.
    rewrite !lookup_insert_ne, lookup_singleton_ne by done. done.
  - unfold resnext50, lookup_or_KeyError, resnext50_methods.
    rewrite !lookup_insert_ne, lookup_singleton_ne by done. done.
Qed.

Lemma factories_fail_fast_witness :
  resnet50 world_example "graph_cam" true None (kwargs_example "CUB" 200) []
    = (Raise (KeyError "graph_cam"), []) ∧
  resnet101 world_example "cam" true None (kwargs_example "CUB" 200) []
    = (Raise (KeyError "cam"), []) ∧
  resnext50 world_example "addgraph_cam" true None (kwargs_example "CUB" 200) []
    = (Raise (KeyError "addgraph_cam"), []).
Proof.
  split; [|split].
  - apply (factories_fail_fast world_example "graph_cam" true None
             (kwargs_example "CUB" 200) []).
    apply (bool_decide_unpack _). vm_compute. exact I.
  - apply (factories_fail_fast world_example "cam" true None
             (kwargs_example "CUB" 200) []).
    apply (bool_decide_unpack _). vm_compute. exact I.
  - apply (factories_fail_fast world_example "addgraph_cam" true None
             (kwargs_example "CUB" 200) []).
    apply (bool_decide_unpack _). vm_compute. exact I.
Defined.

(** C7, as stated, fails in both directions.  With the ImageNet dataset and
    1000 classes nothing differs from the pretrained source, yet the ACoL
    model is loaded leniently; with another dataset and 200 classes, a
    checkpoint given by path is loaded strictly, and so is the download when
    only the class count differs. *)
Lemma load_pretrained_not_by_difference :
  (differs_from_pretrained (kwargs_example "ILSVRC" 1000) = false ∧
   last_load_strict
     (resnet50 world_example "acol" true None (kwargs_example "ILSVRC" 1000) []).2
     = Some false) ∧
  (differs_from_pretrained (kwargs_example "CUB" 200) = true ∧
   last_load_strict
     (resnet50 world_example "cam" true (Some "ckpt.pth") (kwargs_example "CUB" 200) []).2
     = Some true) ∧
  (differs_from_pretrained (kwargs_example "ILSVRC" 200) = true ∧
   last_load_strict
     (resnet50 world_example "cam" true None (kwargs_example "ILSVRC" 200) []).2
     = Some true).
Proof. vm_compute. repeat split. Qed.

(** C7, amended — [load_pretrained] loads leniently exactly when no
    checkpoint path is given and the dataset name is not 'ILSVRC' or the
    method is 'acol' or 'spg': then the keys that mention 'fc' are removed
    from the state dict and [load_state_dict] is called with [strict=False],
    which does not fail on a key mismatch.  In every other case the state
    dict is passed as it is with [strict=True], and a key mismatch raises with
    the sets of missing and unexpected keys. *)
Theorem load_pretrained_lenient_iff {V} (w : world V) (model : nn_model V)
    (wsol_method architecture : string) (path : option string)
    (kwargs : gmap string pyval) (sd : gmap string V) (tr tr' : list event) :
  fetch_state_dict w wsol_method architecture path tr = (Ok sd, tr') →
  (path = None → is_Some (kwargs !! "dataset_name")) →
  ∃ lenient : bool,
    (lenient = true ↔
       path = None ∧
       (kwargs !! "dataset_name" ≠ Some (PStr "ILSVRC")
        ∨ wsol_method = "acol" ∨ wsol_method = "spg")) ∧
    load_pretrained w model wsol_method architecture path kwargs tr
      = (load_state_dict model (if lenient then remove_layer sd "fc" else sd)
           (negb lenient),
         tr' ++ [ELoadStateDict (model_cls model)
                   (dom (if lenient then remove_layer sd "fc" else sd))
                   (negb lenient)]) ∧
    (∀ k, k ∈ dom (remove_layer sd "fc") ↔ k ∈ dom sd ∧ contains "fc" k = false) ∧
    (∀ d, ∃ m', load_state_dict model d false = Ok m') ∧
    (∀ d, dom d ≠ dom (params model) →
       load_state_dict model d true =
         Raise (StateDictError (dom (params model) ∖ dom d)
                               (dom d ∖ dom (params model)))) ∧
    (∀ d, dom d = dom (params model) → ∃ m', load_state_dict model d true = Ok m').
Proof.
  intros Hfetch Hds.
  destruct (lenient_condition_spec wsol_method path kwargs Hds) as (lenient & Hl & Hiff).
  exists lenient. split; [exact Hiff|]. split.
  { by rewrite load_pretrained_fetch, Hfetch, Hl. }
  split; [apply dom_remove_layer|].
  split; [apply load_state_dict_lenient|].
  split; [apply load_state_dict_strict_mismatch|apply load_state_dict_strict_match].
Qed.

Lemma load_pretrained_lenient_iff_witness :
  ∃ lenient : bool,
    (lenient = true ↔
       (None : option string) = None ∧
       (kwargs_example "CUB" 200 !! "dataset_name" ≠ Some (PStr "ILSVRC")
        ∨ "cam" = "acol" ∨ "cam" = "spg")) ∧
    last_load_strict
      (load_pretrained world_example (NnModel CResNetCam ∅) "cam" "resnet50" None
         (kwargs_example "CUB" 200) []).2 = Some (negb lenient).
Proof.
  destruct (load_pretrained_lenient_iff world_example (NnModel CResNetCam ∅)
              "cam" "resnet50" None (kwargs_example "CUB" 200)
              (<[ "conv1.weight" := 1 ]> (<[ "fc.weight" := 2 ]> {[ "fc.bias" := 3 ]}))
              [] [ELoadUrl "https://download.pytorch.org/models/resnet50-19c8e357.pth"])
    as (lenient & Hiff & Hrun & _).
  - reflexivity.
  - intros _. exists (PStr "CUB"). reflexivity.
  - exists lenient. split; [exact Hiff|].
    rewrite Hrun. reflexivity.
Defined.

(** C2 — The multi-label CAM at a batch of two.  For two samples with both
    classes present, the map that [ResNetCam.forward] returns at position
    [0][1] is the channel mean of the feature map of sample 1 (not of
    sample 0) weighted by [W[1]]: the views (c, b, ...) and (b, c, ...) of the
    same storage pair class weights with the feature maps of other samples. *)
Theorem ResNetCam_multi_label_batch_of_two :
  ∃ cams,
    ResNetCam.forward (cam_example "multi_label") ramp_2312 (LMask all_present_22) true
      = Ok (Cams cams) ∧
    shape cams = [2; 2; 1; 2] ∧
    values cams = [22 # 3; 28 # 3; 50; 166 # 3; 22 # 3; 28 # 3; 50; 166 # 3]%Q ∧
    value_at cams [0; 1; 0; 0]
      = Some (this (weighted_mean (ResNetCam.fc_weight (cam_example "multi_label"))
                      ramp_2312 3 1 1 0 0)) ∧
    value_at cams [0; 1; 0; 0]
      ≠ Some (this (weighted_mean (ResNetCam.fc_weight (cam_example "multi_label"))
                      ramp_2312 3 1 0 0 0)).
Proof.
  eexists. split; [vm_compute; reflexivity|].
  split; [reflexivity|]. split; [vm_compute; reflexivity|].
  split; [vm_compute; reflexivity|]. vm_compute. discriminate.
Qed.

(** C8, as stated, fails for block indices of two digits: the keys are
    visited in reverse string order, in which 'layer3.10.w' comes before
    'layer3.9.w'.  The entry of 'layer3.9.w' is written over the entry of
    'layer3.10.w' and then moved once more; the claim would have entry 1 at
    'layer3.10.w' and entry 2 at 'layer3.11.w'. *)
Lemma align_layer_two_digit_blocks :
  layer_key 3 9 "w" = "layer3.9.w" ∧ layer_key 3 10 "w" = "layer3.10.w" ∧
  layer_key 3 (9 + adl_shift 3 9) "w" = "layer3.10.w" ∧
  layer_key 3 (10 + adl_shift 3 10) "w" = "layer3.11.w" ∧
  ∃ sd', align_layer state_dict_two_digits = Ok sd' ∧
    sd' !! "layer3.10.w" = None ∧ sd' !! "layer3.11.w" = Some 1.
Proof.
  repeat (split; [reflexivity|]).
  eexists. split; [vm_compute; reflexivity|]. split; reflexivity.
Qed.

(** C8, amended — On a state dict in which every key that mentions 'layer'
    has the form 'layer{L}.{B}.rest' with L at most 4 and a block index that
    stays a single digit after the shift (every ResNet-50 checkpoint is
    one), [align_layer] moves the entry of such a key to block index B plus
    the number of positions of [_ADL_POSITION[L]] strictly less than B, keeps
    every other entry under its key, and adds nothing.  That shift is the
    displacement of block B in the layer which [ResNetAdl._make_layer] builds
    by inserting an ADL module after each position of [_ADL_POSITION[L]]. *)
Theorem align_layer_matches_make_layer {V} (sd : gmap string V) :
  backbone_state_dict sd →
  ∃ sd', align_layer sd = Ok sd' ∧
    (∀ l b rest v, l ≤ 4 → (0 ≤ b)%Z → (b + adl_shift l b ≤ 9)%Z →
       sd !! layer_key l b rest = Some v →
       sd' !! layer_key l (b + adl_shift l b) rest = Some v) ∧
    (∀ k v, contains "layer" k = false → sd !! k = Some v → sd' !! k = Some v) ∧
    (∀ k' v, sd' !! k' = Some v →
       ∃ k, sd !! k = Some v ∧
         ((contains "layer" k = false ∧ k' = k) ∨
          (∃ l b rest, k = layer_key l b rest ∧
                       k' = layer_key l (b + adl_shift l b) rest))) ∧
    (∀ l blocks k, l ≤ 4 → k < blocks →
       _make_layer blocks (default [] (_ADL_POSITION !! l))
         !! (k + Z.to_nat (adl_shift l (Z.of_nat k))) = Some (Block k)).
Proof.
  intros Hsd. destruct (backbone_align_layer sd Hsd) as (sd' & Hrun & Hmove & Honly).
  exists sd'. split; [done|]. split; [|split; [|split]].
  - intros l b rest v Hl Hb Hs Hv.
    pose proof (adl_shift_nonneg l b).
    destruct (aligned_key_layer_key l b rest Hl) as [Ha _]; [lia|].
    rewrite <- Ha, Hmove; eauto.
  - intros k v Hno Hv. destruct (aligned_key_no_layer k Hno) as [_ Ha].
    rewrite <- Ha at 1. rewrite Hmove; eauto.
  - intros k' v Hv. destruct (Honly k' v Hv) as (k & -> & Hk).
    exists k. split; [done|].
    destruct (Hsd k) as [Hno|Hbk]; [eauto|..].
    + left. split; [done|]. by destruct (aligned_key_no_layer k Hno).
    + right. apply backbone_key_bounds in Hbk as (l & b & rest & Hl & Hb & Hs & ->).
      exists l, b, rest. split; [done|].
      by destruct (aligned_key_layer_key l b rest Hl Hb).
  - intros l blocks k. apply make_layer_block.
Qed.

Lemma align_layer_matches_make_layer_witness :
  ∃ sd', align_layer state_dict_example = Ok sd' ∧
    sd' !! "layer3.2.conv1.weight" = Some 2 ∧
    sd' !! "layer4.3.bn3.bias" = Some 3 ∧
    sd' !! "conv1.weight" = Some 0 ∧
    _make_layer 3 [0; 2]%Z !! 3 = Some (Block 2).
Proof.
  destruct (align_layer_matches_make_layer state_dict_example)
    as (sd' & Hrun & Hmove & Hkeep & _ & Hlayer).
  - intros k [v Hk]. apply elem_of_map_to_list in Hk.
    vm_compute in Hk.
    repeat (apply elem_of_cons in Hk as [Hk|Hk]; [injection Hk as -> ->|]).
    + left. reflexivity.
    + right. exists 3, 1%Z, "conv1.weight".
      split; [lia|]. split; [lia|]. split; [vm_compute; discriminate|reflexivity].
    + right. exists 3, 0%Z, "conv1.weight".
      split; [lia|]. split; [lia|]. split; [vm_compute; discriminate|reflexivity].
    + right. exists 4, 2%Z, "bn3.bias".
      split; [lia|]. split; [lia|]. split; [vm_compute; discriminate|reflexivity].
    + by apply elem_of_nil in Hk.
  - exists sd'. split; [exact Hrun|]. split; [|split; [|split]].
    + apply (Hmove 3 1%Z "conv1.weight" 2);
        [lia | lia | vm_compute; discriminate | reflexivity].
    + apply (Hmove 4 2%Z "bn3.bias" 3);
        [lia | lia | vm_compute; discriminate | reflexivity].
    + apply (Hkeep "conv1.weight" 0); reflexivity.
    + apply (Hlayer 4 3 2); lia.
Defined.

(** * Further properties of the code *)

(** ** The heads *)

(** X1 — The classification path of ResNetCam.  Without [return_cam],
    [forward] returns a dictionary with the single key 'logits', whatever
    [labels] is.  For a last feature map of shape (B, C, H, W) with B > 0 and
    a classifier with N classes, the logits have shape (B, N), and the entry
    for sample [i] and class [j] is the sum over the channels of the mean of
    the channel over its pixels times [fc.weight[j][k]], plus [fc.bias[j]]. *)
Theorem ResNetCam_logits_closed_form {T} `{Scalar T}
    (self : ResNetCam.t T) (x fm : tensor T) (b c h w n : nat) :
  cam_features self x = Ok fm →
  shape fm = [b; c; h; w] → wf fm → b ≠ 0 →
  shape (ResNetCam.fc_weight self) = [n; c] →
  shape (ResNetCam.fc_bias self) = [n] →
  ∃ logits,
    (∀ labels, ResNetCam.forward self x labels false
                 = Ok (Dict {[ "logits" := logits ]})) ∧
    shape logits = [b; n] ∧
    ∀ i j, i < b → j < n →
      tget logits [i; j] =
        Some (fc_entry (ResNetCam.fc_weight self) (ResNetCam.fc_bias self) fm c h w i j).
Proof.
  intros Hfeat Hfm Hwf Hb Hw Hbias.
  destruct (fc_logits_spec _ _ fm b c h w n Hfm Hwf Hb Hw Hbias)
    as (logits & Hrun & Hsh & _ & Hget).
  exists logits. split; [|done].
  intros labels. rewrite ResNetCam_forward_features, Hfeat. simpl.
  by rewrite Hrun.
Qed.

Lemma ResNetCam_logits_closed_form_witness :
  ∃ logits,
    ResNetCam.forward (cam_example "multi_class") ramp_2312 LNone false
      = Ok (Dict {[ "logits" := logits ]}) ∧
    shape logits = [2; 2] ∧
    value_at logits [1; 0] = Some (61 # 1)%Q.
Proof.
  destruct (ResNetCam_logits_closed_form (cam_example "multi_class")
              ramp_2312 ramp_2312 2 3 1 2 2)
    as (logits & Hrun & Hshape & Hget);
    [reflexivity | reflexivity | reflexivity | lia | reflexivity | reflexivity |].
  exists logits. split; [apply Hrun|]. split; [exact Hshape|].
  unfold value_at. rewrite (Hget 1 0) by lia. reflexivity.
Defined.

(** X2 — The CAM and the logit agree.  On exact arithmetic (the rationals),
    for the multi-class head, the mean over the pixels of the CAM of sample
    [i] for its label [l] is [(logits[i][l] - fc.bias[l]) / C], where C is
    the number of channels: the map spreads the score of the class over the
    image.  In floating point the two sides agree up to rounding. *)
Theorem cam_mean_matches_logit (self : ResNetCam.t Qc) (x fm : tensor Qc)
    (labels : list Z) (b c h w n : nat) :
  ResNetCam.classif_type self = "multi_class" →
  cam_features self x = Ok fm →
  shape fm = [b; c; h; w] → wf fm → b ≠ 0 → c ≠ 0 → h ≠ 0 → w ≠ 0 →
  shape (ResNetCam.fc_weight self) = [n; c] → wf (ResNetCam.fc_weight self) →
  shape (ResNetCam.fc_bias self) = [n] →
  length labels = b → Forall (λ l, 0 ≤ l < Z.of_nat n)%Z labels →
  ∃ cams logits,
    ResNetCam.forward self x (LIndex labels) true = Ok (Cams cams) ∧
    ResNetCam.forward self x (LIndex labels) false
      = Ok (Dict {[ "logits" := logits ]}) ∧
    ∀ i l, labels !! i = Some l →
      smean (tabulate (h * w) (λ p, elem cams [i; p / w; p `mod` w]))
        = ((elem logits [i; Z.to_nat l] - elem (ResNetCam.fc_bias self) [Z.to_nat l])
           / of_nat c)%Qc.
Proof.
  intros Hty Hfeat Hfm Hwf Hb Hc Hh Hw0 Hw Hwfw Hbias Hlen Hl.
  destruct (fc_logits_spec _ _ fm b c h w n Hfm Hwf Hb Hw Hbias)
    as (logits & Hlogits & Hls & _ & Hlget).
  destruct (cam_multi_class_spec self fm labels b c h w n Hfm Hwf Hw Hwfw Hlen Hl)
    as (cams & Hcams & Hcs & _ & Hcget).
  exists cams, logits. split; [|split].
  { rewrite ResNetCam_forward_features.
    rewrite (bind_Ok _ _ _ Hfeat), (bind_Ok _ _ _ Hlogits).
    rewrite decide_True by done. by rewrite (bind_Ok _ _ _ Hcams). }
  { rewrite ResNetCam_forward_features.
    by rewrite (bind_Ok _ _ _ Hfeat), (bind_Ok _ _ _ Hlogits). }
  intros i l Hi.
  assert (i < b) as Hib by (rewrite <- Hlen; by eapply lookup_lt_Some).
  assert (Z.to_nat l < n) as Hln.
  { eapply Forall_lookup_1 in Hl; [|exact Hi]. simpl in Hl. lia. }
  set (r := Z.to_nat l).
  rewrite (tget_Some_elem logits [i; r] _ (Hlget i r Hib Hln)).
  set (W := λ k : nat, elem (ResNetCam.fc_weight self) [r; k]).
  set (F := λ k p : nat, elem fm [i; k; p / w; p `mod` w]).
  assert (Hpix : ∀ p, p < h * w →
    elem cams [i; p / w; p `mod` w]
      = (/ of_nat c * ssum (tabulate c (λ k, W k * F k p)))%Qc).
  { intros p Hp. destruct (div_mod_lt p h w Hp) as [Hy Hx].
    rewrite (tget_Some_elem cams _ _ (Hcget i l _ _ Hi Hy Hx)).
    unfold weighted_mean, smean. rewrite (length_tabulate _ c). simpl sdiv.
    unfold Qcdiv. apply Qcmult_comm. }
  unfold smean at 1. rewrite (length_tabulate _ (h * w)).
  rewrite (tabulate_ext _ _ _ Hpix), qsum_scale.
  unfold fc_entry, channel_mean.
  assert (Hsum :
    ssum (tabulate c (λ k,
      smul (smean (tabulate (h * w) (λ p, elem fm [i; k; p / w; p `mod` w])))
           (elem (ResNetCam.fc_weight self) [r; k])))
    = (/ of_nat (h * w)
        * ssum (tabulate (h * w) (λ p, ssum (tabulate c (λ k, W k * F k p)))))%Qc).
  { rewrite qsum_swap, <- qsum_scale. apply qsum_ext. intros k Hk.
    rewrite qsum_scale. unfold smean. rewrite (length_tabulate _ (h * w)).
    simpl. unfold Qcdiv. fold (W k). unfold F. ring. }
  rewrite Hsum.
  pose proof (of_nat_Qc_neq_0 c Hc) as Hc0.
  pose proof (of_nat_Qc_neq_0 (h * w) ltac:(nia)) as Hd0.
  change (@sdiv Qc Qc_scalar) with Qcdiv. change (@sadd Qc Qc_scalar) with Qcplus.
  generalize dependent (of_nat c : Qc). intros C' HC'.
  generalize dependent (of_nat (h * w) : Qc). intros D' HD'.
  generalize (ssum (tabulate (h * w) (λ p, ssum (tabulate c (λ k, W k * F k p)%Qc)))).
  generalize (elem (ResNetCam.fc_bias self) [r]).
  intros B S HD HC. field. split; done.
Qed.

Lemma cam_mean_matches_logit_witness :
  ∃ cams logits,
    ResNetCam.forward (cam_example "multi_class") ramp_2312 (LIndex [1; 0]%Z) true
      = Ok (Cams cams) ∧
    ResNetCam.forward (cam_example "multi_class") ramp_2312 (LIndex [1; 0]%Z) false
      = Ok (Dict {[ "logits" := logits ]}) ∧
    smean (tabulate 2 (λ p, elem cams [1; p / 2; p `mod` 2]))
      = ((elem logits [1; 0]%nat
          - elem (ResNetCam.fc_bias (cam_example "multi_class")) [0]%nat)
         / of_nat 3)%Qc.
Proof.
  destruct (cam_mean_matches_logit (cam_example "multi_class") ramp_2312 ramp_2312
              [1; 0]%Z 2 3 1 2 2)
    as (cams & logits & Hcam & Hdict & Hmean);
    [reflexivity | reflexivity | reflexivity | reflexivity | lia | lia | lia | lia
    | reflexivity | reflexivity | reflexivity | reflexivity
    | repeat constructor; lia |].
  exists cams, logits. split; [exact Hcam|]. split; [exact Hdict|].
  apply (Hmean 1 0%Z). reflexivity.
Defined.

(** X3 — An empty batch is rejected.  When the feature extractor returns a
    map with batch size 0, [pre_logit.reshape(pre_logit.size(0), -1)] cannot
    infer the second dimension, and [forward] raises [RuntimeError] with and
    without [return_cam], whatever the labels. *)
Theorem ResNetCam_empty_batch_raises {T} `{Scalar T}
    (self : ResNetCam.t T) (x fm : tensor T) (c h w : nat)
    (labels : labels_arg T) (return_cam : bool) :
  cam_features self x = Ok fm →
  shape fm = [0; c; h; w] →
  ResNetCam.forward self x labels return_cam = Raise RuntimeError.
Proof.
  intros Hfeat Hfm. rewrite ResNetCam_forward_features, Hfeat. simpl.
  unfold fc_logits, avgpool. rewrite Hfm. reflexivity.
Qed.

Lemma ResNetCam_empty_batch_raises_witness :
  ResNetCam.forward (cam_example "multi_class") (qtensor [0; 3; 2; 2] []) LNone false
    = Raise RuntimeError.
Proof.
  apply (ResNetCam_empty_batch_raises _ _ (qtensor [0; 3; 2; 2] []) 3 2 2);
    reflexivity.
Defined.

(** X4 — Label errors of the multi-class CAM.  With [return_cam=True] and
    a 1-d tensor of labels: a label outside [-N, N) makes [fc.weight[labels]]
    raise [IndexError]; when all labels are inside but their number is not the
    batch size, the [view] to (B, C, 1, 1) raises [RuntimeError] (B and C not
    zero). *)
Theorem ResNetCam_multi_class_label_errors {T} `{Scalar T}
    (self : ResNetCam.t T) (x fm : tensor T) (labels : list Z) (b c h w n : nat) :
  ResNetCam.classif_type self = "multi_class" →
  cam_features self x = Ok fm →
  shape fm = [b; c; h; w] → b ≠ 0 → c ≠ 0 →
  shape (ResNetCam.fc_weight self) = [n; c] → wf (ResNetCam.fc_weight self) →
  shape (ResNetCam.fc_bias self) = [n] →
  (Exists (λ l, ¬ (- Z.of_nat n ≤ l < Z.of_nat n)%Z) labels →
   ResNetCam.forward self x (LIndex labels) true = Raise IndexError) ∧
  (Forall (λ l, - Z.of_nat n ≤ l < Z.of_nat n)%Z labels → length labels ≠ b →
   ResNetCam.forward self x (LIndex labels) true = Raise RuntimeError).
Proof.
  intros Hty Hfeat Hfm Hb Hc Hw Hwfw Hbias.
  rewrite ResNetCam_forward_features, Hfeat. simpl.
  destruct (fc_logits_ok _ _ _ _ _ _ _ _ Hfm Hb Hw Hbias) as (lg & -> & _). simpl.
  rewrite decide_True by done.
  unfold ResNetCam.cam_multi_class, getitem. split.
  - intros Hex. unfold index_rows. rewrite Hw.
    by rewrite traverse_norm_index_outside.
  - intros Hl Hlen.
    destruct (index_rows (ResNetCam.fc_weight self) labels) as [r|e] eqn:Hr.
    + pose proof (index_rows_length _ _ _ _ _ Hw Hwfw Hl Hr) as Hlr.
      simpl. rewrite Hfm.
      change ((Some <$> take 2 [b; c; h; w]) ++ [Some 1; Some 1])
        with (Some <$> [b; c; 1; 1]).
      rewrite (view_mismatch r [b; c; 1; 1]); [done|].
      simpl. rewrite Hlr. nia.
    + destruct (index_rows_wrap _ _ _ labels Hw Hl) as [_ Hr']. congruence.
Qed.

Lemma ResNetCam_multi_class_label_errors_witness :
  ResNetCam.forward (cam_example "multi_class") ones_1322 (LIndex [2%Z]) true
    = Raise IndexError ∧
  ResNetCam.forward (cam_example "multi_class") ones_1322 (LIndex [0; 1]%Z) true
    = Raise RuntimeError.
Proof.
  split.
  - apply (ResNetCam_multi_class_label_errors (cam_example "multi_class")
             ones_1322 ones_1322 [2%Z] 1 3 2 2 2);
      [reflexivity | reflexivity | reflexivity | lia | lia | reflexivity
      | reflexivity | reflexivity |].
    apply Exists_cons_hd. lia.
  - apply (ResNetCam_multi_class_label_errors (cam_example "multi_class")
             ones_1322 ones_1322 [0; 1]%Z 1 3 2 2 2);
      [reflexivity | reflexivity | reflexivity | lia | lia | reflexivity
      | reflexivity | reflexivity | | simpl; lia].
    repeat constructor; lia.
Defined.

(** X5 — Negative labels count from the last class.  For labels in
    [-N, N), [forward] returns what it returns for the labels in which every
    negative [l] is replaced by [N + l]: the label -1 selects the weights of
    the last class and no range check stops it. *)
Theorem ResNetCam_negative_labels_wrap {T} `{Scalar T}
    (self : ResNetCam.t T) (x : tensor T) (labels : list Z) (n : nat)
    (sh : list nat) (return_cam : bool) :
  shape (ResNetCam.fc_weight self) = n :: sh →
  Forall (λ l, - Z.of_nat n ≤ l < Z.of_nat n)%Z labels →
  ResNetCam.forward self x (LIndex labels) return_cam
    = ResNetCam.forward self x (LIndex (wrap_index n <$> labels)) return_cam.
Proof.
  intros Hw Hl. rewrite !ResNetCam_forward_features.
  destruct (cam_features self x) as [fm|]; [simpl|done].
  destruct (fc_logits _ _ fm) as [lg|]; [simpl|done].
  destruct return_cam; [|done].
  destruct (decide (ResNetCam.classif_type self = "multi_class")); [|done].
  unfold ResNetCam.cam_multi_class, getitem.
  by destruct (index_rows_wrap _ _ _ labels Hw Hl) as [<- _].
Qed.

Lemma ResNetCam_negative_labels_wrap_witness :
  ResNetCam.forward (cam_example "multi_class") ones_1322 (LIndex [(-1)%Z]) true
    = ResNetCam.forward (cam_example "multi_class") ones_1322 (LIndex [1%Z]) true.
Proof.
  apply (ResNetCam_negative_labels_wrap (cam_example "multi_class") ones_1322
           [(-1)%Z] 2 [3] true); [reflexivity|].
  repeat constructor; lia.
Defined.

(** X6 — What the multi-label CAM computes, for every batch size.  For a
    mask of shape (B, c) and a feature map of shape (B, C, H, W), [forward]
    with [return_cam=True] returns a (B, c, H, W) tensor whose map at
    [i][j] is the mean over the channels [k] of
    [labels[i][j] * fc.weight[j][k]] times the feature map of sample
    [(i * c + j) mod B]: the two [view] calls regroup the flat data, so the
    sample is [i] at every entry only when B is 1 or c is 1.  This uses [a * 0 = 0 * a = 0],
    [a * 1 = a] and [a + 0 = 0 + a = a]. *)
Theorem ResNetCam_multi_label_closed_form {T} `{Scalar T}
    (self : ResNetCam.t T) (x fm labels : tensor T) (b c ch h w : nat) :
  (∀ a : T, smul a s0 = s0) → (∀ a : T, smul s0 a = s0) →
  (∀ a : T, smul a s1 = a) →
  (∀ a : T, sadd a s0 = a) → (∀ a : T, sadd s0 a = a) →
  ResNetCam.classif_type self ≠ "multi_class" →
  cam_features self x = Ok fm →
  shape fm = [b; ch; h; w] → wf fm →
  shape labels = [b; c] → wf labels → b ≠ 0 → c ≠ 0 →
  shape (ResNetCam.fc_weight self) = [c; ch] → wf (ResNetCam.fc_weight self) →
  shape (ResNetCam.fc_bias self) = [c] →
  ∃ cams,
    ResNetCam.forward self x (LMask labels) true = Ok (Cams cams) ∧
    shape cams = [b; c; h; w] ∧
    ∀ i j y x', i < b → j < c → y < h → x' < w →
      tget cams [i; j; y; x'] =
        Some (smean (tabulate ch (λ k,
          smul (smul (elem labels [i; j]) (elem (ResNetCam.fc_weight self) [j; k]))
               (elem fm [(i * c + j) `mod` b; k; y; x'])))).
Proof.
  intros M0r M0l M1 A0r A0l Hty Hfeat Hfm Hwf Hlab Hwfl Hb Hc Hw Hwfw Hbias.
  destruct (fc_logits_ok _ _ _ _ _ _ _ _ Hfm Hb Hw Hbias) as (lg & Hlg & _).
  destruct (cam_multi_label_spec self fm labels b c ch h w
              M0r M0l M1 A0r A0l Hlab Hwfl Hb Hc Hfm Hwf Hw Hwfw)
    as (cams & Hcam & Hsh & Hget).
  exists cams. split; [|done].
  rewrite ResNetCam_forward_features.
  rewrite (bind_Ok _ _ _ Hfeat), (bind_Ok _ _ _ Hlg).
  rewrite decide_False by done.
  by rewrite (bind_Ok _ _ _ Hcam).
Qed.

Lemma ResNetCam_multi_label_closed_form_witness :
  ∃ cams,
    ResNetCam.forward (cam_example "multi_label") ramp_2312 (LMask all_present_22) true
      = Ok (Cams cams) ∧
    shape cams = [2; 2; 1; 2] ∧
    value_at cams [0; 1; 0; 0] = Some (50 # 1)%Q ∧
    value_at cams [1; 0; 0; 1] = Some (28 # 3)%Q.
Proof.
  destruct (ResNetCam_multi_label_closed_form (cam_example "multi_label")
              ramp_2312 ramp_2312 all_present_22 2 2 3 1 2)
    as (cams & Hrun & Hshape & Hget);
    [ apply Qcmult_0_r | apply Qcmult_0_l | apply Qcmult_1_r
    | apply Qcplus_0_r | apply Qcplus_0_l
    | discriminate | reflexivity | reflexivity | reflexivity | reflexivity
    | reflexivity | lia | lia | reflexivity | reflexivity | reflexivity |].
  exists cams. split; [exact Hrun|]. split; [exact Hshape|].
  unfold value_at. rewrite (Hget 0 1 0 0), (Hget 1 0 0 1) by lia.
  split; reflexivity.
Defined.

(** X7 — What the multi-label CAM branch rejects.  For a head whose
    [classif_type] is not 'multi_class', [forward] with [return_cam=True]
    raises [AttributeError] without labels ([None] has no [shape]),
    [ValueError] for a 1-d tensor of class indices (its shape does not unpack
    into [b, c]), and [RuntimeError] for a mask whose number of columns is not
    the number of classes of the classifier. *)
Theorem ResNetCam_multi_label_input_errors {T} `{Scalar T}
    (self : ResNetCam.t T) (x fm : tensor T) (b c h w n : nat) :
  ResNetCam.classif_type self ≠ "multi_class" →
  cam_features self x = Ok fm →
  shape fm = [b; c; h; w] → b ≠ 0 →
  shape (ResNetCam.fc_weight self) = [n; c] →
  shape (ResNetCam.fc_bias self) = [n] →
  ResNetCam.forward self x LNone true = Raise AttributeError ∧
  (∀ l, ResNetCam.forward self x (LIndex l) true = Raise ValueError) ∧
  (∀ labels bm cm, shape labels = [bm; cm] → wf labels → cm ≠ n →
     ResNetCam.forward self x (LMask labels) true = Raise RuntimeError).
Proof.
  intros Hty Hfeat Hfm Hb Hw Hbias.
  destruct (fc_logits_ok _ _ _ _ _ _ _ _ Hfm Hb Hw Hbias) as (lg & Hlg & _).
  assert (Hfwd : ∀ labels,
    ResNetCam.forward self x labels true =
      cams ← ResNetCam.cam_multi_label self fm labels; Ok (Cams cams)).
  { intros labels. rewrite ResNetCam_forward_features.
    rewrite (bind_Ok _ _ _ Hfeat), (bind_Ok _ _ _ Hlg).
    by rewrite decide_False by done. }
  split; [by rewrite Hfwd|]. split; [intros l; by rewrite Hfwd|].
  intros labels bm cm Hls Hlwf Hcm. rewrite Hfwd.
  by rewrite (cam_multi_label_wrong_classes self fm labels bm cm n c).
Qed.

Lemma ResNetCam_multi_label_input_errors_witness :
  ResNetCam.forward (cam_example "multi_label") ramp_2312 LNone true
    = Raise AttributeError ∧
  ResNetCam.forward (cam_example "multi_label") ramp_2312 (LIndex [0; 1]%Z) true
    = Raise ValueError ∧
  ResNetCam.forward (cam_example "multi_label") ramp_2312 (LMask mask_23) true
    = Raise RuntimeError.
Proof.
  destruct (ResNetCam_multi_label_input_errors (cam_example "multi_label")
              ramp_2312 ramp_2312 2 3 1 2 2)
    as (Hnone & Hindex & Hmask);
    [discriminate | reflexivity | reflexivity | lia | reflexivity | reflexivity |].
  split; [exact Hnone|]. split; [apply Hindex|].
  apply (Hmask mask_23 2 3); [reflexivity | reflexivity | lia].
Defined.

(** X8 — One label is broadcast over the batch.  In
    [feature_map[range(batch_size), labels]] the two index tensors are
    broadcast together, so with a single label [l] ResNetSpg returns one map
    per sample, the channel [l] of the score map of that sample. *)
Theorem ResNetSpg_single_label_broadcast {T} `{Scalar T}
    (compute_attention :
       tensor T → labels_arg T → tensor T → tensor T → result (tensor T * tensor T))
    (self : ResNetSpg.t T) (x : tensor T) (maps : spg_maps T) (l : Z)
    (att : tensor T * tensor T) (b c h w : nat) :
  size x 0 = Ok b →
  spg_trunk self x = Ok maps →
  shape (feat_map maps) = [b; c; h; w] → wf (feat_map maps) →
  (0 ≤ l < Z.of_nat c)%Z →
  compute_attention (feat_map maps) (LIndex [l]) (logits_b1 maps) (logits_b2 maps)
    = Ok att →
  ∃ cams,
    ResNetSpg.forward compute_attention self x (LIndex [l]) true = Ok (Cams cams) ∧
    shape cams = [b; h; w] ∧
    ∀ i y x', i < b → y < h → x' < w →
      tget cams [i; y; x'] = Some (elem (feat_map maps) [i; Z.to_nat l; y; x']).
Proof.
  intros Hb Htrunk Hsh Hwf Hl Hatt.
  rewrite ResNetSpg_forward_trunk, Hb. simpl. rewrite Htrunk. simpl.
  destruct (spg_logits_ok _ _ _ _ _ Hsh) as (logits & -> & _). simpl.
  rewrite Hatt. simpl. rewrite index_pairs_single.
  destruct (index_pairs_spec (feat_map maps) b c h w (replicate b l) Hsh Hwf)
    as (cams & Hc & Hsc & _ & Hgc).
  { apply length_replicate. }
  { apply Forall_replicate. exact Hl. }
  rewrite Hc. simpl. exists cams. split; [done|]. split; [done|].
  intros i y x' Hi Hy Hx. apply (Hgc i l y x'); [|done|done].
  by apply lookup_replicate_2.
Qed.

Lemma ResNetSpg_single_label_broadcast_witness :
  ∃ cams,
    ResNetSpg.forward attention_example spg_example scores_2212 (LIndex [1%Z]) true
      = Ok (Cams cams) ∧
    shape cams = [2; 1; 2] ∧
    value_at cams [0; 0; 1] = Some (6 # 1)%Q ∧
    value_at cams [1; 0; 0] = Some (3 # 1)%Q.
Proof.
  destruct (ResNetSpg_single_label_broadcast attention_example spg_example
              scores_2212
              (SpgMaps scores_2212 scores_2212 scores_2212 scores_2212) 1%Z
              (qtensor [2; 1; 2] [5; 6; 3; 4]%Z, qtensor [2; 1; 2] [5; 6; 3; 4]%Z)
              2 2 1 2)
    as (cams & Hrun & Hshape & Hget);
    [reflexivity | reflexivity | reflexivity | reflexivity | lia | reflexivity |].
  exists cams. split; [exact Hrun|]. split; [exact Hshape|].
  unfold value_at. rewrite (Hget 0 0 1), (Hget 1 0 0) by lia.
  split; reflexivity.
Defined.

(** X9 — A wrong number of labels in the ACoL CAM.  When the batch size is
    not 1 and the number of labels is neither 1 nor the batch size, the index
    tensors of [feature_map[range(batch_size), labels]] cannot be broadcast
    together and [forward] raises [IndexError], whatever the label values. *)
Theorem ResNetAcol_label_count_mismatch {T} `{Scalar T}
    (normalize_tensor : tensor T → result (tensor T))
    (self : ResNetAcol.t T) (x feature fa fb na nb : tensor T)
    (d : gmap string (tensor T)) (labels : list Z) (b c h w : nat) :
  size x 0 = Ok b →
  acol_features self x = Ok feature →
  ResNetAcol._acol_logits self feature (LIndex labels)
    (ResNetAcol.drop_threshold self) = Ok d →
  d !! "feat_map_a" = Some fa → d !! "feat_map_b" = Some fb →
  normalize_tensor fa = Ok na → normalize_tensor fb = Ok nb →
  shape na = [b; c; h; w] → shape nb = [b; c; h; w] →
  b ≠ 1 → length labels ≠ 1 → length labels ≠ b →
  ResNetAcol.forward normalize_tensor self x (LIndex labels) true = Raise IndexError.
Proof.
  intros Hb Hfeat Hd Hfa Hfb Hna Hnb Hsa Hsb Hb1 Hl1 Hlb.
  rewrite ResNetAcol_forward_features, Hb, Hfeat. simpl. rewrite Hd. simpl.
  unfold dict_get. rewrite Hfa, Hfb. simpl. rewrite Hna, Hnb. simpl.
  destruct (bzip_same_shape smax na nb _ Hsa Hsb) as (m & Hm & Hsm & _ & _).
  unfold tmax. rewrite Hm. simpl. unfold index_pairs. rewrite Hsm.
  assert (length (range b) = b) as Hr.
  { unfold range. by rewrite length_fmap, length_seq. }
  rewrite bcast_index_mismatch; [done|by rewrite Hr|done|by rewrite Hr].
Qed.

Lemma ResNetAcol_label_count_mismatch_witness :
  ResNetAcol.forward identity acol_example ramp_2312 (LIndex [1; 0; 1]%Z) true
    = Raise IndexError.
Proof.
  apply (ResNetAcol_label_count_mismatch identity acol_example ramp_2312
           ramp_2312
           acol_map_a
           acol_map_b
           acol_map_a
           acol_map_b
           (<[ "feat_map_a" := acol_map_a ]> {[ "feat_map_b" := acol_map_b ]})
           [1; 0; 1]%Z 2 2 1 2);
    [reflexivity | reflexivity | reflexivity | reflexivity | reflexivity
    | reflexivity | reflexivity | reflexivity | reflexivity | lia | simpl; lia | simpl; lia].
Defined.

(** X10 — The dictionary of ResNetSpg.  Without [return_cam], when
    [compute_attention] returns for the labels in use, [forward] returns a
    dictionary with exactly the keys 'attention', 'fused_attention', 'logits',
    'logits_b1', 'logits_b2' and 'logits_c'.  'logits' has shape (B, C) and
    its entry for sample [i] and class [j] is the mean of channel [j] of the
    [SPG_A4] score map over its pixels; the three auxiliary logits are those of
    the trunk, whatever the labels. *)
Theorem ResNetSpg_output_dictionary {T} `{Scalar T}
    (compute_attention :
       tensor T → labels_arg T → tensor T → tensor T → result (tensor T * tensor T))
    (self : ResNetSpg.t T) (x : tensor T) (maps : spg_maps T)
    (labels : labels_arg T) (b c h w bs : nat) :
  size x 0 = Ok bs →
  spg_trunk self x = Ok maps →
  shape (feat_map maps) = [b; c; h; w] → wf (feat_map maps) → c ≠ 0 →
  (∀ logits lb,
     spg_logits (feat_map maps) = Ok logits →
     ResNetSpg.default_labels logits labels = Ok lb →
     ∃ att, compute_attention (feat_map maps) lb (logits_b1 maps) (logits_b2 maps)
              = Ok att) →
  ∃ d logits,
    ResNetSpg.forward compute_attention self x labels false = Ok (Dict d) ∧
    dom d = list_to_set ["attention"; "fused_attention"; "logits"; "logits_b1";
                         "logits_b2"; "logits_c"] ∧
    d !! "logits" = Some logits ∧ shape logits = [b; c] ∧
    (∀ i j, i < b → j < c →
       tget logits [i; j] = Some (channel_mean (feat_map maps) h w i j)) ∧
    d !! "logits_b1" = Some (logits_b1 maps) ∧
    d !! "logits_b2" = Some (logits_b2 maps) ∧
    d !! "logits_c" = Some (logits_c maps).
Proof.
  intros Hbs Htrunk Hsh Hwf Hc Hatt.
  destruct (spg_logits_spec _ _ _ _ _ Hsh Hwf) as (logits & Hlogits & Hls & Hlwf & Hget).
  assert (∃ lb, ResNetSpg.default_labels logits labels = Ok lb) as [lb Hlb].
  { destruct labels; simpl; eauto.
    destruct (argmax_dim1_spec logits b c Hls Hlwf Hc) as (am & -> & _). simpl. eauto. }
  destruct (Hatt logits lb Hlogits Hlb) as [att Ha].
  eexists _, logits. split.
  { rewrite ResNetSpg_forward_trunk.
    rewrite (bind_Ok _ _ _ Hbs), (bind_Ok _ _ _ Htrunk), (bind_Ok _ _ _ Hlogits).
    rewrite (bind_Ok _ _ _ Hlb), (bind_Ok _ _ _ Ha). reflexivity. }
  split.
  { rewrite !dom_insert_L, dom_singleton_L. simpl. by rewrite union_empty_r_L. }
  split; [by simplify_map_eq|]. split; [done|]. split; [done|].
  split; [by simplify_map_eq|]. split; by simplify_map_eq.
Qed.

Lemma ResNetSpg_output_dictionary_witness :
  ∃ d logits,
    ResNetSpg.forward attention_example spg_example scores_2212 LNone false
      = Ok (Dict d) ∧
    dom d = list_to_set ["attention"; "fused_attention"; "logits"; "logits_b1";
                         "logits_b2"; "logits_c"] ∧
    d !! "logits" = Some logits ∧ shape logits = [2; 2] ∧
    value_at logits [0; 1] = Some (11 # 2)%Q.
Proof.
  destruct (ResNetSpg_output_dictionary attention_example spg_example scores_2212
              (SpgMaps scores_2212 scores_2212 scores_2212 scores_2212)
              LNone 2 2 1 2 2)
    as (d & logits & Hrun & Hdom & Hl & Hshape & Hget & _);
    [reflexivity | reflexivity | reflexivity | reflexivity | lia | |].
  - intros logits lb Hlogits Hlb. vm_compute in Hlogits. injection Hlogits as <-.
    vm_compute in Hlb. injection Hlb as <-. eexists. vm_compute. reflexivity.
  - exists d, logits. split; [exact Hrun|]. split; [exact Hdom|].
    split; [exact Hl|]. split; [exact Hshape|].
    unfold value_at. rewrite (Hget 0 1) by lia. reflexivity.
Defined.

(** X11 — The CAM and the logit of ResNetSpg agree.  For supplied labels,
    the mean over the pixels of the returned CAM of sample [i] is the entry
    [logits[i][labels[i]]] of the dictionary that the same call returns
    without [return_cam]: 'logits' is the average pooling of the score map
    from which the CAM is cut. *)
Theorem ResNetSpg_cam_mean_is_logit {T} `{Scalar T}
    (compute_attention :
       tensor T → labels_arg T → tensor T → tensor T → result (tensor T * tensor T))
    (self : ResNetSpg.t T) (x : tensor T) (maps : spg_maps T) (labels : list Z)
    (att : tensor T * tensor T) (b c h w : nat) :
  size x 0 = Ok b →
  spg_trunk self x = Ok maps →
  shape (feat_map maps) = [b; c; h; w] → wf (feat_map maps) →
  length labels = b → Forall (λ l, 0 ≤ l < Z.of_nat c)%Z labels →
  compute_attention (feat_map maps) (LIndex labels) (logits_b1 maps) (logits_b2 maps)
    = Ok att →
  ∃ cams d logits,
    ResNetSpg.forward compute_attention self x (LIndex labels) true = Ok (Cams cams) ∧
    ResNetSpg.forward compute_attention self x (LIndex labels) false = Ok (Dict d) ∧
    d !! "logits" = Some logits ∧
    ∀ i l, labels !! i = Some l →
      smean (tabulate (h * w) (λ p, elem cams [i; p / w; p `mod` w]))
        = elem logits [i; Z.to_nat l].
Proof.
  intros Hb Htrunk Hsh Hwf Hlen Hl Hatt.
  destruct (spg_logits_spec _ _ _ _ _ Hsh Hwf) as (logits & Hlogits & Hls & _ & Hlget).
  destruct (index_pairs_spec (feat_map maps) b c h w labels Hsh Hwf Hlen Hl)
    as (cams & Hc & Hsc & _ & Hgc).
  assert (Hrun : ∀ return_cam,
    ResNetSpg.forward compute_attention self x (LIndex labels) return_cam =
      if return_cam then Ok (Cams cams)
      else Ok (Dict (<[ "attention" := att.1 ]>
             (<[ "fused_attention" := att.2 ]>
             (<[ "logits" := logits ]>
             (<[ "logits_b1" := logits_b1 maps ]>
             (<[ "logits_b2" := logits_b2 maps ]>
             {[ "logits_c" := logits_c maps ]}))))))).
  { intros rc. rewrite ResNetSpg_forward_trunk.
    rewrite (bind_Ok _ _ _ Hb), (bind_Ok _ _ _ Htrunk), (bind_Ok _ _ _ Hlogits).
    simpl ResNetSpg.default_labels.
    change (mbind ?f (Ok ?a)) with (f a). cbv beta.
    rewrite (bind_Ok _ _ _ Hatt). destruct rc; [|done].
    unfold getitem_range. by rewrite Hc. }
  eexists cams, _, logits. split; [apply (Hrun true)|]. split; [apply (Hrun false)|].
  split; [by simplify_map_eq|].
  intros i l Hi.
  assert (i < b) as Hib by (rewrite <- Hlen; by eapply lookup_lt_Some).
  assert (Z.to_nat l < c) as Hlc.
  { eapply Forall_lookup_1 in Hl; [|exact Hi]. simpl in Hl. lia. }
  rewrite (tget_Some_elem logits _ _ (Hlget i _ Hib Hlc)).
  unfold channel_mean. f_equal. apply tabulate_ext. intros p Hp.
  destruct (div_mod_lt p h w Hp) as [Hy Hx].
  by rewrite (tget_Some_elem cams _ _ (Hgc i l _ _ Hi Hy Hx)).
Qed.

Lemma ResNetSpg_cam_mean_is_logit_witness :
  ∃ cams d logits,
    ResNetSpg.forward attention_example spg_example scores_2212 (LIndex [0; 1]%Z) true
      = Ok (Cams cams) ∧
    ResNetSpg.forward attention_example spg_example scores_2212 (LIndex [0; 1]%Z) false
      = Ok (Dict d) ∧
    d !! "logits" = Some logits ∧
    smean (tabulate 2 (λ p, elem cams [1; p / 2; p `mod` 2])) = elem logits [1; 1].
Proof.
  destruct (ResNetSpg_cam_mean_is_logit attention_example spg_example scores_2212
              (SpgMaps scores_2212 scores_2212 scores_2212 scores_2212) [0; 1]%Z
              (qtensor [2; 1; 2] [1; 2; 3; 4]%Z, qtensor [2; 1; 2] [1; 2; 3; 4]%Z)
              2 2 1 2)
    as (cams & d & logits & Hcam & Hdict & Hl & Hmean);
    [reflexivity | reflexivity | reflexivity | reflexivity | reflexivity
    | repeat constructor; lia | reflexivity |].
  exists cams, d, logits. split; [exact Hcam|]. split; [exact Hdict|].
  split; [exact Hl|]. apply (Hmean 1 1%Z). reflexivity.
Defined.

(** X12 — The ACoL CAM without labels.  With [labels=None] and
    [return_cam=True], [feature_map[range(batch_size), None]] inserts an axis:
    ResNetAcol returns a (B, 1, C, H, W) tensor that holds the maximum of the
    two normalized maps for every class.  There is no argmax default and no
    error in this head. *)
Theorem ResNetAcol_no_labels_all_channels {T} `{Scalar T}
    (normalize_tensor : tensor T → result (tensor T))
    (self : ResNetAcol.t T) (x feature fa fb na nb : tensor T)
    (d : gmap string (tensor T)) (b c h w : nat) :
  size x 0 = Ok b →
  acol_features self x = Ok feature →
  ResNetAcol._acol_logits self feature LNone (ResNetAcol.drop_threshold self) = Ok d →
  d !! "feat_map_a" = Some fa → d !! "feat_map_b" = Some fb →
  normalize_tensor fa = Ok na → normalize_tensor fb = Ok nb →
  shape na = [b; c; h; w] → shape nb = [b; c; h; w] →
  ∃ cams,
    ResNetAcol.forward normalize_tensor self x LNone true = Ok (Cams cams) ∧
    shape cams = [b; 1; c; h; w] ∧
    ∀ i j y x', i < b → j < c → y < h → x' < w →
      tget cams [i; 0; j; y; x'] =
        Some (smax (elem na [i; j; y; x']) (elem nb [i; j; y; x'])).
Proof.
  intros Hb Hfeat Hd Hfa Hfb Hna Hnb Hsa Hsb.
  rewrite ResNetAcol_forward_features, Hb, Hfeat. simpl. rewrite Hd. simpl.
  unfold dict_get. rewrite Hfa, Hfb. simpl. rewrite Hna, Hnb. simpl.
  destruct (bzip_same_shape smax na nb _ Hsa Hsb) as (m & Hm & Hsm & Hwfm & Hgm).
  unfold tmax. rewrite Hm. simpl.
  rewrite (index_rows_range m b [c; h; w]) by done. simpl. rewrite Hsm. simpl.
  eexists. split; [done|]. split; [done|].
  intros i j y x' Hi Hj Hy Hx.
  assert (Hin : in_bounds [i; j; y; x'] [b; c; h; w]) by (repeat constructor; done).
  rewrite <- (Hgm _ Hin). unfold tget. simpl. rewrite Hsm.
  rewrite !decide_True by (repeat constructor; done || lia).
  f_equal. simpl. lia.
Qed.

Lemma ResNetAcol_no_labels_all_channels_witness :
  ∃ cams,
    ResNetAcol.forward identity acol_example ramp_2312 LNone true = Ok (Cams cams) ∧
    shape cams = [2; 1; 2; 1; 2] ∧
    value_at cams [1; 0; 1; 0; 0] = Some (10 # 1)%Q.
Proof.
  destruct (ResNetAcol_no_labels_all_channels identity acol_example ramp_2312
           ramp_2312
           acol_map_a
           acol_map_b
           acol_map_a
           acol_map_b
           (<[ "feat_map_a" := acol_map_a ]> {[ "feat_map_b" := acol_map_b ]})
           2 2 1 2)
    as (cams & Hrun & Hshape & Hget);
    [reflexivity | reflexivity | reflexivity | reflexivity | reflexivity
    | reflexivity | reflexivity | reflexivity | reflexivity |].
  exists cams. split; [exact Hrun|]. split; [exact Hshape|].
  unfold value_at. rewrite (Hget 1 1 0 0) by lia. reflexivity.
Defined.

(** ** Checkpoints and factories *)

(** X13 — State dicts that [align_layer] rejects.  [align_layer] reads the
    layer number from the last character of the part of a key before its first
    dot.  If the state dict has a key that contains 'layer' and whose first
    part does not end in one of the digits 0 to 4 (a key with a prefix such as
    'module.layer1.0.conv1.weight', or 'layer5.0.w'), the whole call raises
    and no state dict is returned.  Keys are byte strings. *)
Theorem align_layer_rejects_foreign_keys {V} (sd : gmap string V) (key : string) :
  is_Some (sd !! key) →
  contains "layer" key = true →
  (∀ ch, last_char (key_head key) = Ok ch → ch ∉ ["0"; "1"; "2"; "3"; "4"]%char) →
  raises (align_layer sd).
Proof.
  intros Hk Hc Hch. unfold align_layer.
  apply (align_fold_raises _ key).
  - by apply elem_of_sorted_keys.
  - by apply align_key_raises.
Qed.

Lemma align_layer_rejects_foreign_keys_witness :
  raises (align_layer state_dict_data_parallel).
Proof.
  apply (align_layer_rejects_foreign_keys state_dict_data_parallel
           "module.layer1.0.conv1.weight").
  - eexists. reflexivity.
  - reflexivity.
  - intros ch Hch. vm_compute in Hch. injection Hch as <-.
    repeat (apply not_elem_of_cons; split; [discriminate|]). apply not_elem_of_nil.
Defined.

(** X14 — [align_layer] is not idempotent.  On the state dict of a
    ResNet-50, a second application succeeds and shifts the block indices
    again: the entry of 'layer{L}.{B}.rest' ends at the index that the shift
    of the shifted index gives, and a block B >= 1 of layer 3 goes to B + 1 and
    then to B + 2.  So a checkpoint whose keys are already those of the ADL
    model must not be aligned again. *)
Theorem align_layer_twice {V} (sd : gmap string V) :
  resnet50_state_dict sd →
  ∃ sd' sd'',
    align_layer sd = Ok sd' ∧ align_layer sd' = Ok sd'' ∧
    (∀ l b rest v, l ≤ 4 → (0 ≤ b ≤ 5)%Z → sd !! layer_key l b rest = Some v →
       sd' !! layer_key l (b + adl_shift l b) rest = Some v ∧
       sd'' !! layer_key l (b + adl_shift l b + adl_shift l (b + adl_shift l b)) rest
         = Some v) ∧
    (∀ b rest v, (1 ≤ b ≤ 5)%Z → sd !! layer_key 3 b rest = Some v →
       sd' !! layer_key 3 (b + 1) rest = Some v ∧
       sd'' !! layer_key 3 (b + 2) rest = Some v).
Proof.
  intros Hsd.
  destruct (backbone_align_layer sd (resnet50_backbone sd Hsd))
    as (sd' & Hrun & Hmove & Honly).
  assert (backbone_state_dict sd') as Hsd'.
  { intros k' [v Hv]. destruct (Honly k' v Hv) as (k & -> & Hk).
    destruct (Hsd k) as [Hno|(l & b & rest & Hl & Hb & ->)]; [eauto|..].
    - left. by destruct (aligned_key_no_layer k Hno) as [_ ->].
    - right. destruct (aligned_key_layer_key l b rest Hl) as [-> _]; [lia|].
      pose proof (adl_shift_nonneg l b). pose proof (adl_shift_le_2 l b Hl).
      pose proof (adl_shift_le_2 l (b + adl_shift l b) Hl).
      exists l, (b + adl_shift l b)%Z, rest. repeat split; [done|lia|lia]. }
  destruct (backbone_align_layer sd' Hsd') as (sd'' & Hrun' & Hmove' & _).
  exists sd', sd''. split; [done|]. split; [done|].
  assert (Hboth : ∀ l b rest v, l ≤ 4 → (0 ≤ b ≤ 5)%Z →
    sd !! layer_key l b rest = Some v →
    sd' !! layer_key l (b + adl_shift l b) rest = Some v ∧
    sd'' !! layer_key l (b + adl_shift l b + adl_shift l (b + adl_shift l b)) rest
      = Some v).
  { intros l b rest v Hl Hb Hv.
    pose proof (adl_shift_nonneg l b). pose proof (adl_shift_le_2 l b Hl).
    destruct (aligned_key_layer_key l b rest Hl) as [Ha _]; [lia|].
    assert (sd' !! layer_key l (b + adl_shift l b) rest = Some v) as Hv'.
    { rewrite <- Ha, Hmove; eauto. }
    split; [done|].
    destruct (aligned_key_layer_key l (b + adl_shift l b) rest Hl) as [Ha' _]; [lia|].
    rewrite <- Ha', Hmove'; eauto. }
  split; [exact Hboth|].
  intros b rest v Hb Hv.
  destruct (Hboth 3 b rest v) as [H1 H2]; [lia|lia|done|].
  rewrite adl_shift_layer3 in H1, H2 by lia.
  rewrite adl_shift_layer3 in H2 by lia.
  split; [done|]. by replace (b + 2)%Z with (b + 1 + 1)%Z by lia.
Qed.

Lemma align_layer_twice_witness :
  ∃ sd' sd'',
    align_layer state_dict_example = Ok sd' ∧ align_layer sd' = Ok sd'' ∧
    sd' !! "layer3.2.conv1.weight" = Some 2 ∧
    sd'' !! "layer3.3.conv1.weight" = Some 2 ∧
    sd'' !! "layer4.5.bn3.bias" = Some 3.
Proof.
  destruct (align_layer_twice state_dict_example)
    as (sd' & sd'' & Hrun & Hrun' & Hboth & H3).
  - intros k [v Hk]. apply elem_of_map_to_list in Hk.
    vm_compute in Hk.
    repeat (apply elem_of_cons in Hk as [Hk|Hk]; [injection Hk as -> ->|]).
    + left. reflexivity.
    + right. exists 3, 1%Z, "conv1.weight". split; [lia|]. split; [lia|reflexivity].
    + right. exists 3, 0%Z, "conv1.weight". split; [lia|]. split; [lia|reflexivity].
    + right. exists 4, 2%Z, "bn3.bias". split; [lia|]. split; [lia|reflexivity].
    + by apply elem_of_nil in Hk.
  - exists sd', sd''. split; [exact Hrun|]. split; [exact Hrun'|].
    destruct (H3 1%Z "conv1.weight" 2) as [H1 H2]; [lia|reflexivity|].
    split; [exact H1|]. split; [exact H2|].
    destruct (Hboth 4 2%Z "bn3.bias" 3) as [_ H4]; [lia|lia|reflexivity|].
    exact H4.
Defined.

(** X15 — What one call of [load_pretrained] does to the world, for every
    world, model and argument.  The events it adds are: for a non-empty path
    the printed message and one [torch.load] of that path; otherwise one
    [load_url] of the URL of the architecture, or nothing when [model_urls]
    has no entry for it; then at most one [load_state_dict], as the last
    event.  It never reads both the file and the URL, and never loads a state
    dict twice. *)
Theorem load_pretrained_trace {V} (w : world V) (model : nn_model V)
    (wsol_method architecture : string) (path : option string)
    (kwargs : gmap string pyval) (tr : list event) :
  ∃ evs,
    (load_pretrained w model wsol_method architecture path kwargs tr).2 = tr ++ evs ∧
    load_trace architecture path evs.
Proof.
  rewrite load_pretrained_fetch.
  destruct (fetch_state_dict_trace w wsol_method architecture path tr)
    as (evs & Htr & Hshape).
  destruct (fetch_state_dict w wsol_method architecture path tr) as [[sd|e] tr'];
    simpl in *; subst tr'.
  - destruct (lenient_condition wsol_method path kwargs) as [lenient|e]; simpl.
    + eexists. rewrite <- app_assoc. split; [done|]. apply Hshape. constructor.
    + exists evs. split; [done|]. rewrite <- (app_nil_r evs). apply Hshape. constructor.
  - by exists evs.
Qed.



(** X17 — When [kwargs['dataset_name']] is read.  Without a path the
    dataset name is looked up after the state dict has been fetched: if it is
    missing, [load_pretrained] raises [KeyError] then, and [load_state_dict]
    is not called.  With a path, [path is None] is false and the keyword
    arguments are never read: the result does not depend on them. *)
Theorem load_pretrained_dataset_name {V} (w : world V) (model : nn_model V)
    (wsol_method architecture : string) (kwargs : gmap string pyval)
    (sd : gmap string V) (tr tr' : list event) :
  fetch_state_dict w wsol_method architecture None tr = (Ok sd, tr') →
  kwargs !! "dataset_name" = None →
  load_pretrained w model wsol_method architecture None kwargs tr
    = (Raise (KeyError "dataset_name"), tr') ∧
  ∀ p kwargs',
    load_pretrained w model wsol_method architecture (Some p) kwargs tr
    = load_pretrained w model wsol_method architecture (Some p) kwargs' tr.
Proof.
  intros Hfetch Hk. split.
  - rewrite load_pretrained_fetch, Hfetch.
    unfold lenient_condition, lookup_or_KeyError. by rewrite Hk.
  - intros p kwargs'. by rewrite !load_pretrained_fetch.
Qed.

Lemma load_pretrained_dataset_name_witness :
  ∃ model,
  load_pretrained world_example model "cam" "resnet50" None ∅ []
    = (Raise (KeyError "dataset_name"),
       [ELoadUrl "https://download.pytorch.org/models/resnet50-19c8e357.pth"]) ∧
  load_pretrained world_example model "cam" "resnet50" (Some "ckpt.pth") ∅ []
    = load_pretrained world_example model "cam" "resnet50" (Some "ckpt.pth")
        (kwargs_example "CUB" 200) [].
Proof.
  exists (NnModel CResNetCam ∅).
  destruct (load_pretrained_dataset_name world_example (NnModel CResNetCam ∅)
              "cam" "resnet50" ∅
              (<[ "conv1.weight" := 1 ]> (<[ "fc.weight" := 2 ]> {[ "fc.bias" := 3 ]}))
              [] [ELoadUrl "https://download.pytorch.org/models/resnet50-19c8e357.pth"])
    as [Hraise Hsame]; [reflexivity | reflexivity |].
  split; [exact Hraise|apply Hsame].
Defined.

(** X18 — Where [ResNetAdl._make_layer] puts the ADL modules.  For
    positions that are strictly increasing and inside the layer, the layer is
    the list of its blocks in order, with one ADL module directly after each
    block whose index is a position: inserting from the last position to the
    first keeps the earlier positions valid. *)
Theorem make_layer_places_ADL (blocks : nat) (split : list Z) :
  0 < blocks →
  StronglySorted Z.lt split →
  Forall (λ pos, 0 ≤ pos < Z.of_nat blocks)%Z split →
  _make_layer blocks split = seq 0 blocks ≫= with_adl split.
Proof.
  intros Hb Hs Hr. rewrite make_layer_foldr.
  induction Hs as [|pos ps Hs IH Hlt]; simpl.
  - rewrite bind_with_adl_fresh by (intros k _; apply not_elem_of_nil).
    by apply layer_seq.
  - apply Forall_cons in Hr as [Hp Hr]. rewrite IH by done. clear IH.
    set (p := Z.to_nat pos).
    replace (Z.to_nat (pos + 1)) with (S p) by lia.
    replace blocks with (S p + (blocks - S p)) by lia.
    rewrite seq_app, !bind_app. simpl plus.
    assert (Hfresh : ∀ k, k ≤ p → Z.of_nat k ∉ ps).
    { intros k Hk Hin. eapply Forall_forall in Hlt; [|exact Hin]. lia. }
    rewrite (bind_with_adl_fresh ps 0 (S p)) by (intros k Hk; apply Hfresh; lia).
    unfold list_insert_at.
    rewrite take_app_length' by (by rewrite length_fmap, length_seq).
    rewrite drop_app_length' by (by rewrite length_fmap, length_seq).
    rewrite seq_S, bind_app, fmap_app. simpl seq. simpl plus.
    rewrite <- !app_assoc. f_equal.
    + rewrite bind_with_adl_fresh; [done|].
      intros k Hk Hin. apply elem_of_cons in Hin as [Hin|Hin]; [lia|].
      by apply (Hfresh k); [lia|].
    + rewrite bind_cons. change ([] ≫= with_adl (pos :: ps)) with (@nil slot).
      rewrite app_nil_r.
      assert (with_adl (pos :: ps) p = [Block p; ADL]) as ->.
      { unfold with_adl. by rewrite decide_True by (apply elem_of_cons; left; lia). }
      simpl. do 2 f_equal.
      apply Forall_bind_ext, Forall_forall. intros k Hk.
      apply elem_of_seq in Hk. unfold with_adl. f_equal.
      destruct (decide (Z.of_nat k ∈ ps)) as [Hin|Hin].
      * by rewrite decide_True by (apply elem_of_cons; by right).
      * rewrite decide_False; [done|].
        intros Hin'. apply elem_of_cons in Hin' as [?|?]; [lia|done].
Qed.

Lemma make_layer_places_ADL_witness :
  _make_layer 3 [0; 2]%Z = [Block 0; ADL; Block 1; Block 2; ADL] ∧
  _make_layer 6 [0]%Z = [Block 0; ADL; Block 1; Block 2; Block 3; Block 4; Block 5].
Proof.
  split.
  - rewrite (make_layer_places_ADL 3 [0; 2]%Z); [reflexivity|lia| |].
    + repeat constructor; lia.
    + repeat constructor; lia.
  - rewrite (make_layer_places_ADL 6 [0]%Z); [reflexivity|lia| |].
    + repeat constructor.
    + repeat constructor; lia.
Defined.

(** ** Residual layers and constructors *)

(** X19 — The blocks of one layer.  For every number of input channels,
    planes, block count and stride, [_layer] leaves [self.inplanes] at
    4 * planes and returns max(1, blocks) blocks.  The first takes
    [inplanes] channels and has the stride of the layer, the others take
    4 * planes channels and have stride 1; inside a block the convolutions
    chain and the last one gives 4 * planes channels.  A block without
    shortcut projection has stride 1 and as many input as output channels; a
    projection is a 1 x 1 convolution from the input channels to the output
    channels with the stride of the block. *)
Theorem layer_channels_chain (inplanes planes : nat) (blocks : Z) (stride : nat) :
  (Init._layer inplanes planes blocks stride).2 = planes * 4 ∧
  length (Init._layer inplanes planes blocks stride).1 = Z.to_nat (Z.max 1 blocks) ∧
  ∀ i blk, (Init._layer inplanes planes blocks stride).1 !! i = Some blk →
    in_channels (cfg_conv1 blk) = (if decide (i = 0) then inplanes else planes * 4) ∧
    cfg_stride blk = (if decide (i = 0) then stride else 1) ∧
    out_channels (cfg_conv1 blk) = in_channels (cfg_conv2 blk) ∧
    out_channels (cfg_conv2 blk) = in_channels (cfg_conv3 blk) ∧
    out_channels (cfg_conv3 blk) = planes * 4 ∧
    conv_stride (cfg_conv2 blk) = cfg_stride blk ∧
    shortcut_fits blk.
Proof.
  rewrite layer_blocks. simpl. split; [done|]. split.
  { rewrite length_replicate. lia. }
  intros [|i] blk Hblk; simpl in Hblk.
  - injection Hblk as <-. pose proof (shortcut_fits_first inplanes planes stride).
    by repeat split.
  - apply lookup_replicate in Hblk as [-> _].
    pose proof (shortcut_fits_next planes). by repeat split.
Qed.

(** X20 — The residual additions of a layer fit.  Take the blocks that
    [_layer] configures, with layers that behave as configured as far as
    shapes go: each convolution and each batch norm accepts the channels it
    was built for and nothing else is asked of it, the shortcut projection
    is its convolution followed by its batch norm.  Then the [nn.Sequential]
    of these blocks maps every input of shape (B, inplanes, H, W) with
    H, W > 0 to an output of shape
    (B, 4 * planes, (H - 1) / stride + 1, (W - 1) / stride + 1), provided
    that the output has more than one value per channel, which batch norm
    asks for in training mode: every batch norm gets the number of features
    it was built for and no [out += identity] of [Bottleneck.forward] fails
    on a shape. *)
Theorem make_layer_shapes {T} `{Scalar T} (inplanes planes : nat) (blocks : Z)
    (stride : nat) (selfs : list (Bottleneck.t T)) (x : tensor T) (b h w : nat) :
  Forall2 implements (Init._layer inplanes planes blocks stride).1 selfs →
  0 < stride → shape x = [b; inplanes; h; w] → 0 < h → 0 < w →
  1 < b * ((h - 1) / stride + 1) * ((w - 1) / stride + 1) →
  ∃ y, nn_Sequential (Bottleneck.forward <$> selfs) x = Ok y ∧
       shape y = [b; planes * 4; (h - 1) / stride + 1; (w - 1) / stride + 1].
Proof. apply layer_forward_shape. Qed.

Lemma make_layer_shapes_witness :
  ∃ y,
    nn_Sequential (Bottleneck.forward <$>
        (bottleneck_example <$> (Init._layer 64 128 4 2).1))
      (Tensor [1; 64; 5; 7] (replicate 2240 0%Qc)) = Ok y ∧
    shape y = [1; 512; 3; 4].
Proof.
  destruct (make_layer_shapes 64 128 4 2
              (bottleneck_example <$> (Init._layer 64 128 4 2).1)
              (Tensor [1; 64; 5; 7] (replicate 2240 0%Qc)) 1 5 7)
    as (y & Hrun & Hshape); [|lia|reflexivity|lia|lia|vm_compute; lia|].
  - apply bottleneck_examples_implement.
  - exists y. split; [exact Hrun|exact Hshape].
Defined.

(** X21 — The input sizes [Resnet.forward] accepts.  Let the feature
    extractor return a map of shape (B, C, H, W), B > 0, and the linear layer
    have [f] input features.  If H or W is less than 14, [nn.MaxPool2d(14, 14)]
    raises.  If the pooled map does not have exactly [f] entries per sample,
    the linear layer raises.  For 14 <= H, W < 28 and f = C the result has
    shape (B, N), and its entry for sample [i] and class [j] is the sum over
    the channels of the maximum of the top-left 14 x 14 window times the
    weight, plus the bias; the pixels beyond row and column 13 do not count. *)
Theorem Resnet_forward_window {T} `{Scalar T}
    (self : Resnet.t T) (x fm : tensor T) (b c h w n f : nat) :
  nn_Sequential (Resnet.features self) x = Ok fm →
  shape fm = [b; c; h; w] → b ≠ 0 →
  shape (Resnet.linear_weight self) = [n; f] →
  shape (Resnet.linear_bias self) = [n] →
  (h < 14 ∨ w < 14 → Resnet.forward self x = Raise RuntimeError) ∧
  (14 ≤ h → 14 ≤ w → f ≠ c * ((h - 14) / 14 + 1) * ((w - 14) / 14 + 1) →
   Resnet.forward self x = Raise RuntimeError) ∧
  (14 ≤ h < 28 → 14 ≤ w < 28 → f = c →
   ∃ out, Resnet.forward self x = Ok out ∧ shape out = [b; n] ∧
     ∀ i j, i < b → j < n →
       tget out [i; j] =
         Some (sadd (ssum (tabulate c (λ k,
                 smul (window_max fm i k) (elem (Resnet.linear_weight self) [j; k]))))
                    (elem (Resnet.linear_bias self) [j]))).
Proof.
  intros Hfeat Hfm Hb Hw Hbias. unfold Resnet.forward.
  rewrite (bind_Ok _ _ _ Hfeat).
  split; [|split].
  - intros Hsmall. by rewrite (max_pool2d_too_small fm b c h w).
  - intros Hh Hw' Hf.
    destruct (max_pool2d_shape fm b c h w 14 14 Hfm) as (p & Hpool & Hp & Hwfp & _);
      [lia..|].
    rewrite (bind_Ok _ _ _ Hpool).
    set (h' := (h - 14) / 14 + 1) in *. set (w' := (w - 14) / 14 + 1) in *.
    assert (size p 0 = Ok b) as Hsz by (unfold size; by rewrite Hp).
    rewrite (bind_Ok _ _ _ Hsz).
    assert (view p [Some b; None] = Ok (Tensor [b; c * h' * w'] (data p))) as Hv.
    { apply (view_infer p [b] [] (c * h' * w')); [simpl; lia|].
      unfold wf in Hwfp. rewrite Hwfp, Hp. simpl. lia. }
    rewrite (bind_Ok _ _ _ Hv).
    unfold linear. cbn [shape]. rewrite Hw, Hbias.
    by rewrite decide_False by (intros [? _]; lia).
  - intros Hh Hw' ->.
    destruct (max_pool2d_shape fm b c h w 14 14 Hfm) as (p & Hpool & Hp & Hwfp & Hget);
      [lia..|].
    rewrite (bind_Ok _ _ _ Hpool).
    assert ((h - 14) / 14 = 0) as Hh0 by (apply Nat.div_small; lia).
    assert ((w - 14) / 14 = 0) as Hw0 by (apply Nat.div_small; lia).
    rewrite Hh0, Hw0 in *. change (0 + 1) with 1 in *.
    assert (size p 0 = Ok b) as Hsz by (unfold size; by rewrite Hp).
    rewrite (bind_Ok _ _ _ Hsz).
    assert (view p [Some b; None] = Ok (Tensor [b; c] (data p))) as Hv.
    { apply (view_infer p [b] [] c); [simpl; lia|].
      unfold wf in Hwfp. rewrite Hwfp, Hp. simpl. lia. }
    rewrite (bind_Ok _ _ _ Hv).
    unfold linear. cbn [shape]. rewrite Hw, Hbias.
    rewrite decide_True by done.
    eexists. split; [done|]. split; [done|].
    intros i j Hi Hj. unfold tget. cbn [shape data].
    rewrite decide_True by (repeat constructor; done).
    replace (ravel [b; n] [i; j]) with (i * n + j) by (simpl; lia).
    rewrite lookup_tabulate by nia.
    destruct (div_mod_flat i j n Hj) as [-> ->].
    f_equal. f_equal; [f_equal|].
    + apply tabulate_ext. intros k Hk. f_equal.
      * rewrite bget_in_bounds by (repeat constructor; done).
        specialize (Hget i k 0 0 Hi Hk ltac:(lia) ltac:(lia)).
        unfold elem, tget in *. rewrite Hp in Hget. cbn [shape data].
        rewrite decide_True in Hget by (repeat constructor; lia).
        rewrite decide_True by (repeat constructor; lia).
        replace (ravel [b; c] [i; k]) with (ravel [b; c; 1; 1] [i; k; 0; 0])
          by (simpl; lia).
        rewrite Hget. cbn [default]. unfold window_max.
        reflexivity.
      * apply bget_in_bounds. rewrite Hw. repeat constructor; done.
    + apply bget_in_bounds. rewrite Hbias. repeat constructor; done.
Qed.

Lemma Resnet_forward_window_witness :
  (∃ out, Resnet.forward resnet_example ramp_14 = Ok out ∧ shape out = [1; 1] ∧
          value_at out [0; 0] = Some (391 # 1)%Q) ∧
  Resnet.forward resnet_example (qtensor [1; 1; 2; 2] [1; 2; 3; 4]%Z)
    = Raise RuntimeError.
Proof.
  split.
  - destruct (Resnet_forward_window resnet_example ramp_14 ramp_14 1 1 14 14 1 1)
      as (_ & _ & Hok); [reflexivity | reflexivity | lia | reflexivity | reflexivity |].
    destruct Hok as (out & Hrun & Hshape & Hget); [lia | lia | reflexivity |].
    exists out. split; [exact Hrun|]. split; [exact Hshape|].
    unfold value_at. rewrite (Hget 0 0) by lia. vm_compute. reflexivity.
  - destruct (Resnet_forward_window resnet_example
                (qtensor [1; 1; 2; 2] [1; 2; 3; 4]%Z)
                (qtensor [1; 1; 2; 2] [1; 2; 3; 4]%Z) 1 1 2 2 1 1)
      as (Hsmall & _); [reflexivity | reflexivity | lia | reflexivity | reflexivity |].
    apply Hsmall. lia.
Defined.

(** X22 — The classifier of ResNetCam fits its feature extractor for
    every depth.  Take the configuration that [ResNetCam.__init__] builds for
    a list [layers] and a head whose layers behave as configured as far as
    shapes go: each convolution and each batch norm accepts the channels it
    was built for, and nothing is asked of them on other inputs.  Then for
    every input of shape (B, 3, H, W) with H, W > 0 whose last feature map
    has more than one value per channel (which batch norm asks for in
    training mode), that map has 2048 channels and the resolution of the
    input halved four times, or three times with [large_feature_map], each
    time rounded up; and [forward] returns logits of shape
    (B, num_classes). *)
Theorem ResNetCam_layers_fit {T} `{Scalar T}
    (layers : list Z) (num_classes : nat) (large_feature_map : bool)
    (cfg : Init.ResNetCam_config) (self : ResNetCam.t T)
    (blocks1 blocks2 blocks3 blocks4 : list (Bottleneck.t T))
    (x : tensor T) (b h w : nat) (labels : labels_arg T) :
  Init.ResNetCam layers num_classes large_feature_map = Ok cfg →
  conv_like (Init.c_conv1 cfg) (ResNetCam.conv1 self) →
  bn_like (Init.c_bn1 cfg) (ResNetCam.bn1 self) →
  relu_like (ResNetCam.relu self) →
  pool_like (Init.c_maxpool cfg) (ResNetCam.maxpool self) →
  Forall2 implements (Init.c_layer1 cfg) blocks1 →
  Forall2 implements (Init.c_layer2 cfg) blocks2 →
  Forall2 implements (Init.c_layer3 cfg) blocks3 →
  Forall2 implements (Init.c_layer4 cfg) blocks4 →
  ResNetCam.layer1 self = nn_Sequential (Bottleneck.forward <$> blocks1) →
  ResNetCam.layer2 self = nn_Sequential (Bottleneck.forward <$> blocks2) →
  ResNetCam.layer3 self = nn_Sequential (Bottleneck.forward <$> blocks3) →
  ResNetCam.layer4 self = nn_Sequential (Bottleneck.forward <$> blocks4) →
  shape (ResNetCam.fc_weight self) = [(Init.c_fc cfg).2; (Init.c_fc cfg).1] →
  shape (ResNetCam.fc_bias self) = [(Init.c_fc cfg).2] →
  shape x = [b; 3; h; w] → 0 < h → 0 < w →
  1 < b * feature_size large_feature_map h * feature_size large_feature_map w →
  ∃ fm logits,
    cam_features self x = Ok fm ∧
    shape fm = [b; 2048; feature_size large_feature_map h;
                feature_size large_feature_map w] ∧
    ResNetCam.forward self x labels false = Ok (Dict {[ "logits" := logits ]}) ∧
    shape logits = [b; num_classes].
Proof.
  intros Hcfg Hc1 Hbn Hrelu Hpool Hb1 Hb2 Hb3 Hb4 Hl1 Hl2 Hl3 Hl4 Hfw Hfb Hx Hh Hw Hn.
  destruct (init_ResNetCam_layers _ _ _ _ Hcfg) as (l0 & l1 & l2 & l3 & ->).
  cbn [Init.c_conv1 Init.c_bn1 Init.c_maxpool Init.c_layer1 Init.c_layer2
       Init.c_layer3 Init.c_layer4 Init.c_fc fst snd] in *.
  set (fh := feature_size large_feature_map h) in *.
  set (fw := feature_size large_feature_map w) in *.
  assert (0 < fh ∧ 0 < fw) as [Hfh Hfw'] by (split; apply feature_size_pos).
  assert (b ≠ 0) as Hb by (intros ->; simpl in Hn; lia).
  destruct (trunk_shape _ _ _ _ blocks1 blocks2 blocks3 l0 l1 l2 large_feature_map
              x b h w Hc1 Hbn Hrelu Hpool Hb1 Hb2 Hb3 Hx Hh Hw Hn)
    as (x7 & R7 & S7).
  fold fh fw in S7.
  assert ((fh - 1) / 1 + 1 = fh) as Eh by (rewrite Nat.div_1_r; lia).
  assert ((fw - 1) / 1 + 1 = fw) as Ew by (rewrite Nat.div_1_r; lia).
  destruct (layer_forward_shape 1024 512 l3 1 blocks4 x7 b fh fw Hb4 ltac:(lia) S7)
    as (fm & R8 & S8); [done|done|by rewrite Eh, Ew|].
  rewrite Eh, Ew in S8. change (512 * 4) with 2048 in S8.
  assert (cam_features self x = Ok fm) as Hfeat.
  { unfold cam_features. rewrite Hl1, Hl2, Hl3, Hl4.
    pose proof (chain_app
               [ResNetCam.conv1 self; ResNetCam.bn1 self; ResNetCam.relu self;
                ResNetCam.maxpool self;
                nn_Sequential (Bottleneck.forward <$> blocks1);
                nn_Sequential (Bottleneck.forward <$> blocks2);
                nn_Sequential (Bottleneck.forward <$> blocks3)]
               [nn_Sequential (Bottleneck.forward <$> blocks4)] x) as Happ.
    cbn [app] in Happ. rewrite Happ.
    rewrite (bind_Ok _ _ _ R7), chain_cons, (bind_Ok _ _ _ R8). apply chain_nil. }
  destruct (fc_logits_ok _ _ fm b 2048 _ _ num_classes S8 Hb Hfw Hfb)
    as (logits & Hlogits & Hls).
  exists fm, logits. split; [done|]. split; [done|]. split; [|done].
  by rewrite ResNetCam_forward_features, (bind_Ok _ _ _ Hfeat), (bind_Ok _ _ _ Hlogits).
Qed.

Lemma ResNetCam_layers_fit_witness :
  ∃ cfg fm logits,
    Init.ResNetCam [3; 4; 6; 3]%Z 2 false = Ok cfg ∧
    cam_features (resnet_cam_example cfg) zeros_image = Ok fm ∧
    shape fm = [1; 2048; 2; 2] ∧
    ResNetCam.forward (resnet_cam_example cfg) zeros_image LNone false
      = Ok (Dict {[ "logits" := logits ]}) ∧
    shape logits = [1; 2].
Proof.
  destruct (Init.ResNetCam [3; 4; 6; 3]%Z 2 false) as [cfg|e] eqn:Hcfg;
    [|discriminate Hcfg].
  destruct (ResNetCam_layers_fit [3; 4; 6; 3]%Z 2 false cfg (resnet_cam_example cfg)
              (bottleneck_example <$> Init.c_layer1 cfg)
              (bottleneck_example <$> Init.c_layer2 cfg)
              (bottleneck_example <$> Init.c_layer3 cfg)
              (bottleneck_example <$> Init.c_layer4 cfg)
              zeros_image 1 32 32 LNone)
    as (fm & logits & Hfeat & Hshape & Hrun & Hls);
    [ exact Hcfg | apply conv_zeros_like | apply bn_check_like
    | apply identity_relu_like | apply pool_zeros_like
    | apply bottleneck_examples_implement | apply bottleneck_examples_implement
    | apply bottleneck_examples_implement | apply bottleneck_examples_implement
    | reflexivity | reflexivity | reflexivity | reflexivity
    | reflexivity | reflexivity | reflexivity | lia | lia | vm_compute; lia |].
  exists cfg, fm, logits. split; [reflexivity|]. split; [exact Hfeat|].
  split; [exact Hshape|]. split; [exact Hrun|exact Hls].
Defined.

(** X23 — A [ResNetSpg] whose layers implement the configuration its
    constructor builds runs its trunk on any batch of three-channel images
    whose last feature map has more than one value per channel (which batch
    norm asks for in training mode): each convolution and each batch norm
    gets the channels it was built for, the hard-coded 1024 and 2048 input
    channels of the SPG_B and SPG_C branches are those the backbone
    delivers, the feature map has [num_classes] channels, the three
    auxiliary logits have one, and all four have the side
    [feature_size large_feature_map] of the input's. *)
Theorem ResNetSpg_branches_fit {T} `{Scalar T}
    (layers : list Z) (num_classes : nat) (large_feature_map : bool)
    (cfg : InitSpg.config) (self : ResNetSpg.t T)
    (blocks1 blocks2 blocksA1 blocksA2 blocks4 : list (Bottleneck.t T))
    (x : tensor T) (b h w : nat) :
  InitSpg.__init__ layers num_classes large_feature_map = Ok cfg →
  conv_like (InitSpg.c_conv1 cfg) (ResNetSpg.conv1 self) →
  bn_like (InitSpg.c_bn1 cfg) (ResNetSpg.bn1 self) →
  relu_like (ResNetSpg.relu self) →
  pool_like (InitSpg.c_maxpool cfg) (ResNetSpg.maxpool self) →
  Forall2 implements (InitSpg.c_layer1 cfg) blocks1 →
  Forall2 implements (InitSpg.c_layer2 cfg) blocks2 →
  Forall2 implements (InitSpg.c_SPG_A1 cfg) blocksA1 →
  Forall2 implements (InitSpg.c_SPG_A2 cfg) blocksA2 →
  Forall2 implements (InitSpg.c_layer4 cfg) blocks4 →
  ResNetSpg.layer1 self = nn_Sequential (Bottleneck.forward <$> blocks1) →
  ResNetSpg.layer2 self = nn_Sequential (Bottleneck.forward <$> blocks2) →
  ResNetSpg.SPG_A1 self = nn_Sequential (Bottleneck.forward <$> blocksA1) →
  ResNetSpg.SPG_A2 self = nn_Sequential (Bottleneck.forward <$> blocksA2) →
  ResNetSpg.layer4 self = nn_Sequential (Bottleneck.forward <$> blocks4) →
  conv_like (InitSpg.c_SPG_A4 cfg) (ResNetSpg.SPG_A4 self) →
  seq_like (InitSpg.c_SPG_B_1a cfg) (ResNetSpg.SPG_B_1a self) →
  seq_like (InitSpg.c_SPG_B_2a cfg) (ResNetSpg.SPG_B_2a self) →
  seq_like (InitSpg.c_SPG_B_shared cfg) (ResNetSpg.SPG_B_shared self) →
  seq_like (InitSpg.c_SPG_C cfg) (ResNetSpg.SPG_C self) →
  shape x = [b; 3; h; w] → 0 < h → 0 < w →
  1 < b * feature_size large_feature_map h * feature_size large_feature_map w →
  ∃ maps,
    spg_trunk self x = Ok maps ∧
    shape (feat_map maps) =
      [b; num_classes; feature_size large_feature_map h;
       feature_size large_feature_map w] ∧
    shape (logits_b1 maps) =
      [b; 1; feature_size large_feature_map h; feature_size large_feature_map w] ∧
    shape (logits_b2 maps) =
      [b; 1; feature_size large_feature_map h; feature_size large_feature_map w] ∧
    shape (logits_c maps) =
      [b; 1; feature_size large_feature_map h; feature_size large_feature_map w].
Proof.
  intros Hcfg Hc1 Hbn Hrelu Hpool Hb1 Hb2 HbA1 HbA2 Hb4 Hl1 Hl2 HlA1 HlA2 Hl4
    HA4 HB1 HB2 HBs HC Hx Hh Hw Hn.
  destruct (init_ResNetSpg_layers _ _ _ _ Hcfg)
    as (l0 & l1 & l2 & l3 & E1 & Eb & Ep & E2 & E3 & E4 & E5 & E6 & E7 & E8 & E9
        & E10 & E11).
  rewrite E1 in Hc1. rewrite Eb in Hbn. rewrite Ep in Hpool. rewrite E2 in Hb1.
  rewrite E3 in Hb2. rewrite E4 in HbA1. rewrite E5 in HbA2. rewrite E6 in Hb4.
  rewrite E7 in HA4. rewrite E8 in HB1. rewrite E9 in HB2. rewrite E10 in HBs.
  rewrite E11 in HC.
  clear E1 Eb Ep E2 E3 E4 E5 E6 E7 E8 E9 E10 E11 Hcfg.
  set (fh := feature_size large_feature_map h) in *.
  set (fw := feature_size large_feature_map w) in *.
  assert (0 < fh ∧ 0 < fw) as [Hfh Hfw] by (split; apply feature_size_pos).
  destruct (trunk_shape _ _ _ _ blocks1 blocks2 blocksA1 l0 l1 1 large_feature_map
              x b h w Hc1 Hbn Hrelu Hpool Hb1 Hb2 HbA1 Hx Hh Hw Hn)
    as (x7 & R7 & S7).
  fold fh fw in S7.
  destruct (HB1 x7 [b; 1024; fh; fw]) as (p1 & Rp1 & Sp1).
  { rewrite S7. by apply seq_shape_conv_relu. }
  destruct (HBs p1 [b; 1; fh; fw]) as (b1 & Rb1 & Sb1).
  { rewrite Sp1. by apply seq_shape_conv_relu_conv. }
  change 1024 with (256 * 4) in S7.
  destruct (blocks_keep_shape blocksA2 256 x7 b fh fw
              (Forall2_implements_replicate _ _ _ HbA2) S7 Hfh Hfw Hn)
    as (x8 & R8 & S8).
  change (256 * 4) with 1024 in S8.
  destruct (HB2 x8 [b; 1024; fh; fw]) as (p2 & Rp2 & Sp2).
  { rewrite S8. by apply seq_shape_conv_relu. }
  destruct (HBs p2 [b; 1; fh; fw]) as (b2 & Rb2 & Sb2).
  { rewrite Sp2. by apply seq_shape_conv_relu_conv. }
  assert ((fh - 1) / 1 + 1 = fh) as Eh by (rewrite Nat.div_1_r; lia).
  assert ((fw - 1) / 1 + 1 = fw) as Ew by (rewrite Nat.div_1_r; lia).
  destruct (layer_forward_shape 1024 512 l3 1 blocks4 x8 b fh fw Hb4 ltac:(lia) S8)
    as (x9 & R9 & S9); [done|done|by rewrite Eh, Ew|].
  rewrite Eh, Ew in S9. change (512 * 4) with 2048 in S9.
  destruct (HA4 x9 [b; num_classes; fh; fw]) as (fm & Rfm & Sfm).
  { rewrite S9. by apply conv_shape_1x1. }
  destruct (HC x9 [b; 1; fh; fw]) as (lc & Rc & Sc).
  { rewrite S9. by apply seq_shape_conv_relu_conv. }
  exists (SpgMaps fm b1 b2 lc). split; [|done].
  unfold spg_trunk. rewrite Hl1, Hl2, HlA1, (bind_Ok _ _ _ R7).
  assert (chain [ResNetSpg.SPG_B_1a self; ResNetSpg.SPG_B_shared self] x7 = Ok b1) as ->.
  { rewrite chain_cons, Rp1. simpl. rewrite chain_cons, Rb1. simpl. apply chain_nil. }
  simpl. rewrite HlA2, R8. simpl.
  assert (chain [ResNetSpg.SPG_B_2a self; ResNetSpg.SPG_B_shared self] x8 = Ok b2) as ->.
  { rewrite chain_cons, Rp2. simpl. rewrite chain_cons, Rb2. simpl. apply chain_nil. }
  simpl. rewrite Hl4, R9. simpl. rewrite Rfm. simpl. by rewrite Rc.
Qed.

Lemma ResNetSpg_branches_fit_witness :
  ∃ cfg maps,
    InitSpg.__init__ [3; 4; 6; 3]%Z 2 false = Ok cfg ∧
    spg_trunk (resnet_spg_example cfg) zeros_image = Ok maps ∧
    shape (feat_map maps) = [1; 2; 2; 2] ∧
    shape (logits_b1 maps) = [1; 1; 2; 2] ∧
    shape (logits_b2 maps) = [1; 1; 2; 2] ∧
    shape (logits_c maps) = [1; 1; 2; 2].
Proof.
  destruct (InitSpg.__init__ [3; 4; 6; 3]%Z 2 false) as [cfg|e] eqn:Hcfg;
    [|discriminate Hcfg].
  destruct (ResNetSpg_branches_fit [3; 4; 6; 3]%Z 2 false cfg (resnet_spg_example cfg)
              (bottleneck_example <$> InitSpg.c_layer1 cfg)
              (bottleneck_example <$> InitSpg.c_layer2 cfg)
              (bottleneck_example <$> InitSpg.c_SPG_A1 cfg)
              (bottleneck_example <$> InitSpg.c_SPG_A2 cfg)
              (bottleneck_example <$> InitSpg.c_layer4 cfg)
              zeros_image 1 32 32)
    as (maps & Hrun & Hfm & Hb1 & Hb2 & Hc);
    [ exact Hcfg | apply conv_zeros_like | apply bn_check_like
    | apply identity_relu_like | apply pool_zeros_like
    | apply bottleneck_examples_implement | apply bottleneck_examples_implement
    | apply bottleneck_examples_implement | apply bottleneck_examples_implement
    | apply bottleneck_examples_implement
    | reflexivity | reflexivity | reflexivity | reflexivity | reflexivity
    | apply conv_zeros_like | apply seq_zeros_like | apply seq_zeros_like
    | apply seq_zeros_like | apply seq_zeros_like
    | reflexivity | lia | lia | vm_compute; lia |].
  exists cfg, maps. split; [reflexivity|]. split; [exact Hrun|].
  split; [exact Hfm|]. split; [exact Hb1|]. split; [exact Hb2|exact Hc].
Defined.
